(** * Hierarchical aggregation of temporal data (gears)

    A shallow embedding of the aggregation framework of
    [examples/dask-hierarchical-aggregation.ipynb]: the column-naming helpers
    [rename], [get_vars_from_flat_cols] and [get_cols], and the three stages
    [init_agg] (raw -> lossless), [coarsen_agg] (lossless -> lossless) and
    [finalize_agg] (lossless -> final).

    The notebook runs on dataframes.  The dataframe primitives it calls
    (column selection and assignment, [reset_index], [groupby] with [agg] and
    [transform], element-wise arithmetic, [fillna], [dt.floor], [pd.unique],
    and the row selection and stacking by which tables are split and put
    together) are modelled in the first half of the file.

    Two idealisations hold throughout that model.  Floating-point numbers
    are read as exact reals extended with the two infinities and
    not-a-number, so that every statement about values is a statement under
    real arithmetic.  A table is one sequence of rows: the partitions in
    which the engine holds a table are not modelled, a grouping returns its
    groups in the order of their keys, and a transformed column stays
    aligned, row by row, with the columns it is combined with, as on a table
    held in a single partition.

    The module [Binary64] at the end of the definitions follows the
    arithmetic of the three stages in binary64, with the variance taken in
    one pass as the engine takes it; the last section evaluates it where the
    exact reading and the computation part. *)

From Stdlib Require Import PrimFloat.
From Stdlib Require Import String Ascii List Bool Arith ZArith Lia.
From Stdlib Require Import Reals RList ROrderedType Lra Permutation.
From Stdlib Require DecimalString Finite OrderedTypeEx.
From Stdlib Require Import Sorted.
Import ListNotations.

Local Open Scope string_scope.
Local Open Scope list_scope.

(** ** Errors *)

(** The exceptions the dataframe engine raises on the paths the notebook
    takes. *)
Inductive error : Type :=
| KeyError (name : string)
| TypeError
| ValueError
| AttributeError.

Inductive result (A : Type) : Type :=
| Ok (a : A)
| Err (e : error).

Arguments Ok {A} a.
Arguments Err {A} e.

Definition bind {A B : Type} (m : result A) (k : A -> result B) : result B :=
  match m with
  | Ok a => k a
  | Err e => Err e
  end.

Notation "x <- m ;; k" := (bind m (fun x => k))
  (at level 61, m at next level, right associativity).

Fixpoint mapM {A B : Type} (f : A -> result B) (l : list A) : result (list B) :=
  match l with
  | [] => Ok []
  | a :: r => b <- f a ;; bs <- mapM f r ;; Ok (b :: bs)
  end.

(** ** Numbers: reals with infinities and not-a-number *)

Inductive num : Type :=
| Fin (x : R)
| PInf
| NInf
| NaN.

Definition nneg (a : num) : num :=
  match a with
  | Fin x => Fin (- x)
  | PInf => NInf
  | NInf => PInf
  | NaN => NaN
  end.

Definition nadd (a b : num) : num :=
  match a, b with
  | NaN, _ | _, NaN => NaN
  | Fin x, Fin y => Fin (x + y)
  | PInf, NInf | NInf, PInf => NaN
  | PInf, _ | _, PInf => PInf
  | NInf, _ | _, NInf => NInf
  end.

Definition nsub (a b : num) : num := nadd a (nneg b).

(** An infinity times a finite number takes the sign of the product; zero
    times an infinity is not a number. *)
Definition inf_by_sign (positive : bool) (x : R) : num :=
  match Rcompare x 0 with
  | Eq => NaN
  | Gt => if positive then PInf else NInf
  | Lt => if positive then NInf else PInf
  end.

Definition nmul (a b : num) : num :=
  match a, b with
  | NaN, _ | _, NaN => NaN
  | Fin x, Fin y => Fin (x * y)
  | Fin x, PInf | PInf, Fin x => inf_by_sign true x
  | Fin x, NInf | NInf, Fin x => inf_by_sign false x
  | PInf, PInf | NInf, NInf => PInf
  | PInf, NInf | NInf, PInf => NInf
  end.

(** Division never raises: a finite number over zero is an infinity of its
    sign, and [0 / 0] is not a number. *)
Definition ndiv (a b : num) : num :=
  match a, b with
  | NaN, _ | _, NaN => NaN
  | Fin x, Fin y =>
      match Rcompare y 0 with
      | Eq => inf_by_sign true x
      | _ => Fin (x / y)
      end
  | Fin _, PInf | Fin _, NInf => Fin 0
  | PInf, Fin y => match Rcompare y 0 with Lt => NInf | _ => PInf end
  | NInf, Fin y => match Rcompare y 0 with Lt => PInf | _ => NInf end
  | _, _ => NaN
  end.

(** [x ** 2] *)
Definition nsquare (a : num) : num := nmul a a.

(** [x ** .5] *)
Definition nroot (a : num) : num :=
  match a with
  | Fin x => match Rcompare x 0 with Lt => NaN | _ => Fin (sqrt x) end
  | PInf | NInf => PInf
  | NaN => NaN
  end.

Definition fillna0 (a : num) : num :=
  match a with
  | NaN => Fin 0
  | _ => a
  end.

Definition notna (a : num) : bool :=
  match a with
  | NaN => false
  | _ => true
  end.

Definition nmin (a b : num) : num :=
  match a, b with
  | NaN, c | c, NaN => c
  | NInf, _ | _, NInf => NInf
  | PInf, c | c, PInf => c
  | Fin x, Fin y => Fin (Rmin x y)
  end.

Definition nmax (a b : num) : num :=
  match a, b with
  | NaN, c | c, NaN => c
  | PInf, _ | _, PInf => PInf
  | NInf, c | c, NInf => c
  | Fin x, Fin y => Fin (Rmax x y)
  end.

(** *** The aggregation functions of [groupby]; all of them skip
    not-a-number entries. *)

Definition agg_count (xs : list num) : num :=
  Fin (INR (length (filter notna xs))).

Definition agg_sum (xs : list num) : num :=
  fold_right nadd (Fin 0) (filter notna xs).

Definition agg_min (xs : list num) : num := fold_right nmin NaN xs.

Definition agg_max (xs : list num) : num := fold_right nmax NaN xs.

(** ['var']: the sample variance with one degree of freedom removed; it is
    not a number for fewer than two samples.  This is the exact value of
    the variance; the engine reduces it in one pass from the sum and the
    sum of squares, which is the same number under exact arithmetic
    ([one_pass_variance]) and is followed in binary64 by [Binary64.var]. *)
Definition agg_var (xs : list num) : num :=
  let ys := filter notna xs in
  let n := length ys in
  if (n <=? 1)%nat then NaN
  else
    let mean := ndiv (agg_sum ys) (Fin (INR n)) in
    ndiv (agg_sum (map (fun y => nsquare (nsub y mean)) ys))
         (Fin (INR n - 1)).

Inductive agg_fun : Type := Count | Sum | Var | Max | Min.

Definition agg_apply (f : agg_fun) : list num -> num :=
  match f with
  | Count => agg_count
  | Sum => agg_sum
  | Var => agg_var
  | Max => agg_max
  | Min => agg_min
  end.

(** ** Cells, keys and dataframes *)

(** A cell holds a label, a timestamp (an integer number of time units since
    the epoch) or a number. *)
Inductive cell : Type :=
| Str (s : string)
| Time (t : Z)
| Num (x : num).

Definition num_eqb (a b : num) : bool :=
  match a, b with
  | Fin x, Fin y => if Req_dec_T x y then true else false
  | PInf, PInf | NInf, NInf | NaN, NaN => true
  | _, _ => false
  end.

Definition cell_eqb (a b : cell) : bool :=
  match a, b with
  | Str s, Str t => String.eqb s t
  | Time s, Time t => Z.eqb s t
  | Num x, Num y => num_eqb x y
  | _, _ => false
  end.

Fixpoint key_eqb (k1 k2 : list cell) : bool :=
  match k1, k2 with
  | [], [] => true
  | a :: r1, b :: r2 => cell_eqb a b && key_eqb r1 r2
  | _, _ => false
  end.

(** The order in which [groupby] sorts its group keys. *)
Definition num_leb (a b : num) : bool :=
  match a, b with
  | NaN, _ => true
  | _, NaN => false
  | NInf, _ => true
  | _, NInf => false
  | _, PInf => true
  | PInf, _ => false
  | Fin x, Fin y => if Rle_dec x y then true else false
  end.

Definition cell_leb (a b : cell) : bool :=
  match a, b with
  | Str s, Str t => String.leb s t
  | Str _, _ => true
  | Time _, Str _ => false
  | Time s, Time t => Z.leb s t
  | Time _, Num _ => true
  | Num x, Num y => num_leb x y
  | Num _, _ => false
  end.

Fixpoint key_leb (k1 k2 : list cell) : bool :=
  match k1, k2 with
  | [], _ => true
  | _ :: _, [] => false
  | a :: r1, b :: r2 =>
      if cell_eqb a b then key_leb r1 r2 else cell_leb a b
  end.

(** A dataframe: the index levels (name and values) and the columns (label
    and values), every one of them of the same length. *)
Record DataFrame : Type := mkDF {
  index : list (option string * list cell);
  data : list (string * list cell)
}.

(** [df.columns] *)
Definition columns (df : DataFrame) : list string := map fst (data df).

Definition nrows (df : DataFrame) : nat :=
  match index df with
  | (_, l) :: _ => length l
  | [] => match data df with
          | (_, c) :: _ => length c
          | [] => 0%nat
          end
  end.

(** [x in l] for strings *)
Definition mem (x : string) (l : list string) : bool :=
  existsb (String.eqb x) l.

(** ** Strings and sequences of the host language *)

(** [s.split(sep)] for a one-character separator *)
Fixpoint split (sep : ascii) (s : string) : list string :=
  match s with
  | EmptyString => [EmptyString]
  | String c s' =>
      if Ascii.eqb c sep then EmptyString :: split sep s'
      else match split sep s' with
           | [] => [String c EmptyString]
           | p :: ps => String c p :: ps
           end
  end.

(** [l[:-1]] is [removelast l] and [sep.join(l)] is [String.concat sep l];
    the part of a column name before its last dot: *)
Definition var_part (col : string) : string :=
  String.concat "." (removelast (split "." col)).

Fixpoint has_dot (s : string) : bool :=
  match s with
  | EmptyString => false
  | String c s' => Ascii.eqb c "." || has_dot s'
  end.

(** [pd.unique]: the distinct values in order of first appearance; [seen] is
    the table of the values met so far. *)
Fixpoint unique_from (seen : list string) (l : list string) : list string :=
  match l with
  | [] => []
  | x :: r =>
      if mem x seen then unique_from seen r
      else x :: unique_from (x :: seen) r
  end.

Definition pd_unique (l : list string) : list string := unique_from [] l.

(** [zip(a, b)] applied to a function *)
Definition zipWith {A B C : Type} (f : A -> B -> C) (a : list A) (b : list B)
  : list C :=
  map (fun p => f (fst p) (snd p)) (combine a b).

(** [zip(l1, ..., lk)]: the tuples of the i-th elements, as long as the
    shortest list. *)
Fixpoint zipn {A : Type} (ls : list (list A)) : list (list A) :=
  match ls with
  | [] => []
  | [l] => map (fun x => [x]) l
  | l :: rest => zipWith cons l (zipn rest)
  end.

(** [chain.from_iterable] *)
Definition chain {A : Type} (ls : list (list A)) : list A := concat ls.

(** [l * n] *)
Definition times {A : Type} (l : list A) (n : nat) : list A :=
  concat (repeat l n).

(** [dict(pairs)]: a later pair with a key already present replaces its
    value and keeps its place. *)
Fixpoint dict_set {V : Type} (d : list (string * V)) (k : string) (v : V)
  : list (string * V) :=
  match d with
  | [] => [(k, v)]
  | (k', v') :: r =>
      if String.eqb k' k then (k, v) :: r else (k', v') :: dict_set r k v
  end.

Definition dict {V : Type} (pairs : list (string * V)) : list (string * V) :=
  fold_left (fun d p => dict_set d (fst p) (snd p)) pairs [].

(** ** Dataframe primitives *)

(** [df[name]] *)
Fixpoint lookup {V : Type} (name : string) (d : list (string * V)) : option V :=
  match d with
  | [] => None
  | (k, v) :: r => if String.eqb k name then Some v else lookup name r
  end.

Definition getcol (df : DataFrame) (name : string) : result (list cell) :=
  match lookup name (data df) with
  | Some c => Ok c
  | None => Err (KeyError name)
  end.

(** [df[names]] for a list of labels: the sub-frame of these columns, on the
    same index. *)
Definition select (df : DataFrame) (names : list string) : result DataFrame :=
  cs <- mapM (getcol df) names ;;
  Ok (mkDF (index df) (combine names cs)).

(** [df[name] = values]: replaces the column in place, or appends it. *)
Fixpoint set_assoc {V : Type} (d : list (string * V)) (k : string) (v : V)
  : list (string * V) :=
  match d with
  | [] => [(k, v)]
  | (k', v') :: r =>
      if String.eqb k' k then (k', v) :: r else (k', v') :: set_assoc r k v
  end.

Definition setcol (df : DataFrame) (name : string) (c : list cell) : DataFrame :=
  mkDF (index df) (set_assoc (data df) name c).

(** A frame of numbers whose columns are labelled by their positions
    [0, 1, ...]: the list of its columns. *)
Definition matrix : Type := list (list num).

Definition numcol (c : list cell) : result (list num) :=
  mapM (fun x => match x with Num v => Ok v | _ => Err TypeError end) c.

(** [df[names] = m] for a frame [m]: the i-th column of [m] goes to the i-th
    label. *)
Definition setcols (df : DataFrame) (names : list string) (m : matrix)
  : result DataFrame :=
  if negb (length names =? length m)%nat then Err ValueError
  else Ok (fold_left (fun d p => setcol d (fst p) (map Num (snd p)))
                     (combine names m) df).

(** Element-wise arithmetic between two position-labelled frames on the same
    index: columns are paired by label, and a label present on one side only
    gives a column of not-a-number. *)
Fixpoint frame_op (f : num -> num -> num) (a b : matrix) : matrix :=
  match a, b with
  | x :: a', y :: b' => zipWith f x y :: frame_op f a' b'
  | _, [] => map (map (fun _ => NaN)) a
  | [], _ => map (map (fun _ => NaN)) b
  end.

Definition frame_map (f : num -> num) (a : matrix) : matrix := map (map f) a.

(** [m.rename(columns={old: new ...})] from positions back to names *)
Definition relabel (names : list string) (m : matrix) : list (string * list cell) :=
  combine names (map (map Num) m).

(** The default index [0 .. n-1] *)
Definition range_index (n : nat) : list (option string * list cell) :=
  [(None, map (fun i => Num (Fin (INR i))) (seq 0 n))].

Definition nat_to_string (n : nat) : string :=
  DecimalString.NilEmpty.string_of_uint (Nat.to_uint n).

(** The labels [reset_index] gives to the promoted index levels *)
Definition level_names (df : DataFrame) : list string :=
  match index df with
  | [(None, _)] => [if mem "index" (columns df) then "level_0" else "index"]
  | lv =>
      map (fun p => match fst (snd p) with
                    | Some s => s
                    | None => ("level_" ++ nat_to_string (fst p))%string
                    end)
          (combine (seq 0 (length lv)) lv)
  end.

Fixpoint has_dup (l : list string) : bool :=
  match l with
  | [] => false
  | x :: r => mem x r || has_dup r
  end.

(** [df.reset_index()]: the index levels become the first columns; a label
    that is already taken is refused. *)
Definition reset_index (df : DataFrame) : result DataFrame :=
  let names := level_names df in
  if existsb (fun n => mem n (columns df)) names || has_dup names
  then Err ValueError
  else Ok (mkDF (range_index (nrows df))
                (combine names (map snd (index df)) ++ data df)).

(** [df.reset_index(drop=True)] *)
Definition reset_index_drop (df : DataFrame) : DataFrame :=
  mkDF (range_index (nrows df)) (data df).

(** [c.dt.floor(time_res)]: each timestamp goes down to the start of its
    bucket of width [time_res]. *)
Definition floor_time (time_res t : Z) : Z := (t - t mod time_res)%Z.

Definition dt_floor (time_res : Z) (c : list cell) : result (list cell) :=
  if (time_res <=? 0)%Z then Err ValueError
  else mapM (fun x => match x with
                      | Time t => Ok (Time (floor_time time_res t))
                      | _ => Err AttributeError
                      end) c.

(** *** Grouping *)

(** The key tuples of the rows, from the key columns *)
Fixpoint rows_of (n : nat) (cols : list (list cell)) : list (list cell) :=
  match cols with
  | [] => repeat [] n
  | c :: cs => zipWith cons c (rows_of n cs)
  end.

(** A row whose key holds a not-a-number takes part in no group. *)
Definition key_ok (k : list cell) : bool :=
  forallb (fun c => match c with Num NaN => false | _ => true end) k.

Fixpoint distinct (l : list (list cell)) : list (list cell) :=
  match l with
  | [] => []
  | k :: r => k :: filter (fun k' => negb (key_eqb k k')) (distinct r)
  end.

Fixpoint insert_key (k : list cell) (l : list (list cell)) : list (list cell) :=
  match l with
  | [] => [k]
  | h :: t => if key_leb k h then k :: l else h :: insert_key k t
  end.

Definition sort_keys (l : list (list cell)) : list (list cell) :=
  fold_right insert_key [] l.

(** The keys of the groups, sorted as [groupby] does by default on a table
    held in one partition *)
Definition group_keys (rows : list (list cell)) : list (list cell) :=
  sort_keys (distinct (filter key_ok rows)).

(** The entries of a column in the rows of key [k] *)
Definition group_of {A : Type} (rows : list (list cell)) (col : list A)
  (k : list cell) : list A :=
  map snd (filter (fun p => key_eqb (fst p) k) (combine rows col)).

(** The j-th components of the keys, for each of the [w] key columns *)
Definition cols_of (w : nat) (keys : list (list cell)) : list (list cell) :=
  map (fun j => map (fun k => nth j k (Num NaN)) keys) (seq 0 w).

(** [df.groupby(keys)]: the keys are labels of columns. *)
Record grouped : Type := mkGrouped {
  g_df : DataFrame;
  g_by : list string;
  g_rows : list (list cell)
}.

Definition groupby (df : DataFrame) (keys : list string) : result grouped :=
  kc <- mapM (getcol df) keys ;;
  Ok (mkGrouped df keys (rows_of (nrows df) kc)).

Definition key_levels (g : grouped) : list (option string * list cell) :=
  combine (map Some (g_by g))
          (cols_of (length (g_by g)) (group_keys (g_rows g))).

Definition agg_col (g : grouped) (f : agg_fun) (c : list num) : list cell :=
  map (fun k => Num (agg_apply f (group_of (g_rows g) c k)))
      (group_keys (g_rows g)).

(** [g.agg([f1, ..., fk])]: every column that is not a key, under every
    function, column by column; the result carries the keys as its index.
    Its two-level column labels are replaced before they are read, so only
    the columns are kept here. *)
Definition agg_list (g : grouped) (fs : list agg_fun)
  : result (list (option string * list cell) * list (list cell)) :=
  let others := filter (fun p => negb (mem (fst p) (g_by g))) (data (g_df g)) in
  cs <- mapM (fun p => c <- numcol (snd p) ;;
                       Ok (map (fun f => agg_col g f c) fs)) others ;;
  Ok (key_levels g, concat cs).

(** [df.columns = names] on the result of [agg_list] *)
Definition with_columns
  (r : list (option string * list cell) * list (list cell))
  (names : list string) : result DataFrame :=
  if negb (length names =? length (snd r))%nat then Err ValueError
  else Ok (mkDF (fst r) (combine names (snd r))).

(** [g.agg({column: function, ...})]: the named columns, in the order of the
    dictionary. *)
Definition agg_dict (g : grouped) (spec : list (string * agg_fun))
  : result DataFrame :=
  cs <- mapM (fun p => col <- getcol (g_df g) (fst p) ;;
                       c <- numcol col ;;
                       Ok (fst p, agg_col g (snd p) c)) spec ;;
  Ok (mkDF (key_levels g) cs).

(** [g[names].transform(f)]: the aggregate of its group, at every row.  The
    rows keep their places, as they do on a table held in one partition;
    over several partitions the engine returns them regrouped by key. *)
Definition transform (g : grouped) (f : agg_fun) (names : list string)
  : result DataFrame :=
  cs <- mapM (fun name => col <- getcol (g_df g) name ;;
                          c <- numcol col ;;
                          Ok (name,
                              map (fun k => if key_ok k
                                            then Num (agg_apply f (group_of (g_rows g) c k))
                                            else Num NaN)
                                  (g_rows g))) names ;;
  Ok (mkDF (index (g_df g)) cs).

(** [df.astype('float')] *)
Definition astype_float (df : DataFrame) : result matrix :=
  mapM (mapM (fun x => match x with
                       | Num v => Ok v
                       | Str _ => Err ValueError
                       | Time _ => Err TypeError
                       end))
       (map snd (data df)).

(** [dd.concat(frames, axis=1)] for frames on the same index *)
Definition concat_columns (idx : list (option string * list cell))
  (parts : list (list (string * list cell))) : DataFrame :=
  mkDF idx (concat parts).

(** ** The notebook's functions *)

(** [rename]: the columns take their positions as labels, which lets frames
    of the same width be combined column by column.  Every renamed frame of
    the notebook is an operand of arithmetic, so it is read as a frame of
    numbers here, and a cell that is not a number is refused. *)
Definition rename (df : DataFrame) : result matrix :=
  mapM numcol (map snd (data df)).

Definition get_vars_from_flat_cols (df : DataFrame) (not_vars : list string)
  : list string :=
  pd_unique
    (map var_part
         (filter (fun col => negb (mem col not_vars)) (columns df))).

Definition get_cols (variables : list string) (agg_type : string) : list string :=
  map (fun x => (x ++ "." ++ agg_type)%string) variables.

(** The statistics of a lossless table in the order [coarsen_agg] lays them
    out, in the order [init_agg] lays them out, and those of a final table. *)
Definition lossless_stats : list string :=
  ["count"; "sum"; "sum_sq_diff"; "min"; "max"].

Definition init_stats : list string :=
  ["count"; "sum"; "sum_sq_diff"; "max"; "min"].

Definition final_stats : list string := ["mean"; "std"; "min"; "max"].

(** The statistic columns of one variable, for a list of statistics in
    order *)
Definition stat_cols (stats : list string) (v : string) : list string :=
  map (fun s => (v ++ "." ++ s)%string) stats.

Definition init_agg (df_raw : DataFrame) (time_res : Z)
  (grouping_cols : list string) : result DataFrame :=
  (* Extract names of variables to aggregate. *)
  let variables :=
    filter (fun col => negb (mem col grouping_cols)) (columns df_raw) in
  (* Produce time column of the given time resolution. *)
  match index df_raw with
  | [(Some time_col, stamps)] =>
      floored <- dt_floor time_res stamps ;;
      let df_raw := setcol df_raw time_col floored in
      let df_raw := reset_index_drop df_raw in
      (* Convert variable types to avoid overflow when computing variance. *)
      sel <- select df_raw variables ;;
      conv <- astype_float sel ;;
      df_raw <- setcols df_raw variables conv ;;
      (* Produce intermediate aggregates at the given time resolution. *)
      g <- groupby df_raw (grouping_cols ++ [time_col]) ;;
      agg <- agg_list g [Count; Sum; Var; Max; Min] ;;
      (* Flatten column names of the intermediate aggregates. *)
      let cols := get_cols variables in
      df_agg <- with_columns agg
        (chain (zipn [cols "count"; cols "sum"; cols "sum_sq_diff";
                      cols "max"; cols "min"])) ;;
      (* Change variance to "lossless" sum of squared differences from mean. *)
      sel <- select df_agg (cols "sum_sq_diff") ;;
      sum_sq_diffs <- rename sel ;;
      sel <- select df_agg (cols "count") ;;
      counts <- rename sel ;;
      setcols df_agg (cols "sum_sq_diff")
        (frame_op nmul (frame_map fillna0 sum_sq_diffs)
                       (frame_map (fun c => nsub c (Fin 1)) counts))
  | _ => Err TypeError
  end.

(** [sum(1 for var in names if var not in df.columns) > 0] *)
Definition absent_any (names : list string) (df : DataFrame) : bool :=
  (0 <? length (filter (fun var => negb (mem var (columns df))) names))%nat.

Definition coarsen_agg (df_agg : DataFrame) (time_res : Z) (time_col : string)
  (grouping_cols : list string) : result DataFrame :=
  (* Ensure that time_col and grouping_cols are contained in the columns. *)
  df_coarse <- (if absent_any (grouping_cols ++ [time_col]) df_agg
                then reset_index df_agg
                else Ok df_agg) ;;
  (* Coarsen timestamp column to the given time resolution. *)
  stamps <- getcol df_coarse time_col ;;
  floored <- dt_floor time_res stamps ;;
  let df_coarse := setcol df_coarse time_col floored in
  (* Produce coarsened mean broadcasted to the original shape. *)
  let cols :=
    get_cols (get_vars_from_flat_cols df_agg (grouping_cols ++ [time_col])) in
  sel <- select df_coarse (cols "count") ;;
  counts <- rename sel ;;
  sel <- select df_coarse (cols "sum") ;;
  sums <- rename sel ;;
  df_coarse_grouped <- groupby df_coarse (grouping_cols ++ [time_col]) ;;
  tr <- transform df_coarse_grouped Sum (cols "count") ;;
  coarse_counts <- rename tr ;;
  tr <- transform df_coarse_grouped Sum (cols "sum") ;;
  coarse_sums <- rename tr ;;
  let coarse_means := frame_op ndiv coarse_sums coarse_counts in
  (* Produce sum of squared differences from coarsened mean. *)
  sel <- select df_coarse (cols "sum_sq_diff") ;;
  sum_sq_diffs <- rename sel ;;
  df_coarse <- setcols df_coarse (cols "sum_sq_diff")
    (frame_op nadd sum_sq_diffs
       (frame_op nmul counts
          (frame_map nsquare
             (frame_op nsub (frame_op ndiv sums counts) coarse_means)))) ;;
  (* Coarsen the "lossless" aggregates. *)
  let cols_to_agg :=
    chain (zipn [cols "count"; cols "sum"; cols "sum_sq_diff";
                 cols "min"; cols "max"]) in
  let agg_functions := times [Sum; Sum; Sum; Min; Max] (length (cols "")) in
  g <- groupby df_coarse (grouping_cols ++ [time_col]) ;;
  agg_dict g (dict (combine cols_to_agg agg_functions)).

Definition finalize_agg (df_agg : DataFrame) (time_col : string)
  (grouping_cols : list string) : result DataFrame :=
  (* Ensure that time_col and grouping_cols are contained in the columns. *)
  df_agg <- (if absent_any (grouping_cols ++ [time_col]) df_agg
             then reset_index df_agg
             else Ok df_agg) ;;
  (* Produce means and standard deviations. *)
  let cols :=
    get_cols (get_vars_from_flat_cols df_agg (grouping_cols ++ [time_col])) in
  sel <- select df_agg (cols "count") ;;
  counts <- rename sel ;;
  sel <- select df_agg (cols "sum") ;;
  sums <- rename sel ;;
  sel <- select df_agg (cols "sum_sq_diff") ;;
  sum_sq_diffs <- rename sel ;;
  let means := relabel (cols "mean") (frame_op ndiv sums counts) in
  let stds :=
    relabel (cols "std")
      (frame_map nroot
         (frame_op ndiv sum_sq_diffs
            (frame_map (fun c => nsub c (Fin 1)) counts))) in
  (* Compose final aggregates and reoder columns by variable. *)
  keys <- select df_agg (grouping_cols ++ [time_col]) ;;
  minmax <- select df_agg (cols "min" ++ cols "max") ;;
  let df_final :=
    concat_columns (index df_agg) [data keys; means; stds; data minmax] in
  select df_final
    (grouping_cols ++ [time_col] ++
     chain (zipn [cols "mean"; cols "std"; cols "min"; cols "max"])).

(** ** Reading tables and stating their contents *)

Fixpoint lookup_level (name : string) (idx : list (option string * list cell))
  : option (list cell) :=
  match idx with
  | [] => None
  | (Some k, v) :: r => if String.eqb k name then Some v else lookup_level name r
  | (None, _) :: r => lookup_level name r
  end.

(** The values under a label, which names a column or else an index level *)
Definition series (df : DataFrame) (name : string) : list cell :=
  match lookup name (data df) with
  | Some c => c
  | None => match lookup_level name (index df) with
            | Some c => c
            | None => []
            end
  end.

(** The rows of a table over the given labels *)
Definition table_rows (df : DataFrame) (names : list string) : list (list cell) :=
  rows_of (nrows df) (map (series df) names).

(** The rows of key [k], over the labels [cols] *)
Definition rows_at (df : DataFrame) (keys : list string) (k : list cell)
  (cols : list string) : list (list cell) :=
  group_of (table_rows df keys) (table_rows df cols) k.

(** The key of the bucket of width [time_res] that holds the row of key [k]:
    the time, which is the last component, is floored. *)
Definition coarse_key (time_res : Z) (k : list cell) : list cell :=
  removelast k ++
  [match last k (Num NaN) with
   | Time t => Time (floor_time time_res t)
   | c => c
   end].

(** The five sufficient statistics of one variable in one bucket *)
Record bucket : Type := mkBucket {
  b_count : R;
  b_sum : R;
  b_ssd : R;
  b_min : R;
  b_max : R
}.

Definition real_of (c : cell) : R :=
  match c with
  | Num (Fin x) => x
  | _ => 0%R
  end.

Definition to_bucket (row : list cell) : bucket :=
  match row with
  | [c; s; q; lo; hi] =>
      mkBucket (real_of c) (real_of s) (real_of q) (real_of lo) (real_of hi)
  | _ => mkBucket 0 0 0 0 0
  end.

(** The statistic of a bucket by its name *)
Definition bucket_stat (s : string) (b : bucket) : R :=
  if String.eqb s "count" then b_count b
  else if String.eqb s "sum" then b_sum b
  else if String.eqb s "sum_sq_diff" then b_ssd b
  else if String.eqb s "min" then b_min b
  else b_max b.

(** The cells of a bucket, in the order of [lossless_stats] *)
Definition bucket_cells (b : bucket) : list cell :=
  [Num (Fin (b_count b)); Num (Fin (b_sum b)); Num (Fin (b_ssd b));
   Num (Fin (b_min b)); Num (Fin (b_max b))].

(** The buckets of variable [v], row by row *)
Definition buckets (df : DataFrame) (v : string) : list bucket :=
  map to_bucket (table_rows df (stat_cols lossless_stats v)).

Definition Rsum (l : list R) : R := fold_right Rplus 0%R l.

(** The sum of the squares of the samples behind a bucket: it is what
    merging adds up. *)
Definition sum_sq (b : bucket) : R :=
  (b_ssd b + b_sum b ^ 2 / b_count b)%R.

(** The merge of sub-buckets as the specification words it: counts and sums
    add up, the extrema are the extrema of the extrema, and the sums of
    squared differences add up together with one correction term
    [count * (mean - merged mean)^2] per sub-bucket. *)
Definition chan_merge (bs : list bucket) : bucket :=
  let n := Rsum (map b_count bs) in
  let s := Rsum (map b_sum bs) in
  mkBucket n s
    (Rsum (map b_ssd bs) +
     Rsum (map (fun b => b_count b * (b_sum b / b_count b - s / n) ^ 2) bs))%R
    (MinRlist (map b_min bs))
    (MaxRlist (map b_max bs)).

(** The table of one merged bucket per key: the keys as index levels named
    [keys], and for each variable in turn its statistics in the order
    [stats], merged over the rows of each key. *)
Definition merged_table (stats keys : list string) (rows : list (list cell))
  (vs : list string) (B : string -> list bucket) : DataFrame :=
  mkDF (combine (map Some keys) (cols_of (length keys) (group_keys rows)))
       (flat_map
          (fun v =>
             map (fun s =>
                    ((v ++ "." ++ s)%string,
                     map (fun k => Num (Fin (bucket_stat s
                                               (chan_merge (group_of rows (B v) k)))))
                         (group_keys rows)))
                 stats)
          vs).

(** A lossless aggregate table for the time column [time_col] and the
    grouping columns [grouping_cols]: the keys are all columns, or they are
    exactly the index levels (the shape in which [init_agg] and [coarsen_agg]
    return their tables); the time column holds timestamps; and every
    variable has its five statistics as columns of finite numbers, with a
    positive count in every row. *)
Record lossless (df : DataFrame) (time_col : string) (grouping_cols : list string)
  : Prop := mkLossless {
  ll_index : index df <> [];
  ll_keys : NoDup (grouping_cols ++ [time_col]);
  ll_shape :
    (forall c, In c (grouping_cols ++ [time_col]) -> In c (columns df)) \/
    (map fst (index df) = map Some (grouping_cols ++ [time_col]) /\
     forall c, In c (grouping_cols ++ [time_col]) -> ~ In c (columns df));
  ll_columns : NoDup (columns df);
  ll_levels : Forall (fun l => length (snd l) = nrows df) (index df);
  ll_lengths : forall c, In c (columns df) -> length (series df c) = nrows df;
  ll_time : exists ts, series df time_col = map Time ts;
  ll_stats :
    forall v, In v (get_vars_from_flat_cols df (grouping_cols ++ [time_col])) ->
    exists bs,
      (forall b, In b bs -> (0 < b_count b)%R) /\
      forall s, In s lossless_stats ->
        In (v ++ "." ++ s)%string (columns df) /\
        ~ In (v ++ "." ++ s)%string (grouping_cols ++ [time_col]) /\
        series df (v ++ "." ++ s) = map (fun b => Num (Fin (bucket_stat s b))) bs
}.

(** A raw measurement table: indexed by timestamps under the name
    [time_col], with the grouping columns among its columns and finite
    numbers in all the others, which are its variables; no key label is a
    dotted name of a variable. *)
Record raw_table (df : DataFrame) (time_col : string) (grouping_cols : list string)
  : Prop := mkRawTable {
  rt_index : exists ts, index df = [(Some time_col, map Time ts)];
  rt_time_fresh : ~ In time_col (columns df);
  rt_columns : NoDup (columns df);
  rt_groups_distinct : NoDup grouping_cols;
  rt_groups : forall c, In c grouping_cols -> In c (columns df);
  rt_lengths : forall c, In c (columns df) -> length (series df c) = nrows df;
  rt_values :
    forall v, In v (columns df) -> ~ In v grouping_cols ->
    exists xs, series df v = map (fun x => Num (Fin x)) xs;
  rt_names :
    forall v s, In v (columns df) -> ~ In v grouping_cols ->
    ~ In (v ++ "." ++ s)%string (grouping_cols ++ [time_col])
}.

(** The variables of a raw table, as [init_agg] finds them *)
Definition variables_of (df : DataFrame) (grouping_cols : list string) : list string :=
  filter (fun col => negb (mem col grouping_cols)) (columns df).

(** One raw sample as a bucket, and the samples of a variable row by row *)
Definition sample (x : R) : bucket := mkBucket 1 x 0 x x.

Definition samples (df : DataFrame) (v : string) : list bucket :=
  map (fun c => sample (real_of c)) (series df v).

(** The aggregation function behind each statistic of [init_agg] *)
Definition init_fun (s : string) : agg_fun :=
  if String.eqb s "count" then Count
  else if String.eqb s "sum" then Sum
  else if String.eqb s "sum_sq_diff" then Var
  else if String.eqb s "max" then Max
  else Min.

(** The final statistics of a bucket: the mean, the standard deviation with
    one degree of freedom removed, and the extrema. *)
Definition final_stat (s : string) (b : bucket) : num :=
  if String.eqb s "mean" then Fin (b_sum b / b_count b)
  else if String.eqb s "std"
       then nroot (ndiv (Fin (b_ssd b)) (Fin (b_count b - 1)))
  else if String.eqb s "min" then Fin (b_min b)
  else Fin (b_max b).

(** The final table of a lossless table: the key columns, then for each
    variable in turn its mean, std, min and max. *)
Definition final_table (d : DataFrame) (keys vs : list string)
  (B : string -> list bucket) : DataFrame :=
  mkDF (index d)
       (combine keys (map (series d) keys) ++
        flat_map
          (fun v => map (fun s => ((v ++ "." ++ s)%string,
                                   map (fun b => Num (final_stat s b)) (B v)))
                        final_stats)
          vs).

(** The statistics computed directly and naively over the samples of a
    group *)
Definition naive_mean (xs : list R) : R := (Rsum xs / INR (length xs))%R.

Definition naive_std (xs : list R) : num :=
  if (length xs <=? 1)%nat then NaN
  else Fin (sqrt (Rsum (map (fun x => (x - naive_mean xs) ^ 2)%R xs)
                  / (INR (length xs) - 1))).

Definition naive_cells (xs : list R) : list cell :=
  [Num (Fin (naive_mean xs)); Num (naive_std xs);
   Num (Fin (MinRlist xs)); Num (Fin (MaxRlist xs))].

(** ** The scenario of the specification

    Three samples of one key, at 00:00:00, 00:00:05 and 00:05:00 (times in
    seconds), with the table [init_agg] returns for it at five minutes and
    the table [finalize_agg] returns for that one. *)
Definition scenario : DataFrame :=
  mkDF [(Some "t", [Time 0; Time 5; Time 300])]
       [("key", [Str "A"; Str "A"; Str "A"]);
        ("v", [Num (Fin 10); Num (Fin 20); Num (Fin 30)])].

Definition scenario_lossless : DataFrame :=
  mkDF [(Some "key", [Str "A"; Str "A"]); (Some "t", [Time 0; Time 300])]
       [("v.count", [Num (Fin 2); Num (Fin 1)]);
        ("v.sum", [Num (Fin 30); Num (Fin 30)]);
        ("v.sum_sq_diff", [Num (Fin 50); Num (Fin 0)]);
        ("v.max", [Num (Fin 20); Num (Fin 30)]);
        ("v.min", [Num (Fin 10); Num (Fin 30)])].

Definition scenario_final : DataFrame :=
  mkDF [(None, [Num (Fin 0); Num (Fin 1)])]
       [("key", [Str "A"; Str "A"]);
        ("t", [Time 0; Time 300]);
        ("v.mean", [Num (Fin 15); Num (Fin 30)]);
        ("v.std", [Num (Fin (sqrt 50)); Num NaN]);
        ("v.min", [Num (Fin 10); Num (Fin 30)]);
        ("v.max", [Num (Fin 20); Num (Fin 30)])].

(** ** Splitting the rows of a table and stacking tables

    The two operations of the host library by which a table of raw rows is
    split in two and two lossless tables are put together again. *)

(** The entries of [l] at the positions where the mask holds *)
Definition pick {A : Type} (mask : list bool) (l : list A) : list A :=
  map snd (filter fst (combine mask l)).

(** [df[mask]] for a boolean mask: the rows where the mask holds, with
    their index entries; a mask of another length is refused. *)
Definition rows_where (mask : list bool) (df : DataFrame) : result DataFrame :=
  if (length mask =? nrows df)%nat
  then Ok (mkDF (map (fun l => (fst l, pick mask (snd l))) (index df))
                (map (fun c => (fst c, pick mask (snd c))) (data df)))
  else Err ValueError.

(** [pd.concat([a, b])]: the rows of [b] under the rows of [a].  The index
    levels are stacked one by one, a level keeping its name where the two
    tables agree on it; the columns of [a] come first, each followed by the
    entries of [b] under the same label, then the columns that only [b]
    has; a table without a column is filled with not-a-number there.  The
    two tables are taken with as many index levels as each other. *)
Definition concat_rows (a b : DataFrame) : DataFrame :=
  mkDF (zipWith (fun la lb =>
                   ((match fst la, fst lb with
                     | Some x, Some y => if String.eqb x y then Some x else None
                     | _, _ => None
                     end), (snd la ++ snd lb)))
                (index a) (index b))
       (map (fun c => (fst c,
                       snd c ++ match lookup (fst c) (data b) with
                                | Some x => x
                                | None => repeat (Num NaN) (nrows b)
                                end))
            (data a) ++
        map (fun c => (fst c, repeat (Num NaN) (nrows a) ++ snd c))
            (filter (fun c => negb (mem (fst c) (columns a))) (data b))).

(** ** Sound buckets and further tables

    A bucket is sound when some non-empty set of samples can have it: a
    positive count, a sum of squared differences that is not negative, and a
    mean between the minimum and the maximum. *)
Definition sound_bucket (b : bucket) : Prop :=
  (0 < b_count b /\ 0 <= b_ssd b /\
   b_min b * b_count b <= b_sum b /\ b_sum b <= b_max b * b_count b)%R.

(** A raw table without rows *)
Definition scenario_empty : DataFrame :=
  mkDF [(Some "t", [])] [("key", []); ("v", [])].

(** ** The stages in binary64 arithmetic

    The definitions above read the numbers as exact reals.  The notebook
    computes in binary64, and the engine takes the variance of a group in
    one pass from the sum and the sum of squares of its samples.  This module
    follows one variable through one group of rows in binary64: the
    statistics [init_agg] stores for the samples of the group, the merge
    [coarsen_agg] makes of the fine buckets of a coarse group, and the
    statistics [finalize_agg] returns for a bucket. *)
Module Binary64.

Local Open Scope float_scope.

(** The entries a reduction takes: those that are numbers *)
Definition valid (xs : list float) : list float :=
  filter (fun x => negb (PrimFloat.is_nan x)) xs.

(** ['count'], ['sum'], ['min'] and ['max'] of a group *)
Definition count (xs : list float) : float :=
  fold_left (fun n _ => n + 1) (valid xs) 0.

Definition sum (xs : list float) : float :=
  fold_left PrimFloat.add (valid xs) 0.

Definition smaller (a b : float) : float := if b <? a then b else a.

Definition larger (a b : float) : float := if a <? b then b else a.

Definition min (xs : list float) : float :=
  match valid xs with
  | [] => PrimFloat.nan
  | x :: r => fold_left smaller r x
  end.

Definition max (xs : list float) : float :=
  match valid xs with
  | [] => PrimFloat.nan
  | x :: r => fold_left larger r x
  end.

(** ['var'] of a group, as the engine reduces it: with [n] the count, [x]
    the sum and [x2] the sum of the squares of the samples, the result is
    [x2 - x**2 / n] divided by [n - 1], where a negative divisor is put to
    zero first and the result is not a number when [n - 1] is zero. *)
Definition var (xs : list float) : float :=
  let n := count xs in
  let x := sum xs in
  let x2 := sum (map (fun v => v * v) xs) in
  let result := x2 - x * x / n in
  let div := n - 1 in
  let div := if div <? 0 then 0 else div in
  let result := result / div in
  if n - 1 =? 0 then PrimFloat.nan else result.

Definition fillna0 (x : float) : float :=
  if PrimFloat.is_nan x then 0 else x.

(** The five statistics a lossless table holds for a variable in a row *)
Record stats : Type := mkStats {
  s_count : float;
  s_sum : float;
  s_sum_sq_diff : float;
  s_min : float;
  s_max : float
}.

(** [init_agg] on the samples of one group: the aggregation, and the change
    of the variance to [sum_sq_diffs.fillna(0) * (counts - 1)] *)
Definition init_agg (xs : list float) : stats :=
  let counts := count xs in
  let sum_sq_diffs := var xs in
  mkStats counts (sum xs) (fillna0 sum_sq_diffs * (counts - 1))
          (min xs) (max xs).

(** [coarsen_agg] on the fine buckets of one coarse group: the coarse mean
    broadcast to the rows, [sum_sq_diffs + counts * (sums / counts -
    coarse_means)**2] in every row, and the aggregation of the rows. *)
Definition coarsen_agg (rows : list stats) : stats :=
  let coarse_counts := sum (map s_count rows) in
  let coarse_sums := sum (map s_sum rows) in
  let coarse_means := coarse_sums / coarse_counts in
  let corrected (b : stats) : float :=
    let d := s_sum b / s_count b - coarse_means in
    s_sum_sq_diff b + s_count b * (d * d) in
  mkStats (sum (map s_count rows)) (sum (map s_sum rows))
          (sum (map corrected rows))
          (min (map s_min rows)) (max (map s_max rows)).

(** The four statistics of a final table *)
Record final : Type := mkFinal {
  f_mean : float;
  f_std : float;
  f_min : float;
  f_max : float
}.

(** [finalize_agg] on one bucket: [sums / counts] and
    [(sum_sq_diffs / (counts - 1))**.5] *)
Definition finalize_agg (b : stats) : final :=
  mkFinal (s_sum b / s_count b)
          (PrimFloat.sqrt (s_sum_sq_diff b / (s_count b - 1)))
          (s_min b) (s_max b).

(** The statistics computed directly over the samples, the deviations taken
    from the mean in a second pass *)
Definition naive_mean (xs : list float) : float := sum xs / count xs.

Definition naive_std (xs : list float) : float :=
  let m := naive_mean xs in
  PrimFloat.sqrt (sum (map (fun v => (v - m) * (v - m)) xs) / (count xs - 1)).

Definition naive (xs : list float) : final :=
  mkFinal (naive_mean xs) (naive_std xs) (min xs) (max xs).

End Binary64.

(** * Properties *)

(** ** Membership, lookup and the error monad *)

Lemma mem_In (x : string) (l : list string) : mem x l = true <-> In x l.
Proof.
  unfold mem. rewrite existsb_exists. split.
  - intros [y [Hy He]]. apply String.eqb_eq in He. now subst.
  - intros H. exists x. split; [assumption | apply String.eqb_refl].
Qed.

Lemma mem_false (x : string) (l : list string) : mem x l = false <-> ~ In x l.
Proof.
  rewrite <- mem_In. destruct (mem x l); split; congruence.
Qed.

Lemma bind_Ok {A B : Type} (m : result A) (k : A -> result B) (b : B) :
  bind m k = Ok b -> exists a, m = Ok a /\ k a = Ok b.
Proof.
  destruct m as [a | e]; simpl; intros H; [eauto | discriminate].
Qed.

Lemma mapM_Ok_length {A B : Type} (f : A -> result B) (l : list A) (r : list B) :
  mapM f l = Ok r -> length r = length l.
Proof.
  revert r. induction l as [| a l IH]; simpl; intros r H.
  - injection H as <-. reflexivity.
  - apply bind_Ok in H as [b [_ H]]. apply bind_Ok in H as [bs [Hbs H]].
    injection H as <-. simpl. f_equal. now apply IH.
Qed.

Lemma mapM_ext_Ok {A B : Type} (f : A -> result B) (g : A -> B) (l : list A) :
  (forall a, In a l -> f a = Ok (g a)) -> mapM f l = Ok (map g l).
Proof.
  induction l as [| a l IH]; simpl; intros H; [reflexivity |].
  rewrite (H a) by now left. simpl. rewrite IH by (intros; apply H; now right).
  reflexivity.
Qed.

Lemma mapM_map {A B C : Type} (f : B -> result C) (g : A -> B) (l : list A) :
  mapM f (map g l) = mapM (fun a => f (g a)) l.
Proof.
  induction l as [| a l IH]; simpl; [reflexivity | now rewrite IH].
Qed.

Lemma mapM_Err {A B : Type} (f : A -> result B) (l : list A) (a : A) (e : error) :
  In a l -> f a = Err e -> exists e', mapM f l = Err e'.
Proof.
  induction l as [| b l IH]; simpl; intros Hin Hf; [contradiction |].
  destruct (f b) as [y | e0] eqn:Hb; simpl; [| eauto].
  destruct Hin as [-> | Hin]; [congruence |].
  destruct (IH Hin Hf) as [e' ->]. simpl. eauto.
Qed.

(** ** Splitting and joining column names *)

Lemma split_nonempty (sep : ascii) (s : string) : split sep s <> [].
Proof.
  destruct s as [| c s]; simpl; [discriminate |].
  destruct (Ascii.eqb c sep); [discriminate |].
  destruct (split sep s); discriminate.
Qed.

Lemma split_no_dot (s : string) : has_dot s = false -> split "." s = [s].
Proof.
  induction s as [| c s IH]; simpl; intros H; [reflexivity |].
  apply orb_false_iff in H as [Hc Hs]. rewrite Hc, (IH Hs). reflexivity.
Qed.

Lemma split_app (a b : string) :
  split "." (a ++ "." ++ b) = split "." a ++ split "." b.
Proof.
  induction a as [| c a IH]; simpl.
  - reflexivity.
  - destruct (Ascii.eqb c "."); simpl.
    + now rewrite <- IH.
    + change (split "." (a ++ String "." b)) with (split "." (a ++ "." ++ b)).
      rewrite IH. pose proof (split_nonempty "." a) as Hne.
      destruct (split "." a); [congruence | reflexivity].
Qed.

Lemma concat_split (a : string) : String.concat "." (split "." a) = a.
Proof.
  induction a as [| c a IH]; simpl; [reflexivity |].
  destruct (Ascii.eqb c ".") eqn:Hc.
  - apply Ascii.eqb_eq in Hc. subst c.
    pose proof (split_nonempty "." a) as Hne.
    simpl. destruct (split "." a) as [| p ps]; [congruence |].
    now rewrite IH.
  - pose proof (split_nonempty "." a) as Hne.
    destruct (split "." a) as [| p ps]; [congruence |].
    simpl in *. destruct ps as [| q ps]; simpl in *; now rewrite <- IH.
Qed.

(** The name of a statistic column gives back its variable. *)
Lemma var_of_col (v s : string) :
  has_dot s = false -> var_part (v ++ "." ++ s) = v.
Proof.
  intros Hs. unfold var_part. rewrite split_app, (split_no_dot s Hs), removelast_last.
  apply concat_split.
Qed.

(** A name without a dot has no variable part. *)
Lemma var_of_plain (col : string) :
  has_dot col = false -> var_part col = "".
Proof.
  intros H. unfold var_part. now rewrite (split_no_dot col H).
Qed.

(** ** [pd.unique] *)

Lemma unique_from_In (seen l : list string) (x : string) :
  In x (unique_from seen l) <-> In x l /\ ~ In x seen.
Proof.
  revert seen. induction l as [| a l IH]; simpl; intros seen.
  - tauto.
  - destruct (mem a seen) eqn:Ha.
    + apply mem_In in Ha. rewrite IH. split.
      * intros [H1 H2]. auto.
      * intros [[-> | H1] H2]; [contradiction | auto].
    + apply mem_false in Ha. simpl. rewrite IH. simpl. split.
      * intros [-> | [H1 H2]]; [auto |]. split; [auto |]. intuition.
      * intros [[-> | H1] H2]; [auto |].
        destruct (string_dec a x) as [-> | Hne]; [auto |]. right. intuition.
Qed.

Lemma unique_from_NoDup (seen l : list string) : NoDup (unique_from seen l).
Proof.
  revert seen. induction l as [| a l IH]; simpl; intros seen.
  - constructor.
  - destruct (mem a seen); [apply IH |]. constructor; [| apply IH].
    rewrite unique_from_In. simpl. intuition.
Qed.

Lemma pd_unique_In (l : list string) (x : string) :
  In x (pd_unique l) <-> In x l.
Proof. unfold pd_unique. rewrite unique_from_In. simpl. tauto. Qed.

Lemma pd_unique_NoDup (l : list string) : NoDup (pd_unique l).
Proof. apply unique_from_NoDup. Qed.

Lemma unique_from_ext (l s s' : list string) :
  (forall x, In x s <-> In x s') -> unique_from s l = unique_from s' l.
Proof.
  revert s s'. induction l as [| c l IH]; simpl; intros s s' H; [reflexivity |].
  assert (Hm : mem c s = mem c s').
  { destruct (mem c s') eqn:Hc.
    - apply mem_In. apply H. now apply mem_In.
    - apply mem_false. rewrite H. now apply mem_false. }
  rewrite Hm. destruct (mem c s'); [now apply IH |].
  f_equal. apply IH. intros x. simpl. now rewrite H.
Qed.

Lemma unique_from_app (seen l1 l2 : list string) :
  unique_from seen (l1 ++ l2) =
  unique_from seen l1 ++ unique_from (rev l1 ++ seen) l2.
Proof.
  revert seen. induction l1 as [| a l1 IH]; simpl; intros seen; [reflexivity |].
  destruct (mem a seen) eqn:Ha.
  - rewrite IH. f_equal. apply unique_from_ext. intros x.
    apply mem_In in Ha. rewrite !in_app_iff. simpl.
    split; [tauto |]. intros [[H | [<- | []]] | H]; tauto.
  - rewrite IH. simpl. rewrite <- app_assoc. reflexivity.
Qed.

(** A value comes out where it first occurs: after the distinct values that
    precede its first occurrence, and before everything else. *)
Lemma pd_unique_first (l1 l2 : list string) (x : string) :
  ~ In x l1 ->
  pd_unique (l1 ++ x :: l2) =
  pd_unique l1 ++ x :: unique_from (x :: rev l1) l2.
Proof.
  intros Hx. unfold pd_unique. rewrite unique_from_app. f_equal.
  rewrite app_nil_r. simpl.
  assert (Hm : mem x (rev l1) = false).
  { apply mem_false. now rewrite <- in_rev. }
  now rewrite Hm.
Qed.

(** ** Recovering variable names from column names *)

Lemma get_vars_In (df : DataFrame) (not_vars : list string) (v : string) :
  In v (get_vars_from_flat_cols df not_vars) <->
  exists col, In col (columns df) /\ ~ In col not_vars /\ v = var_part col.
Proof.
  unfold get_vars_from_flat_cols. rewrite pd_unique_In, in_map_iff. split.
  - intros [col [<- Hc]]. apply filter_In in Hc as [Hc Hn].
    exists col. apply negb_true_iff, mem_false in Hn. auto.
  - intros [col [Hc [Hn ->]]]. exists col. split; [reflexivity |].
    apply filter_In. split; [assumption |]. now apply negb_true_iff, mem_false.
Qed.

(** C10: [get_vars_from_flat_cols] returns every variable name once, each at
    the place of its first occurrence among the columns, and a column whose
    name has no dot and is not in [not_vars] contributes the empty name. *)
Theorem get_vars_distinct_first_occurrence (df : DataFrame) (not_vars : list string) :
  NoDup (get_vars_from_flat_cols df not_vars) /\
  (forall v, In v (get_vars_from_flat_cols df not_vars) <->
             exists col, In col (columns df) /\ ~ In col not_vars /\ v = var_part col) /\
  (forall d1 d2 col c,
     data df = d1 ++ (col, c) :: d2 ->
     ~ In col not_vars ->
     ~ In (var_part col) (get_vars_from_flat_cols (mkDF (index df) d1) not_vars) ->
     exists rest,
       get_vars_from_flat_cols df not_vars =
       get_vars_from_flat_cols (mkDF (index df) d1) not_vars ++ var_part col :: rest) /\
  (forall col, In col (columns df) -> ~ In col not_vars -> has_dot col = false ->
               var_part col = "" /\ In "" (get_vars_from_flat_cols df not_vars)).
Proof.
  split; [apply pd_unique_NoDup |].
  split; [apply get_vars_In |].
  split.
  - intros d1 d2 col c Hd Hn Hfirst.
    unfold get_vars_from_flat_cols, columns in *. rewrite Hd. simpl in *.
    rewrite map_app, filter_app, map_app. simpl.
    apply mem_false in Hn. rewrite Hn. simpl.
    rewrite pd_unique_first.
    + eexists. reflexivity.
    + now rewrite pd_unique_In in Hfirst.
  - intros col Hc Hn Hd. split; [now apply var_of_plain |].
    apply get_vars_In. exists col. now rewrite var_of_plain.
Qed.

Lemma get_vars_distinct_first_occurrence_witness :
  get_vars_from_flat_cols
    (mkDF [] [("a.count", []); ("index", []); ("a.sum", []); ("b.c.min", [])])
    ["host"] = ["a"; ""; "b.c"] /\
  In "" (get_vars_from_flat_cols
           (mkDF [] [("a.count", []); ("index", []); ("a.sum", []); ("b.c.min", [])])
           ["host"]).
Proof.
  split; [reflexivity |].
  destruct (get_vars_distinct_first_occurrence
              (mkDF [] [("a.count", []); ("index", []); ("a.sum", []); ("b.c.min", [])])
              ["host"]) as [_ [_ [_ H]]].
  apply (H "index").
  - simpl. tauto.
  - simpl. intros [E | []]. discriminate.
  - reflexivity.
Defined.

(** C7: on a frame whose columns are the [get_cols] names of a list of
    variables over the statistic suffixes, together with the columns listed
    in [not_vars], [get_vars_from_flat_cols] returns exactly those variables,
    each once. *)
Theorem get_vars_of_get_cols (df : DataFrame) (variables stats not_vars : list string) :
  stats <> [] ->
  (forall s, In s stats -> has_dot s = false) ->
  (forall c, In c (columns df) <->
             In c not_vars \/ exists s, In s stats /\ In c (get_cols variables s)) ->
  (forall s c, In s stats -> In c (get_cols variables s) -> ~ In c not_vars) ->
  NoDup (get_vars_from_flat_cols df not_vars) /\
  (forall v, In v (get_vars_from_flat_cols df not_vars) <-> In v variables).
Proof.
  intros Hne Hdot Hcols Hdisj. split; [apply pd_unique_NoDup |].
  intros v. rewrite get_vars_In. split.
  - intros [col [Hc [Hn ->]]]. apply Hcols in Hc as [Hc | [s [Hs Hc]]]; [contradiction |].
    unfold get_cols in Hc. apply in_map_iff in Hc as [x [<- Hx]].
    now rewrite var_of_col by auto.
  - intros Hv. destruct stats as [| s stats]; [congruence |].
    assert (Hin : In (v ++ "." ++ s)%string (get_cols variables s)).
    { unfold get_cols. apply in_map_iff. now exists v. }
    exists (v ++ "." ++ s)%string. split; [| split].
    + apply Hcols. right. exists s. split; [now left | assumption].
    + apply (Hdisj s); [now left | assumption].
    + symmetry. apply var_of_col. apply Hdot. now left.
Qed.

Lemma get_vars_of_get_cols_witness :
  NoDup (get_vars_from_flat_cols
           (mkDF [] [("host", []); ("x.count", []); ("x.sum", [])]) ["host"]) /\
  (forall v, In v (get_vars_from_flat_cols
                     (mkDF [] [("host", []); ("x.count", []); ("x.sum", [])]) ["host"])
             <-> In v ["x"]).
Proof.
  apply (get_vars_of_get_cols _ ["x"] ["count"; "sum"] ["host"]).
  - discriminate.
  - simpl. intros s [<- | [<- | []]]; reflexivity.
  - simpl. intros c. split.
    + intros [<- | [<- | [<- | []]]].
      * left. now left.
      * right. exists "count". simpl. tauto.
      * right. exists "sum". simpl. tauto.
    + intros [[<- | []] | [s [[<- | [<- | []]] [<- | []]]]]; tauto.
  - simpl. intros s c [<- | [<- | []]] [<- | []] [E | []]; discriminate.
Defined.

(** ** Columns that are looked up, set and promoted *)

Lemma lookup_Some_In {V : Type} (name : string) (d : list (string * V)) (v : V) :
  lookup name d = Some v -> In name (map fst d).
Proof.
  induction d as [| [k w] d IH]; simpl; [discriminate |].
  destruct (String.eqb k name) eqn:E.
  - apply String.eqb_eq in E. auto.
  - auto.
Qed.

Lemma lookup_None {V : Type} (name : string) (d : list (string * V)) :
  lookup name d = None <-> ~ In name (map fst d).
Proof.
  induction d as [| [k w] d IH]; simpl; [tauto |].
  destruct (String.eqb k name) eqn:E.
  - apply String.eqb_eq in E. split; [discriminate | tauto].
  - apply String.eqb_neq in E. rewrite IH. tauto.
Qed.

Lemma getcol_Ok_In (df : DataFrame) (name : string) (c : list cell) :
  getcol df name = Ok c -> In name (columns df).
Proof.
  unfold getcol. destruct (lookup name (data df)) eqn:E; [| discriminate].
  intros _. eapply lookup_Some_In; eauto.
Qed.

Lemma getcol_absent (df : DataFrame) (name : string) :
  ~ In name (columns df) -> getcol df name = Err (KeyError name).
Proof.
  intros H. unfold getcol. apply lookup_None in H. now rewrite H.
Qed.

Lemma set_assoc_keys_present {V : Type} (d : list (string * V)) (k : string) (v : V) :
  In k (map fst d) -> map fst (set_assoc d k v) = map fst d.
Proof.
  induction d as [| [k' v'] d IH]; simpl; [contradiction |].
  destruct (String.eqb k' k) eqn:E; simpl; [reflexivity |].
  apply String.eqb_neq in E. intros [H | H]; [contradiction |].
  now rewrite IH.
Qed.

Lemma set_assoc_keys_absent {V : Type} (d : list (string * V)) (k : string) (v : V) :
  ~ In k (map fst d) -> map fst (set_assoc d k v) = map fst d ++ [k].
Proof.
  induction d as [| [k' v'] d IH]; simpl; [reflexivity |].
  intros H. destruct (String.eqb k' k) eqn:E.
  - apply String.eqb_eq in E. tauto.
  - simpl. rewrite IH; tauto.
Qed.

Lemma absent_any_true (names : list string) (df : DataFrame) :
  absent_any names df = true <-> exists c, In c names /\ ~ In c (columns df).
Proof.
  unfold absent_any. rewrite Nat.ltb_lt. split.
  - intros H.
    destruct (filter (fun var => negb (mem var (columns df))) names) as [| c l] eqn:E;
      [simpl in H; lia |].
    assert (Hc : In c (filter (fun var => negb (mem var (columns df))) names))
      by (rewrite E; now left).
    apply filter_In in Hc as [Hc Hm]. exists c. split; [assumption |].
    now apply negb_true_iff, mem_false in Hm.
  - intros [c [Hc Hn]].
    assert (Hin : In c (filter (fun var => negb (mem var (columns df))) names)).
    { apply filter_In. split; [assumption |]. now apply negb_true_iff, mem_false. }
    destruct (filter _ names); [contradiction | simpl; lia].
Qed.

Lemma absent_any_false (names : list string) (df : DataFrame) :
  absent_any names df = false <-> forall c, In c names -> In c (columns df).
Proof.
  split.
  - intros H c Hc. destruct (in_dec string_dec c (columns df)) as [Hin | Hn]; [assumption |].
    assert (Ht : absent_any names df = true) by (apply absent_any_true; eauto).
    congruence.
  - intros H. destruct (absent_any names df) eqn:E; [| reflexivity].
    apply absent_any_true in E as [c [Hc Hn]]. elim Hn. auto.
Qed.

Lemma groupby_absent (df : DataFrame) (keys : list string) (c : string) :
  In c keys -> ~ In c (columns df) -> exists e, groupby df keys = Err e.
Proof.
  intros Hc Hn. unfold groupby.
  destruct (mapM_Err (getcol df) keys c (KeyError c) Hc (getcol_absent df c Hn)) as [e ->].
  simpl. eauto.
Qed.

Lemma select_absent (df : DataFrame) (names : list string) (c : string) :
  In c names -> ~ In c (columns df) -> exists e, select df names = Err e.
Proof.
  intros Hc Hn. unfold select.
  destruct (mapM_Err (getcol df) names c (KeyError c) Hc (getcol_absent df c Hn)) as [e ->].
  simpl. eauto.
Qed.

Lemma fst_combine {A B : Type} (a : list A) (b : list B) :
  length a = length b -> map fst (combine a b) = a.
Proof.
  revert b. induction a as [| x a IH]; intros [| y b]; simpl; intros H;
    try reflexivity; try discriminate.
  f_equal. apply IH. now injection H.
Qed.

Lemma snd_combine {A B : Type} (a : list A) (b : list B) :
  length a = length b -> map snd (combine a b) = b.
Proof.
  revert b. induction a as [| x a IH]; intros [| y b]; simpl; intros H;
    try reflexivity; try discriminate.
  f_equal. apply IH. now injection H.
Qed.

Lemma level_names_length (df : DataFrame) :
  length (level_names df) = length (index df).
Proof.
  unfold level_names. destruct (index df) as [| [[n |] l] [| q lv]]; simpl; try reflexivity;
    now rewrite length_map, length_combine, length_seq, Nat.min_id.
Qed.

Lemma reset_index_columns (df d : DataFrame) :
  reset_index df = Ok d -> columns d = level_names df ++ columns df.
Proof.
  unfold reset_index. destruct (_ || _); [discriminate |].
  intros H. injection H as <-. unfold columns. simpl. rewrite map_app. f_equal.
  rewrite fst_combine; [reflexivity |].
  now rewrite length_map, level_names_length.
Qed.

Ltac step_err :=
  match goal with
  | |- exists e, bind ?m _ = Err e =>
      let H := fresh "Hstep" in destruct m eqn:H; simpl; [| eauto]
  end.

Lemma coarsen_agg_absent_after (df d : DataFrame) (time_res : Z) (time_col : string)
  (grouping_cols : list string) :
  absent_any (grouping_cols ++ [time_col]) df = true ->
  reset_index df = Ok d ->
  absent_any (grouping_cols ++ [time_col]) d = true ->
  exists e, coarsen_agg df time_res time_col grouping_cols = Err e.
Proof.
  intros Habs Hreset Hstill. unfold coarsen_agg. rewrite Habs, Hreset. simpl.
  apply absent_any_true in Hstill as [c [Hc Hn]].
  destruct (getcol d time_col) as [stamps | e] eqn:Hstamps; simpl; [| eauto].
  do 6 step_err.
  match goal with H : groupby ?w _ = Ok _ |- _ =>
    destruct (groupby_absent w (grouping_cols ++ [time_col]) c Hc) as [e He];
      [| congruence]
  end.
  unfold columns, setcol. simpl.
  rewrite set_assoc_keys_present; [assumption |].
  eapply getcol_Ok_In; eauto.
Qed.

Lemma finalize_agg_absent_after (df d : DataFrame) (time_col : string)
  (grouping_cols : list string) :
  absent_any (grouping_cols ++ [time_col]) df = true ->
  reset_index df = Ok d ->
  absent_any (grouping_cols ++ [time_col]) d = true ->
  exists e, finalize_agg df time_col grouping_cols = Err e.
Proof.
  intros Habs Hreset Hstill. unfold finalize_agg. rewrite Habs, Hreset. simpl.
  apply absent_any_true in Hstill as [c [Hc Hn]].
  do 6 step_err.
  destruct (select_absent d (grouping_cols ++ [time_col]) c Hc Hn) as [e ->].
  simpl. eauto.
Qed.

Lemma get_vars_reset_index (df d : DataFrame) (keys : list string) :
  reset_index df = Ok d ->
  (forall n, In n (level_names df) -> In n keys) ->
  get_vars_from_flat_cols d keys = get_vars_from_flat_cols df keys.
Proof.
  intros Hreset Hsub. unfold get_vars_from_flat_cols.
  rewrite (reset_index_columns df d Hreset), filter_app.
  replace (filter (fun col => negb (mem col keys)) (level_names df)) with (@nil string);
    [reflexivity |].
  symmetry. induction (level_names df) as [| n l IH]; simpl; [reflexivity |].
  assert (Hn : mem n keys = true) by (apply mem_In, Hsub; now left).
  rewrite Hn. simpl. apply IH. intros m Hm. apply Hsub. now right.
Qed.

(** C9: when the time column or a grouping column is not among the columns,
    [coarsen_agg] and [finalize_agg] work on the frame with its index levels
    promoted to columns; when promoting fails, or leaves one of these columns
    absent, both return an error and no table. *)
Theorem absent_columns_promoted_or_error (df : DataFrame) (time_res : Z)
  (time_col : string) (grouping_cols : list string) :
  absent_any (grouping_cols ++ [time_col]) df = true ->
  match reset_index df with
  | Err e =>
      coarsen_agg df time_res time_col grouping_cols = Err e /\
      finalize_agg df time_col grouping_cols = Err e
  | Ok d =>
      if absent_any (grouping_cols ++ [time_col]) d
      then (exists e, coarsen_agg df time_res time_col grouping_cols = Err e) /\
           (exists e, finalize_agg df time_col grouping_cols = Err e) /\
           (~ In time_col (columns d) ->
            coarsen_agg df time_res time_col grouping_cols = Err (KeyError time_col))
      else finalize_agg df time_col grouping_cols =
           finalize_agg d time_col grouping_cols /\
           ((forall n, In n (level_names df) -> In n (grouping_cols ++ [time_col])) ->
            coarsen_agg df time_res time_col grouping_cols =
            coarsen_agg d time_res time_col grouping_cols)
  end.
Proof.
  intros Habs. destruct (reset_index df) as [d | e] eqn:Hreset.
  - destruct (absent_any (grouping_cols ++ [time_col]) d) eqn:Hd.
    + split; [eapply coarsen_agg_absent_after; eauto |].
      split; [eapply finalize_agg_absent_after; eauto |].
      intros Hn. unfold coarsen_agg. rewrite Habs, Hreset. simpl.
      now rewrite (getcol_absent d time_col Hn).
    + split.
      * unfold finalize_agg. now rewrite Habs, Hreset, Hd.
      * intros Hsub. unfold coarsen_agg. rewrite Habs, Hreset, Hd. simpl.
        now rewrite (get_vars_reset_index df d _ Hreset Hsub).
  - unfold coarsen_agg, finalize_agg. rewrite Habs, Hreset. simpl. auto.
Qed.

Lemma absent_columns_promoted_or_error_witness :
  (exists e, coarsen_agg (mkDF [(Some "t", [Time 0])] [("x.count", [Num (Fin 1)])])
                         300 "t" ["host"] = Err e) /\
  (exists e, finalize_agg (mkDF [(Some "t", [Time 0])] [("x.count", [Num (Fin 1)])])
                          "t" ["host"] = Err e).
Proof.
  pose proof (absent_columns_promoted_or_error
                (mkDF [(Some "t", [Time 0])] [("x.count", [Num (Fin 1)])])
                300 "t" ["host"] eq_refl) as H.
  cbv in H. destruct H as [H1 [H2 _]]. split; assumption.
Defined.

(** ** The layout of statistic columns *)

Lemma zipWith_map {A B C D : Type} (f : B -> C -> D) (g : A -> B) (h : A -> C)
  (l : list A) :
  zipWith f (map g l) (map h l) = map (fun x => f (g x) (h x)) l.
Proof.
  unfold zipWith. induction l as [| a l IH]; simpl; [reflexivity |].
  now rewrite IH.
Qed.

Lemma zipn_get_cols (variables stats : list string) :
  stats <> [] ->
  zipn (map (get_cols variables) stats) =
  map (fun v => stat_cols stats v) variables.
Proof.
  induction stats as [| s stats IH]; [congruence |]. intros _.
  destruct stats as [| s' stats].
  - simpl. unfold get_cols. rewrite map_map. reflexivity.
  - change (zipn (map (get_cols variables) (s :: s' :: stats)))
      with (zipWith cons (get_cols variables s)
                         (zipn (map (get_cols variables) (s' :: stats)))).
    rewrite IH by discriminate. unfold get_cols. now rewrite zipWith_map.
Qed.

Lemma chain_zipn_get_cols (variables stats : list string) :
  stats <> [] ->
  chain (zipn (map (get_cols variables) stats)) =
  flat_map (stat_cols stats) variables.
Proof.
  intros H. unfold chain. rewrite zipn_get_cols by assumption.
  now rewrite flat_map_concat_map.
Qed.

Lemma append_inj_l (a b c : string) : (a ++ b = a ++ c)%string -> b = c.
Proof.
  induction a as [| x a IH]; simpl; intros H; [assumption |].
  injection H as H. auto.
Qed.

Lemma stat_col_inj (v v' s s' : string) :
  has_dot s = false -> has_dot s' = false ->
  (v ++ "." ++ s = v' ++ "." ++ s')%string -> v = v' /\ s = s'.
Proof.
  intros Hs Hs' E.
  assert (Hv : v = v').
  { rewrite <- (var_of_col v s Hs), <- (var_of_col v' s' Hs'). now rewrite E. }
  subst v'. split; [reflexivity |].
  apply append_inj_l in E. now injection E.
Qed.

Lemma stat_cols_In (stats : list string) (v c : string) :
  In c (stat_cols stats v) <-> exists s, In s stats /\ c = (v ++ "." ++ s)%string.
Proof.
  unfold stat_cols. rewrite in_map_iff. split; intros [s [H1 H2]]; exists s; auto.
Qed.

Lemma stat_cols_NoDup (stats variables : list string) :
  NoDup stats -> (forall s, In s stats -> has_dot s = false) ->
  NoDup variables ->
  NoDup (flat_map (stat_cols stats) variables).
Proof.
  intros Hst Hdot Hv. induction Hv as [| v vs Hnin Hv IH]; simpl; [constructor |].
  apply NoDup_app.
  - unfold stat_cols. apply Finite.Injective_map_NoDup_in; [| assumption].
    intros s s' Hs Hs' E. apply append_inj_l in E. now injection E.
  - assumption.
  - intros c Hc Hc'. apply stat_cols_In in Hc as [s [Hs ->]].
    apply in_flat_map in Hc' as [v' [Hv' Hc']].
    apply stat_cols_In in Hc' as [s' [Hs' E]].
    apply stat_col_inj in E as [-> _]; auto.
Qed.

Lemma unique_from_repeat (seen l : list string) (v : string) (k : nat) :
  unique_from seen (repeat v (S k) ++ l) = unique_from seen (v :: l).
Proof.
  induction k as [| k IH].
  - reflexivity.
  - change (repeat v (S (S k)) ++ l) with (v :: (repeat v (S k) ++ l)).
    change (unique_from seen (v :: repeat v (S k) ++ l))
      with (if mem v seen then unique_from seen (repeat v (S k) ++ l)
            else v :: unique_from (v :: seen) (repeat v (S k) ++ l)).
    destruct (mem v seen) eqn:Hm.
    + rewrite IH. simpl. now rewrite Hm.
    + assert (H : unique_from (v :: seen) (repeat v (S k) ++ l) =
                  unique_from (v :: seen) l).
      { clear IH. induction k as [| k IHk]; simpl.
        - now rewrite String.eqb_refl.
        - simpl in IHk. now rewrite String.eqb_refl in *. }
      rewrite H. simpl. now rewrite Hm.
Qed.

Lemma unique_from_NoDup_id (seen l : list string) :
  NoDup l -> (forall x, In x l -> ~ In x seen) -> unique_from seen l = l.
Proof.
  intros H. revert seen. induction H as [| a l Hn H IH]; simpl; intros seen Hs;
    [reflexivity |].
  assert (Hm : mem a seen = false) by (apply mem_false, Hs; now left).
  rewrite Hm. f_equal. apply IH. intros x Hx [<- | Hin]; [contradiction |].
  apply (Hs x); auto.
Qed.

Lemma pd_unique_NoDup_id (l : list string) : NoDup l -> pd_unique l = l.
Proof. intros H. apply unique_from_NoDup_id; auto. Qed.

(** On a frame laid out as key columns followed by the statistic columns of
    each variable in turn, the variables come back in their order. *)
Lemma get_vars_layout (idx : list (option string * list cell))
  (d : list (string * list cell)) (keys stats variables : list string) :
  stats <> [] -> (forall s, In s stats -> has_dot s = false) ->
  NoDup variables ->
  (forall c, In c (flat_map (stat_cols stats) variables) -> ~ In c keys) ->
  map fst d = flat_map (stat_cols stats) variables ->
  get_vars_from_flat_cols (mkDF idx d) keys = variables.
Proof.
  intros Hne Hdot Hnd Hk Hd. unfold get_vars_from_flat_cols, columns. simpl.
  rewrite Hd.
  assert (Hf : filter (fun col => negb (mem col keys)) (flat_map (stat_cols stats) variables)
               = flat_map (stat_cols stats) variables).
  { apply forallb_filter_id. apply forallb_forall. intros c Hc.
    now apply negb_true_iff, mem_false, Hk. }
  rewrite Hf. clear Hf Hk Hd.
  destruct stats as [| s0 stats]; [congruence |].
  assert (Hm : map var_part (flat_map (stat_cols (s0 :: stats)) variables)
               = flat_map (fun v => repeat v (S (length stats))) variables).
  { clear Hnd. induction variables as [| v vs IH]; [reflexivity |].
    cbn [flat_map]. rewrite map_app, IH. f_equal.
    unfold stat_cols. rewrite map_map.
    assert (G : forall l, (forall s, In s l -> has_dot s = false) ->
                map (fun s => var_part (v ++ "." ++ s)) l = repeat v (length l)).
    { intros l. induction l as [| s l IHl]; intros H; [reflexivity |].
      cbn [map length repeat]. rewrite var_of_col by (apply H; now left).
      f_equal. apply IHl. intros s' Hs'. apply H. now right. }
    apply (G (s0 :: stats)). assumption. }
  rewrite Hm. unfold pd_unique.
  assert (G : forall seen, unique_from seen
                (flat_map (fun v => repeat v (S (length stats))) variables)
              = unique_from seen variables).
  { clear. induction variables as [| v vs IH]; intros seen; [reflexivity |].
    change (flat_map (fun v0 => repeat v0 (S (length stats))) (v :: vs))
      with (repeat v (S (length stats)) ++
            flat_map (fun v0 => repeat v0 (S (length stats))) vs).
    rewrite unique_from_repeat. simpl.
    destruct (mem v seen); now rewrite IH. }
  rewrite G. now apply pd_unique_NoDup_id.
Qed.

(** ** Dictionaries and the columns of an aggregation *)

Lemma dict_set_fresh {V : Type} (d : list (string * V)) (k : string) (v : V) :
  ~ In k (map fst d) -> dict_set d k v = d ++ [(k, v)].
Proof.
  induction d as [| [k' v'] d IH]; simpl; intros H; [reflexivity |].
  destruct (String.eqb k' k) eqn:E.
  - apply String.eqb_eq in E. tauto.
  - rewrite IH; tauto.
Qed.

Lemma dict_NoDup {V : Type} (pairs : list (string * V)) :
  NoDup (map fst pairs) -> dict pairs = pairs.
Proof.
  unfold dict.
  assert (G : forall acc, NoDup (map fst (acc ++ pairs)) ->
              fold_left (fun d p => dict_set d (fst p) (snd p)) pairs acc = acc ++ pairs).
  { induction pairs as [| [k v] pairs IH]; simpl; intros acc H.
    - now rewrite app_nil_r.
    - rewrite dict_set_fresh.
      + rewrite IH; rewrite <- app_assoc; [reflexivity | assumption].
      + rewrite map_app in H. simpl in H. apply NoDup_remove_2 in H.
        intros Hin. apply H. apply in_or_app. now left. }
  intros H. now apply (G []).
Qed.


Lemma cols_of_length (w : nat) (keys : list (list cell)) :
  length (cols_of w keys) = w.
Proof. unfold cols_of. now rewrite length_map, length_seq. Qed.



Lemma groupby_by (df : DataFrame) (keys : list string) (g : grouped) :
  groupby df keys = Ok g -> g_by g = keys /\ g_df g = df.
Proof.
  unfold groupby. intros H. apply bind_Ok in H as [kc [_ H]].
  injection H as <-. auto.
Qed.

Lemma stat_cols_flat_length (stats variables : list string) :
  length (flat_map (stat_cols stats) variables) =
  (length variables * length stats)%nat.
Proof.
  induction variables as [| v vs IH]; simpl; [reflexivity |].
  rewrite length_app, IH. unfold stat_cols. now rewrite length_map.
Qed.

Lemma times_length {A : Type} (l : list A) (n : nat) :
  length (times l n) = (n * length l)%nat.
Proof.
  unfold times. induction n as [| n IH]; simpl; [reflexivity |].
  now rewrite length_app, IH.
Qed.



(** ** Arithmetic on finite numbers *)

Lemma Rcompare_0_pos (x : R) : (0 < x)%R -> Rcompare x 0 = Gt.
Proof. intros H. destruct (Rcompare_spec x 0); [lra | lra | reflexivity]. Qed.

Lemma Rcompare_0_neg (x : R) : (x < 0)%R -> Rcompare x 0 = Lt.
Proof. intros H. destruct (Rcompare_spec x 0); [lra | reflexivity | lra]. Qed.

Lemma Rcompare_0_eq : Rcompare 0 0 = Eq.
Proof. destruct (Rcompare_spec 0 0); [reflexivity | lra | lra]. Qed.

Lemma ndiv_Fin (x y : R) : y <> 0%R -> ndiv (Fin x) (Fin y) = Fin (x / y).
Proof.
  intros H. simpl. destruct (Rcompare_spec y 0); [contradiction | reflexivity | reflexivity].
Qed.

Lemma ndiv_0_0 : ndiv (Fin 0) (Fin 0) = NaN.
Proof. simpl. rewrite Rcompare_0_eq. unfold inf_by_sign. now rewrite Rcompare_0_eq. Qed.

Lemma filter_notna_Fin (xs : list R) : filter notna (map Fin xs) = map Fin xs.
Proof. induction xs as [| x xs IH]; simpl; [reflexivity | now rewrite IH]. Qed.

Lemma agg_count_Fin (xs : list R) : agg_count (map Fin xs) = Fin (INR (length xs)).
Proof. unfold agg_count. now rewrite filter_notna_Fin, length_map. Qed.

Lemma agg_sum_Fin (xs : list R) : agg_sum (map Fin xs) = Fin (Rsum xs).
Proof.
  unfold agg_sum. rewrite filter_notna_Fin.
  induction xs as [| x xs IH]; simpl; [reflexivity | now rewrite IH].
Qed.

Lemma agg_min_Fin (x : R) (xs : list R) :
  agg_min (map Fin (x :: xs)) = Fin (MinRlist (x :: xs)).
Proof.
  unfold agg_min. revert x. induction xs as [| y xs IH]; intros x; [reflexivity |].
  change (fold_right nmin NaN (map Fin (x :: y :: xs)))
    with (nmin (Fin x) (fold_right nmin NaN (map Fin (y :: xs)))).
  now rewrite IH.
Qed.

Lemma agg_max_Fin (x : R) (xs : list R) :
  agg_max (map Fin (x :: xs)) = Fin (MaxRlist (x :: xs)).
Proof.
  unfold agg_max. revert x. induction xs as [| y xs IH]; intros x; [reflexivity |].
  change (fold_right nmax NaN (map Fin (x :: y :: xs)))
    with (nmax (Fin x) (fold_right nmax NaN (map Fin (y :: xs)))).
  now rewrite IH.
Qed.

Lemma Rsum_app (l1 l2 : list R) : Rsum (l1 ++ l2) = (Rsum l1 + Rsum l2)%R.
Proof. induction l1 as [| x l1 IH]; simpl; [lra | rewrite IH; lra]. Qed.

Lemma Rsum_pos (l : list R) :
  l <> [] -> (forall x, In x l -> (0 < x)%R) -> (0 < Rsum l)%R.
Proof.
  induction l as [| x l IH]; [congruence |]. intros _ H. simpl.
  assert (Hx : (0 < x)%R) by (apply H; now left).
  destruct l as [| y l]; [simpl; lra |].
  assert ((0 < Rsum (y :: l))%R) by (apply IH; [discriminate | intros; apply H; now right]).
  lra.
Qed.

Lemma INR_length_pos {A : Type} (l : list A) : l <> [] -> (0 < INR (length l))%R.
Proof.
  destruct l; [congruence |]. intros _. apply lt_0_INR. simpl. lia.
Qed.

(** The variance of two or more finite samples, and of fewer. *)
Lemma agg_var_Fin (xs : list R) :
  (2 <= length xs)%nat ->
  agg_var (map Fin xs) =
  Fin (Rsum (map (fun x => (x - Rsum xs / INR (length xs)) ^ 2) xs)
       / (INR (length xs) - 1))%R.
Proof.
  intros Hn. unfold agg_var. rewrite filter_notna_Fin, length_map.
  destruct (length xs <=? 1)%nat eqn:E; [apply Nat.leb_le in E; lia |].
  assert (H0 : (2 <= INR (length xs))%R) by (apply (le_INR 2); assumption).
  rewrite map_map.
  rewrite (map_ext _ (fun x => Fin ((x - Rsum xs / INR (length xs)) ^ 2)%R)).
  - rewrite <- (map_map _ Fin), agg_sum_Fin. apply ndiv_Fin. lra.
  - intros x. rewrite agg_sum_Fin, ndiv_Fin by lra. simpl. f_equal. ring.
Qed.

Lemma Rsum_sq_dev (m : R) (xs : list R) :
  (Rsum (map (fun x => (x - m) ^ 2) xs) =
   Rsum (map (fun x => x * x) xs) - 2 * m * Rsum xs + INR (length xs) * m ^ 2)%R.
Proof.
  induction xs as [| x xs IH]; [simpl; lra |].
  unfold Rsum in *. cbn [map fold_right length]. rewrite IH, S_INR. ring.
Qed.

(** Under exact arithmetic the variance is what the one-pass reduction of
    the engine gives: the sum of the squares less the squared sum over the
    count, divided by the count less one. *)
Lemma one_pass_variance (xs : list R) :
  (2 <= length xs)%nat ->
  agg_var (map Fin xs) =
  Fin ((Rsum (map (fun x => x * x) xs) - Rsum xs * Rsum xs / INR (length xs))
       / (INR (length xs) - 1))%R.
Proof.
  intros Hn. rewrite agg_var_Fin by assumption. f_equal.
  assert (H0 : (2 <= INR (length xs))%R) by (apply (le_INR 2); assumption).
  rewrite Rsum_sq_dev. field. lra.
Qed.

Lemma agg_var_one (xs : list num) :
  (length (filter notna xs) <= 1)%nat -> agg_var xs = NaN.
Proof.
  intros H. unfold agg_var. apply Nat.leb_le in H. now rewrite H.
Qed.

(** ** Keys and groups *)

Lemma num_eqb_eq (a b : num) : num_eqb a b = true <-> a = b.
Proof.
  destruct a as [x | | |], b as [y | | |]; simpl; try (split; [discriminate | discriminate]);
    try tauto.
  destruct (Req_dec_T x y) as [-> | Hn]; split; try tauto; try discriminate.
  intros H. injection H as H. contradiction.
Qed.

Lemma cell_eqb_eq (a b : cell) : cell_eqb a b = true <-> a = b.
Proof.
  destruct a as [s | t | x], b as [s' | t' | y]; simpl;
    try (split; [discriminate | discriminate]).
  - rewrite String.eqb_eq. split; [now intros -> | now intros [= ->]].
  - rewrite Z.eqb_eq. split; [now intros -> | now intros [= ->]].
  - rewrite num_eqb_eq. split; [now intros -> | now intros [= ->]].
Qed.

Lemma key_eqb_eq (k1 k2 : list cell) : key_eqb k1 k2 = true <-> k1 = k2.
Proof.
  revert k2. induction k1 as [| a k1 IH]; intros [| b k2]; simpl;
    try (split; [discriminate | discriminate]); try tauto.
  rewrite andb_true_iff, cell_eqb_eq, IH.
  split; [now intros [-> ->] | now intros [= -> ->]].
Qed.

Lemma key_eqb_refl (k : list cell) : key_eqb k k = true.
Proof. now apply key_eqb_eq. Qed.

Lemma key_eqb_neq (k1 k2 : list cell) : key_eqb k1 k2 = false <-> k1 <> k2.
Proof.
  rewrite <- key_eqb_eq. destruct (key_eqb k1 k2); split; congruence.
Qed.

Lemma key_dec (k1 k2 : list cell) : {k1 = k2} + {k1 <> k2}.
Proof.
  destruct (key_eqb k1 k2) eqn:E.
  - left. now apply key_eqb_eq.
  - right. now apply key_eqb_neq.
Qed.

Lemma distinct_In (l : list (list cell)) (k : list cell) :
  In k (distinct l) <-> In k l.
Proof.
  induction l as [| a l IH]; simpl; [tauto |].
  rewrite filter_In, IH, negb_true_iff, key_eqb_neq.
  destruct (key_dec a k); intuition.
Qed.

Lemma distinct_NoDup (l : list (list cell)) : NoDup (distinct l).
Proof.
  induction l as [| a l IH]; simpl; constructor.
  - rewrite filter_In, negb_true_iff, key_eqb_neq. tauto.
  - now apply NoDup_filter.
Qed.

Lemma insert_key_perm (k : list cell) (l : list (list cell)) :
  Permutation (insert_key k l) (k :: l).
Proof.
  induction l as [| h t IH]; simpl; [reflexivity |].
  destruct (key_leb k h); [reflexivity |].
  rewrite IH. apply perm_swap.
Qed.

Lemma sort_keys_perm (l : list (list cell)) : Permutation (sort_keys l) l.
Proof.
  induction l as [| k l IH]; simpl; [reflexivity |].
  rewrite insert_key_perm. now constructor.
Qed.

Lemma group_keys_In (rows : list (list cell)) (k : list cell) :
  In k (group_keys rows) <-> In k rows /\ key_ok k = true.
Proof.
  unfold group_keys. split.
  - intros H. apply (Permutation_in _ (sort_keys_perm _)) in H.
    now apply distinct_In, filter_In in H.
  - intros H. apply (Permutation_in _ (Permutation_sym (sort_keys_perm _))).
    now apply distinct_In, filter_In.
Qed.

Lemma group_keys_NoDup (rows : list (list cell)) : NoDup (group_keys rows).
Proof.
  unfold group_keys.
  apply (Permutation_NoDup (Permutation_sym (sort_keys_perm _))), distinct_NoDup.
Qed.

Lemma group_of_map {A B : Type} (rows : list (list cell)) (h : A -> B)
  (l : list A) (k : list cell) :
  group_of rows (map h l) k = map h (group_of rows l k).
Proof.
  unfold group_of. revert l. induction rows as [| r rows IH]; intros [| x l]; simpl;
    try reflexivity.
  destruct (key_eqb r k); simpl; now rewrite IH.
Qed.

(** The group of a key among rows given by a key function over a base list *)
Lemma group_of_base {X A : Type} (kf : X -> list cell) (h : X -> A)
  (base : list X) (k : list cell) :
  group_of (map kf base) (map h base) k =
  map h (filter (fun x => key_eqb (kf x) k) base).
Proof.
  unfold group_of. induction base as [| x base IH]; simpl; [reflexivity |].
  destruct (key_eqb (kf x) k); simpl; now rewrite IH.
Qed.

Lemma filter_none {A : Type} (f : A -> bool) (l : list A) :
  (forall x, In x l -> f x = false) -> filter f l = [].
Proof.
  induction l as [| a l IH]; simpl; intros H; [reflexivity |].
  rewrite (H a) by now left. apply IH. intros x Hx. apply H. now right.
Qed.


(** In a table with one row per key, the group of a key is its row. *)
Lemma group_of_unique {A : Type} (keys : list (list cell)) (h : list cell -> A)
  (k : list cell) :
  NoDup keys -> In k keys -> group_of keys (map h keys) k = [h k].
Proof.
  intros Hnd Hin. rewrite <- (map_id keys) at 1. rewrite group_of_base.
  induction Hnd as [| a keys Hn Hnd IH]; [contradiction |]. simpl.
  destruct (key_eqb a k) eqn:E.
  - apply key_eqb_eq in E. subst a. simpl. f_equal.
    rewrite filter_none; [reflexivity |].
    intros x Hx. apply key_eqb_neq. intros ->. contradiction.
  - apply key_eqb_neq in E. destruct Hin as [-> | Hin]; [congruence | auto].
Qed.

(** ** Rows of a table *)

Lemma zipWith_length {A B C : Type} (f : A -> B -> C) (a : list A) (b : list B) :
  length (zipWith f a b) = Nat.min (length a) (length b).
Proof. unfold zipWith. now rewrite length_map, length_combine. Qed.

Lemma rows_of_length (n : nat) (cols : list (list cell)) :
  Forall (fun c => length c = n) cols -> length (rows_of n cols) = n.
Proof.
  induction 1 as [| c cols Hc _ IH]; simpl.
  - apply repeat_length.
  - rewrite zipWith_length, Hc, IH. apply Nat.min_id.
Qed.

Lemma repeat_map_const {A B : Type} (b : B) (l : list A) :
  repeat b (length l) = map (fun _ => b) l.
Proof. induction l as [| a l IH]; simpl; [reflexivity | now rewrite IH]. Qed.

(** The rows of columns that are computed from a common list, entry by
    entry *)
Lemma rows_of_maps {X : Type} (base : list X) (fs : list (X -> cell)) :
  rows_of (length base) (map (fun f => map f base) fs) =
  map (fun x => map (fun f => f x) fs) base.
Proof.
  induction fs as [| f fs IH]; simpl.
  - apply repeat_map_const.
  - rewrite IH. apply zipWith_map.
Qed.

Lemma zipWith_cons_nonempty (c : list cell) (rows : list (list cell)) :
  Forall (fun r => r <> []) (zipWith cons c rows).
Proof.
  unfold zipWith. apply Forall_forall. intros r Hr.
  apply in_map_iff in Hr as [p [<- _]]. discriminate.
Qed.

Lemma coarse_key_cons (time_res : Z) (x : cell) (k : list cell) :
  k <> [] -> coarse_key time_res (x :: k) = x :: coarse_key time_res k.
Proof.
  intros H. unfold coarse_key. destruct k as [| y k]; [congruence | reflexivity].
Qed.

Lemma map_coarse_key_zipWith (time_res : Z) (c : list cell) (rows : list (list cell)) :
  Forall (fun r => r <> []) rows ->
  map (coarse_key time_res) (zipWith cons c rows) =
  zipWith cons c (map (coarse_key time_res) rows).
Proof.
  unfold zipWith. revert c. induction rows as [| r rows IH]; intros [| x c] H;
    simpl; try reflexivity.
  inversion H as [| ? ? Hr Hrows]; subst.
  rewrite coarse_key_cons by assumption. f_equal. now apply IH.
Qed.

(** Flooring the time column floors the last component of every row key. *)
Lemma rows_of_floor (time_res : Z) (n : nat) (gcs : list (list cell)) (ts : list Z) :
  length ts = n ->
  rows_of n (gcs ++ [map (fun t => Time (floor_time time_res t)) ts]) =
  map (coarse_key time_res) (rows_of n (gcs ++ [map Time ts])).
Proof.
  intros Hts. induction gcs as [| c gcs IH].
  - simpl. subst n. rewrite !repeat_map_const.
    rewrite (zipWith_map cons (fun t => Time (floor_time time_res t)) (fun _ => []) ts).
    rewrite (zipWith_map cons Time (fun _ => []) ts).
    now rewrite map_map.
  - simpl. rewrite IH. symmetry. apply map_coarse_key_zipWith.
    destruct gcs; simpl; apply zipWith_cons_nonempty.
Qed.

Lemma set_assoc_lookup_same {V : Type} (d : list (string * V)) (k : string) (v : V) :
  lookup k (set_assoc d k v) = Some v.
Proof.
  induction d as [| [k' v'] d IH]; simpl.
  - now rewrite String.eqb_refl.
  - destruct (String.eqb k' k) eqn:E; simpl; now rewrite E.
Qed.

Lemma set_assoc_lookup_other {V : Type} (d : list (string * V)) (k c : string) (v : V) :
  c <> k -> lookup c (set_assoc d k v) = lookup c d.
Proof.
  intros Hne. induction d as [| [k' v'] d IH]; simpl.
  - destruct (String.eqb k c) eqn:E; [apply String.eqb_eq in E; congruence | reflexivity].
  - destruct (String.eqb k' k) eqn:E; simpl.
    + apply String.eqb_eq in E. subst k'.
      destruct (String.eqb k c) eqn:E'; [apply String.eqb_eq in E'; congruence | reflexivity].
    + destruct (String.eqb k' c); [reflexivity | assumption].
Qed.

Lemma numcol_Num (xs : list num) : numcol (map Num xs) = Ok xs.
Proof.
  unfold numcol. induction xs as [| x xs IH]; simpl; [reflexivity |].
  now rewrite IH.
Qed.

Lemma getcol_lookup (df : DataFrame) (name : string) (c : list cell) :
  lookup name (data df) = Some c -> getcol df name = Ok c.
Proof. intros H. unfold getcol. now rewrite H. Qed.

Lemma mapM_getcol (df : DataFrame) (names : list string) (X : string -> list cell) :
  (forall c, In c names -> lookup c (data df) = Some (X c)) ->
  mapM (getcol df) names = Ok (map X names).
Proof.
  intros H. apply mapM_ext_Ok. intros c Hc. now apply getcol_lookup, H.
Qed.

(** Selecting columns of numbers and renaming them gives their matrix. *)
Lemma select_rename {B : Type} (df : DataFrame) (names : list string)
  (X : string -> list num) (k : matrix -> result B) :
  (forall c, In c names -> lookup c (data df) = Some (map Num (X c))) ->
  (sel <- select df names ;; m <- rename sel ;; k m) = k (map X names).
Proof.
  intros H. unfold select.
  rewrite (mapM_getcol df names (fun c => map Num (X c)) H). simpl.
  unfold rename. simpl.
  rewrite snd_combine by now rewrite length_map.
  rewrite mapM_map.
  rewrite (mapM_ext_Ok _ X); [reflexivity |].
  intros c _. apply numcol_Num.
Qed.

Lemma groupby_rows (df : DataFrame) (keys : list string) (KC : string -> list cell) :
  (forall c, In c keys -> lookup c (data df) = Some (KC c)) ->
  groupby df keys = Ok (mkGrouped df keys (rows_of (nrows df) (map KC keys))).
Proof.
  intros H. unfold groupby. now rewrite (mapM_getcol df keys KC H).
Qed.

Lemma transform_rename {B : Type} (g : grouped) (f : agg_fun) (names : list string)
  (X : string -> list num) (k : matrix -> result B) :
  (forall c, In c names -> lookup c (data (g_df g)) = Some (map Num (X c))) ->
  (tr <- transform g f names ;; m <- rename tr ;; k m) =
  k (map (fun c => map (fun key => if key_ok key
                                   then agg_apply f (group_of (g_rows g) (X c) key)
                                   else NaN) (g_rows g)) names).
Proof.
  intros H. unfold transform.
  rewrite (mapM_ext_Ok _
             (fun c => (c, map (fun key => if key_ok key
                                           then Num (agg_apply f (group_of (g_rows g) (X c) key))
                                           else Num NaN) (g_rows g)))).
  - simpl. unfold rename. simpl. rewrite map_map. simpl.
    rewrite mapM_map.
    rewrite (mapM_ext_Ok _ (fun c => map (fun key => if key_ok key
                                   then agg_apply f (group_of (g_rows g) (X c) key)
                                   else NaN) (g_rows g))); [reflexivity |].
    intros c _. rewrite <- numcol_Num. f_equal. rewrite map_map.
    apply map_ext. intros key. now destruct (key_ok key).
  - intros c Hc. rewrite (getcol_lookup _ _ _ (H c Hc)). simpl.
    now rewrite numcol_Num.
Qed.

Lemma frame_op_maps {X : Type} (f : num -> num -> num) (a b : X -> list num)
  (l : list X) :
  frame_op f (map a l) (map b l) = map (fun x => zipWith f (a x) (b x)) l.
Proof.
  induction l as [| x l IH]; simpl; [reflexivity | now rewrite IH].
Qed.

Lemma frame_map_maps {X : Type} (f : num -> num) (a : X -> list num) (l : list X) :
  frame_map f (map a l) = map (fun x => map f (a x)) l.
Proof. unfold frame_map. now rewrite map_map. Qed.

Lemma dt_floor_times (time_res : Z) (ts : list Z) :
  (0 < time_res)%Z ->
  dt_floor time_res (map Time ts) =
  Ok (map (fun t => Time (floor_time time_res t)) ts).
Proof.
  intros H. unfold dt_floor.
  destruct (time_res <=? 0)%Z eqn:E; [apply Z.leb_le in E; lia |].
  rewrite mapM_map. now apply mapM_ext_Ok.
Qed.

Lemma select_rename_cols {B : Type} (df : DataFrame) (vs : list string) (s : string)
  (N : string -> list num) (k : matrix -> result B) :
  has_dot s = false ->
  (forall v, In v vs -> lookup (v ++ "." ++ s) (data df) = Some (map Num (N v))) ->
  (sel <- select df (get_cols vs s) ;; m <- rename sel ;; k m) = k (map N vs).
Proof.
  intros Hs H.
  rewrite (select_rename df (get_cols vs s) (fun c => N (var_part c))).
  - f_equal. unfold get_cols. rewrite map_map. apply map_ext.
    intros v. now rewrite var_of_col.
  - intros c Hc. unfold get_cols in Hc. apply in_map_iff in Hc as [v [<- Hv]].
    rewrite var_of_col by assumption. now apply H.
Qed.

Lemma transform_rename_cols {B : Type} (g : grouped) (f : agg_fun) (vs : list string)
  (s : string) (N : string -> list num) (k : matrix -> result B) :
  has_dot s = false ->
  (forall v, In v vs ->
             lookup (v ++ "." ++ s) (data (g_df g)) = Some (map Num (N v))) ->
  (tr <- transform g f (get_cols vs s) ;; m <- rename tr ;; k m) =
  k (map (fun v => map (fun key => if key_ok key
                                   then agg_apply f (group_of (g_rows g) (N v) key)
                                   else NaN) (g_rows g)) vs).
Proof.
  intros Hs H.
  rewrite (transform_rename g f (get_cols vs s) (fun c => N (var_part c))).
  - f_equal. unfold get_cols. rewrite map_map. apply map_ext.
    intros v. now rewrite var_of_col.
  - intros c Hc. unfold get_cols in Hc. apply in_map_iff in Hc as [v [<- Hv]].
    rewrite var_of_col by assumption. now apply H.
Qed.

Lemma combine_maps {X A B : Type} (f : X -> A) (g : X -> B) (l : list X) :
  combine (map f l) (map g l) = map (fun x => (f x, g x)) l.
Proof. induction l as [| x l IH]; simpl; [reflexivity | now rewrite IH]. Qed.

Lemma fold_setcol (f : string -> string) (M : string -> list num) (vs : list string)
  (df : DataFrame) :
  (forall v w, In v vs -> In w vs -> f v = f w -> v = w) ->
  (forall v, In v vs -> In (f v) (columns df)) ->
  let out := fold_left (fun d p => setcol d (fst p) (map Num (snd p)))
                       (map (fun v => (f v, M v)) vs) df in
  index out = index df /\
  columns out = columns df /\
  (forall v, In v vs -> lookup (f v) (data out) = Some (map Num (M v))) /\
  (forall c, ~ In c (map f vs) -> lookup c (data out) = lookup c (data df)).
Proof.
  revert df. induction vs as [| v vs IH]; intros df Hinj Hin; cbn [map fold_left fst snd].
  - repeat split; auto. intros v [].
  - set (df1 := setcol df (f v) (map Num (M v))).
    assert (Hc1 : columns df1 = columns df).
    { unfold df1, columns, setcol. cbn [data]. apply set_assoc_keys_present.
      apply Hin. now left. }
    destruct (IH df1) as [Hi [Hc [Hl Ho]]].
    { intros a b Ha Hb. apply Hinj; now right. }
    { intros v' Hv'. rewrite Hc1. apply Hin. now right. }
    split; [exact Hi |]. split; [now rewrite Hc |]. split.
    + intros v' Hv'. destruct (in_dec string_dec v' vs) as [Hvs | Hvs]; [now apply Hl |].
      destruct Hv' as [-> | Hv']; [| contradiction].
      rewrite Ho.
      * unfold df1, setcol. cbn [data]. apply set_assoc_lookup_same.
      * intros Hc'. apply in_map_iff in Hc' as [w [E Hw]].
        apply Hinj in E; [subst; contradiction | now right | now left].
    + intros c Hc'. cbn [In] in Hc'. rewrite Ho by tauto.
      unfold df1, setcol. cbn [data]. apply set_assoc_lookup_other.
      intros ->. tauto.
Qed.

(** Assigning a matrix to the columns of one statistic *)
Lemma setcols_cols (df : DataFrame) (vs : list string) (s : string)
  (M : string -> list num) :
  has_dot s = false ->
  (forall v, In v vs -> In (v ++ "." ++ s)%string (columns df)) ->
  exists out,
    setcols df (get_cols vs s) (map M vs) = Ok out /\
    index out = index df /\
    columns out = columns df /\
    (forall v, In v vs ->
               lookup (v ++ "." ++ s) (data out) = Some (map Num (M v))) /\
    (forall c, ~ In c (get_cols vs s) -> lookup c (data out) = lookup c (data df)).
Proof.
  intros Hs Hin. unfold setcols, get_cols. rewrite !length_map, Nat.eqb_refl.
  cbn [negb]. eexists. split; [reflexivity |].
  rewrite combine_maps.
  apply (fold_setcol (fun v => (v ++ "." ++ s)%string) M vs df); [| assumption].
  intros v w _ _ E. now apply stat_col_inj in E as [-> _].
Qed.

Lemma spec_blocks (vs : list string) :
  combine (flat_map (stat_cols lossless_stats) vs)
          (times [Sum; Sum; Sum; Min; Max] (length vs)) =
  flat_map (fun v => combine (stat_cols lossless_stats v) [Sum; Sum; Sum; Min; Max]) vs.
Proof.
  unfold times. induction vs as [| v vs IH]; simpl; [reflexivity |].
  now rewrite IH.
Qed.

Lemma lookup_app {V : Type} (name : string) (d1 d2 : list (string * V)) :
  lookup name (d1 ++ d2) =
  match lookup name d1 with
  | Some v => Some v
  | None => lookup name d2
  end.
Proof.
  induction d1 as [| [k v] d1 IH]; simpl; [reflexivity |].
  destruct (String.eqb k name); [reflexivity | assumption].
Qed.

(** Looking a statistic column up in a table laid out variable by
    variable *)
Lemma lookup_stat_blocks {V : Type} (stats vs : list string)
  (F : string -> string -> V) (v s : string) :
  (forall s', In s' stats -> has_dot s' = false) ->
  In v vs -> In s stats ->
  lookup (v ++ "." ++ s)
         (flat_map (fun v' => map (fun s' => ((v' ++ "." ++ s')%string, F v' s')) stats) vs)
  = Some (F v s).
Proof.
  intros Hdot Hv Hs. induction vs as [| w vs IH]; [contradiction |].
  simpl. rewrite lookup_app.
  assert (G : forall l, (forall s', In s' l -> has_dot s' = false) ->
              lookup (v ++ "." ++ s) (map (fun s' => ((w ++ "." ++ s')%string, F w s')) l) =
              if string_dec w v then (if in_dec string_dec s l then Some (F v s) else None)
              else None).
  { intros l. induction l as [| s' l IHl]; intros Hl.
    - simpl. destruct (string_dec w v); reflexivity.
    - cbn [map lookup fst snd].
      destruct (String.eqb (w ++ "." ++ s') (v ++ "." ++ s)) eqn:E.
      + apply String.eqb_eq in E. apply stat_col_inj in E as [-> ->];
          [| apply Hl; now left | apply Hdot; assumption].
        destruct (string_dec v v); [| congruence].
        destruct (in_dec string_dec s (s :: l)) as [_ | Hn]; [reflexivity |].
        elim Hn. now left.
      + apply String.eqb_neq in E. rewrite IHl by (intros; apply Hl; now right).
        destruct (string_dec w v) as [-> | Hne]; [| reflexivity].
        destruct (in_dec string_dec s l) as [Hi | Hi];
          destruct (in_dec string_dec s (s' :: l)) as [Hj | Hj]; try reflexivity.
        * elim Hj. now right.
        * destruct Hj as [-> | Hj]; [congruence | contradiction]. }
  rewrite G by assumption.
  destruct (string_dec w v) as [-> | Hne].
  - destruct (in_dec string_dec s stats); [reflexivity | contradiction].
  - destruct Hv as [-> | Hv]; [congruence | now apply IH].
Qed.

Lemma series_lookup (df : DataFrame) (c : string) :
  In c (columns df) -> lookup c (data df) = Some (series df c).
Proof.
  intros H. unfold series. destruct (lookup c (data df)) eqn:E; [reflexivity |].
  apply lookup_None in E. contradiction.
Qed.

Lemma series_of_lookup (df : DataFrame) (c : string) (col : list cell) :
  lookup c (data df) = Some col -> series df c = col.
Proof. intros H. unfold series. now rewrite H. Qed.

Lemma nrows_same_index (a b : DataFrame) :
  index a = index b -> index a <> [] -> nrows a = nrows b.
Proof.
  unfold nrows. intros <- H. destruct (index a); [congruence | reflexivity].
Qed.

Lemma bucket_cells_stats (b : bucket) :
  bucket_cells b = map (fun s => Num (Fin (bucket_stat s b))) lossless_stats.
Proof. reflexivity. Qed.

Lemma lossless_stats_no_dot (s : string) : In s lossless_stats -> has_dot s = false.
Proof.
  simpl. intros H. repeat (destruct H as [<- | H]; [reflexivity |]). contradiction.
Qed.

Lemma lossless_stats_NoDup : NoDup lossless_stats.
Proof. repeat constructor; simpl; intuition discriminate. Qed.

Lemma mapM_app {A B : Type} (f : A -> result B) (l1 l2 : list A) (r1 r2 : list B) :
  mapM f l1 = Ok r1 -> mapM f l2 = Ok r2 -> mapM f (l1 ++ l2) = Ok (r1 ++ r2).
Proof.
  revert r1. induction l1 as [| a l1 IH]; simpl; intros r1 H1 H2.
  - injection H1 as <-. assumption.
  - apply bind_Ok in H1 as [b [Hb H1]]. apply bind_Ok in H1 as [bs [Hbs H1]].
    injection H1 as <-. rewrite Hb. simpl. now rewrite (IH bs Hbs H2).
Qed.

Lemma mapM_flat_map {A B C : Type} (f : B -> result C) (g : A -> list B)
  (h : A -> list C) (l : list A) :
  (forall a, In a l -> mapM f (g a) = Ok (h a)) ->
  mapM f (flat_map g l) = Ok (flat_map h l).
Proof.
  induction l as [| a l IH]; simpl; intros H; [reflexivity |].
  apply mapM_app; [apply H; now left | apply IH; intros; apply H; now right].
Qed.

Lemma group_of_nonempty {A : Type} (rows : list (list cell)) (l : list A)
  (k : list cell) :
  length l = length rows -> In k rows -> group_of rows l k <> [].
Proof.
  unfold group_of. revert l. induction rows as [| r rows IH]; intros [| x l] Hlen Hin;
    simpl in *; try contradiction; try discriminate.
  destruct (key_eqb r k) eqn:E; [discriminate |].
  apply key_eqb_neq in E. destruct Hin as [-> | Hin]; [congruence |].
  apply IH; [lia | assumption].
Qed.

Lemma group_of_In {A : Type} (rows : list (list cell)) (l : list A)
  (k : list cell) (x : A) :
  In x (group_of rows l k) -> In x l.
Proof.
  unfold group_of. intros H. apply in_map_iff in H as [[r y] [<- H]].
  apply filter_In in H as [H _]. now apply in_combine_r in H.
Qed.

Lemma Rsum_plus {A : Type} (f g : A -> R) (l : list A) :
  Rsum (map (fun a => f a + g a)%R l) = (Rsum (map f l) + Rsum (map g l))%R.
Proof. induction l as [| a l IH]; simpl; [lra | rewrite IH; lra]. Qed.

(** A row-wise formula that reads the key of the row, summed over the rows
    of one key *)
Lemma group_of_keyed {A : Type} (rows : list (list cell)) (l : list A)
  (phi : list cell -> A -> num) (k : list cell) :
  length l = length rows ->
  group_of rows (map (fun p => phi (fst p) (snd p)) (combine rows l)) k =
  map (phi k) (group_of rows l k).
Proof.
  unfold group_of. revert l. induction rows as [| r rows IH]; intros [| x l] Hlen;
    simpl in *; try reflexivity; try discriminate.
  destruct (key_eqb r k) eqn:E; simpl.
  - apply key_eqb_eq in E. subst r. f_equal. apply IH. lia.
  - apply IH. lia.
Qed.

(** ** [coarsen_agg] on a lossless table whose keys are columns *)

Section CoarsenFlat.

Variables (df d : DataFrame) (time_res : Z) (time_col : string)
          (grouping_cols : list string).
Variable ts : list Z.
Variable B : string -> list bucket.

Local Abbreviation keys := (grouping_cols ++ [time_col]).
Local Abbreviation vs := (get_vars_from_flat_cols df keys).
Local Abbreviation rows := (map (coarse_key time_res) (table_rows d keys)).

Hypothesis Hnorm : (if absent_any keys df then reset_index df else Ok df) = Ok d.
Hypothesis Hres : (0 < time_res)%Z.
Hypothesis Hidx : index d <> [].
Hypothesis Hfresh : ~ In time_col grouping_cols.
Hypothesis Hkeys :
  forall c, In c keys -> In c (columns d) /\ length (series d c) = nrows d.
Hypothesis Htime : series d time_col = map Time ts.
Hypothesis Hstat :
  forall v s, In v vs -> In s lossless_stats ->
    In (v ++ "." ++ s)%string (columns d) /\
    ~ In (v ++ "." ++ s)%string keys /\
    series d (v ++ "." ++ s) = map (fun b => Num (Fin (bucket_stat s b))) (B v).
Hypothesis Hlen : forall v, In v vs -> length (B v) = nrows d.
Hypothesis Hpos : forall v b, In v vs -> In b (B v) -> (0 < b_count b)%R.

Let d1 := setcol d time_col (map (fun t => Time (floor_time time_res t)) ts).

Let N (s v : string) : list num := map (fun b => Fin (bucket_stat s b)) (B v).

Lemma d1_stat (v s : string) :
  In v vs -> In s lossless_stats ->
  lookup (v ++ "." ++ s) (data d1) = Some (map Num (N s v)).
Proof.
  intros Hv Hs. destruct (Hstat v s Hv Hs) as [Hc [Hk Hser]].
  unfold d1, setcol. cbn [data]. rewrite set_assoc_lookup_other.
  - rewrite (series_lookup d _ Hc), Hser. unfold N. now rewrite map_map.
  - intros E. apply Hk. rewrite E. apply in_or_app. right. now left.
Qed.

Lemma d1_rows :
  rows_of (nrows d1)
    (map (fun c => if String.eqb c time_col
                   then map (fun t => Time (floor_time time_res t)) ts
                   else series d c) keys) = rows.
Proof.
  assert (Hn : nrows d1 = nrows d) by (symmetry; now apply nrows_same_index).
  rewrite Hn. unfold table_rows. rewrite !map_app. cbn [map].
  rewrite String.eqb_refl, Htime.
  assert (Hts : length ts = nrows d).
  { destruct (Hkeys time_col) as [_ H]; [apply in_or_app; right; now left |].
    now rewrite Htime, length_map in H. }
  rewrite <- (rows_of_floor time_res (nrows d) _ ts Hts). f_equal. f_equal.
  apply map_ext_in. intros c Hc.
  destruct (String.eqb c time_col) eqn:E; [| reflexivity].
  apply String.eqb_eq in E. subst c. contradiction.
Qed.

Lemma d1_keys (c : string) :
  In c keys ->
  lookup c (data d1) =
  Some (if String.eqb c time_col
        then map (fun t => Time (floor_time time_res t)) ts
        else series d c).
Proof.
  intros Hc. unfold d1, setcol. cbn [data].
  destruct (String.eqb c time_col) eqn:E.
  - apply String.eqb_eq in E. subst c. apply set_assoc_lookup_same.
  - apply String.eqb_neq in E. rewrite set_assoc_lookup_other by assumption.
    apply series_lookup. now apply Hkeys.
Qed.

(** The totals of the bucket of each row, and the corrected sums of squared
    differences, as the frames of the function hold them *)
Let T (s v : string) : list num :=
  map (fun key => if key_ok key then agg_sum (group_of rows (N s v) key) else NaN) rows.

Let M (v : string) : list num :=
  zipWith nadd (N "sum_sq_diff" v)
    (zipWith nmul (N "count" v)
       (map nsquare
          (zipWith nsub (zipWith ndiv (N "sum" v) (N "count" v))
                        (zipWith ndiv (T "sum" v) (T "count" v))))).

Lemma coarsen_agg_steps :
  coarsen_agg df time_res time_col grouping_cols =
  (df_coarse <- setcols d1 (get_cols vs "sum_sq_diff") (map M vs) ;;
   g <- groupby df_coarse keys ;;
   agg_dict g
     (dict (combine
              (chain (zipn [get_cols vs "count"; get_cols vs "sum";
                            get_cols vs "sum_sq_diff"; get_cols vs "min";
                            get_cols vs "max"]))
              (times [Sum; Sum; Sum; Min; Max] (length (get_cols vs "")))))).
Proof.
  unfold coarsen_agg. rewrite Hnorm. cbn [bind].
  assert (Htc : In time_col (columns d)).
  { apply Hkeys. apply in_or_app. right. now left. }
  rewrite (getcol_lookup d time_col (map Time ts))
    by (rewrite (series_lookup d _ Htc); now rewrite Htime).
  cbn [bind]. rewrite dt_floor_times by assumption. cbn [bind]. fold d1.
  cbv zeta.
  rewrite (select_rename_cols d1 vs "count" (N "count"))
    by (try reflexivity; intros v Hv; apply d1_stat; simpl; tauto).
  rewrite (select_rename_cols d1 vs "sum" (N "sum"))
    by (try reflexivity; intros v Hv; apply d1_stat; simpl; tauto).
  rewrite (groupby_rows d1 keys _ d1_keys). cbn [bind]. rewrite d1_rows.
  rewrite (transform_rename_cols _ Sum vs "count" (N "count"))
    by (try reflexivity; intros v Hv; apply d1_stat; simpl; tauto).
  rewrite (transform_rename_cols _ Sum vs "sum" (N "sum"))
    by (try reflexivity; intros v Hv; apply d1_stat; simpl; tauto).
  rewrite (select_rename_cols d1 vs "sum_sq_diff" (N "sum_sq_diff"))
    by (try reflexivity; intros v Hv; apply d1_stat; simpl; tauto).
  cbn [g_rows agg_apply].
  rewrite !frame_op_maps, frame_map_maps, !frame_op_maps.
  reflexivity.
Qed.

Lemma rows_length : length rows = nrows d.
Proof.
  rewrite length_map. unfold table_rows. apply rows_of_length.
  apply Forall_forall. intros c Hc. apply in_map_iff in Hc as [name [<- Hn]].
  now apply Hkeys.
Qed.

Let tot (s v : string) (k : list cell) : num :=
  if key_ok k then agg_sum (group_of rows (N s v) k) else NaN.

Let phi (v : string) (k : list cell) (b : bucket) : num :=
  nadd (Fin (b_ssd b))
    (nmul (Fin (b_count b))
       (nsquare (nsub (ndiv (Fin (b_sum b)) (Fin (b_count b)))
                      (ndiv (tot "sum" v k) (tot "count" v k))))).

Lemma N_base (s v : string) :
  In v vs -> N s v = map (fun p => Fin (bucket_stat s (snd p))) (combine rows (B v)).
Proof.
  intros Hv. unfold N.
  rewrite <- (map_map snd (fun b => Fin (bucket_stat s b))).
  rewrite snd_combine; [reflexivity |]. now rewrite rows_length, Hlen.
Qed.

Lemma T_base (s v : string) :
  In v vs -> T s v = map (fun p => tot s v (fst p)) (combine rows (B v)).
Proof.
  intros Hv. unfold T.
  rewrite <- (map_map fst (tot s v)).
  rewrite fst_combine; [reflexivity |]. now rewrite rows_length, Hlen.
Qed.

Lemma M_base (v : string) :
  In v vs -> M v = map (fun p => phi v (fst p) (snd p)) (combine rows (B v)).
Proof.
  intros Hv. unfold M.
  rewrite (N_base "sum_sq_diff" v Hv), (N_base "count" v Hv), (N_base "sum" v Hv),
          (T_base "sum" v Hv), (T_base "count" v Hv).
  rewrite !zipWith_map, map_map, !zipWith_map. reflexivity.
Qed.

Lemma group_N (s v : string) (k : list cell) :
  group_of rows (N s v) k = map Fin (map (bucket_stat s) (group_of rows (B v) k)).
Proof. unfold N. now rewrite group_of_map, map_map. Qed.

Lemma group_nonempty (v : string) (k : list cell) :
  In v vs -> In k (group_keys rows) -> group_of rows (B v) k <> [].
Proof.
  intros Hv Hk. apply group_of_nonempty.
  - now rewrite rows_length, Hlen.
  - now apply group_keys_In in Hk.
Qed.

Lemma group_count_pos (v : string) (k : list cell) :
  In v vs -> In k (group_keys rows) ->
  (0 < Rsum (map b_count (group_of rows (B v) k)))%R.
Proof.
  intros Hv Hk. apply Rsum_pos.
  - pose proof (group_nonempty v k Hv Hk) as H.
    destruct (group_of rows (B v) k); [congruence | discriminate].
  - intros x Hx. apply in_map_iff in Hx as [b [<- Hb]].
    apply (Hpos v b Hv). eapply group_of_In; eauto.
Qed.

Lemma group_M (v : string) (k : list cell) :
  In v vs -> In k (group_keys rows) ->
  agg_sum (group_of rows (M v) k) =
  Fin (b_ssd (chan_merge (group_of rows (B v) k))).
Proof.
  intros Hv Hk. rewrite (M_base v Hv).
  rewrite group_of_keyed by now rewrite rows_length, Hlen.
  set (grp := group_of rows (B v) k).
  assert (Hkok : key_ok k = true) by now apply group_keys_In in Hk.
  pose proof (group_count_pos v k Hv Hk) as HN. fold grp in HN.
  rewrite (map_ext_in _
    (fun b => Fin (b_ssd b + b_count b *
                   (b_sum b / b_count b -
                    Rsum (map b_sum grp) / Rsum (map b_count grp)) ^ 2)%R)).
  - rewrite <- (map_map _ Fin), agg_sum_Fin. unfold chan_merge. cbn [b_ssd].
    f_equal. fold grp. apply Rsum_plus.
  - intros b Hb. unfold phi, tot. rewrite Hkok, !group_N, !agg_sum_Fin.
    fold grp. change (bucket_stat "sum") with b_sum.
    change (bucket_stat "count") with b_count.
    assert (Hb0 : (0 < b_count b)%R).
    { apply (Hpos v b Hv). eapply group_of_In; eauto. }
    rewrite !ndiv_Fin by lra. simpl. f_equal. ring.
Qed.

Lemma group_sum (s v : string) (k : list cell) :
  agg_sum (group_of rows (N s v) k) =
  Fin (Rsum (map (bucket_stat s) (group_of rows (B v) k))).
Proof. now rewrite group_N, agg_sum_Fin. Qed.

Lemma group_min (v : string) (k : list cell) :
  In v vs -> In k (group_keys rows) ->
  agg_min (group_of rows (N "min" v) k) =
  Fin (MinRlist (map b_min (group_of rows (B v) k))).
Proof.
  intros Hv Hk. rewrite group_N. pose proof (group_nonempty v k Hv Hk) as H.
  destruct (group_of rows (B v) k) as [| b grp]; [congruence |].
  cbn [map]. apply agg_min_Fin.
Qed.

Lemma group_max (v : string) (k : list cell) :
  In v vs -> In k (group_keys rows) ->
  agg_max (group_of rows (N "max" v) k) =
  Fin (MaxRlist (map b_max (group_of rows (B v) k))).
Proof.
  intros Hv Hk. rewrite group_N. pose proof (group_nonempty v k Hv Hk) as H.
  destruct (group_of rows (B v) k) as [| b grp]; [congruence |].
  cbn [map]. apply agg_max_Fin.
Qed.

Lemma vs_NoDup_cols : NoDup (flat_map (stat_cols lossless_stats) vs).
Proof.
  apply stat_cols_NoDup;
    [apply lossless_stats_NoDup | apply lossless_stats_no_dot | apply pd_unique_NoDup].
Qed.

Lemma coarsen_agg_flat :
  coarsen_agg df time_res time_col grouping_cols =
  Ok (merged_table lossless_stats keys rows vs B).
Proof.
  rewrite coarsen_agg_steps.
  destruct (setcols_cols d1 vs "sum_sq_diff" M eq_refl) as [d2 [Hset [Hi2 [Hc2 [Hl2 Ho2]]]]].
  { intros v Hv. unfold d1, columns, setcol. cbn [data].
    rewrite set_assoc_keys_present by (apply Hkeys, in_or_app; right; now left).
    apply Hstat; [assumption | simpl; tauto]. }
  rewrite Hset. cbn [bind].
  (* the key columns and the rows are those of the floored table *)
  assert (Hk2 : forall c, In c keys ->
            lookup c (data d2) =
            Some (if String.eqb c time_col
                  then map (fun t => Time (floor_time time_res t)) ts
                  else series d c)).
  { intros c Hc. rewrite Ho2; [now apply d1_keys |].
    unfold get_cols. intros Hin. apply in_map_iff in Hin as [v [<- Hv]].
    destruct (Hstat v "sum_sq_diff" Hv) as [_ [Hn _]]; [simpl; tauto | contradiction]. }
  rewrite (groupby_rows d2 keys _ Hk2). cbn [bind].
  assert (Hn2 : nrows d2 = nrows d1).
  { apply nrows_same_index; [assumption | rewrite Hi2; exact Hidx]. }
  rewrite Hn2, d1_rows.
  (* the dictionary of aggregations, variable by variable *)
  change [get_cols vs "count"; get_cols vs "sum"; get_cols vs "sum_sq_diff";
          get_cols vs "min"; get_cols vs "max"]
    with (map (get_cols vs) lossless_stats).
  rewrite chain_zipn_get_cols by discriminate.
  unfold get_cols at 1. rewrite length_map.
  rewrite dict_NoDup.
  2:{ rewrite fst_combine; [apply vs_NoDup_cols |].
      now rewrite stat_cols_flat_length, times_length. }
  rewrite spec_blocks.
  (* the stored columns *)
  assert (L2 : forall v s, In v vs -> In s lossless_stats ->
            lookup (v ++ "." ++ s) (data d2) =
            Some (map Num (if String.eqb s "sum_sq_diff" then M v else N s v))).
  { intros v s Hv Hs. destruct (String.eqb s "sum_sq_diff") eqn:E.
    - apply String.eqb_eq in E. subst s. now apply Hl2.
    - apply String.eqb_neq in E. rewrite Ho2; [now apply d1_stat |].
      unfold get_cols. intros Hin. apply in_map_iff in Hin as [w [Hw _]].
      apply stat_col_inj in Hw as [_ Hw]; [congruence | reflexivity |].
      now apply lossless_stats_no_dot. }
  unfold agg_dict. cbn [g_df g_by g_rows].
  set (G := mkGrouped d2 keys rows).
  rewrite (mapM_flat_map _ _
    (fun v => map (fun s => ((v ++ "." ++ s)%string,
                             map (fun k => Num (Fin (bucket_stat s
                                     (chan_merge (group_of rows (B v) k)))))
                                 (group_keys rows)))
                  lossless_stats)).
  - reflexivity.
  - intros v Hv. cbn [stat_cols lossless_stats map combine mapM fst snd].
    rewrite (getcol_lookup d2 _ _ (L2 v "count" Hv ltac:(simpl; tauto))),
            (getcol_lookup d2 _ _ (L2 v "sum" Hv ltac:(simpl; tauto))),
            (getcol_lookup d2 _ _ (L2 v "sum_sq_diff" Hv ltac:(simpl; tauto))),
            (getcol_lookup d2 _ _ (L2 v "min" Hv ltac:(simpl; tauto))),
            (getcol_lookup d2 _ _ (L2 v "max" Hv ltac:(simpl; tauto))).
    cbn [bind String.eqb Ascii.eqb Bool.eqb]. rewrite !numcol_Num. cbn [bind].
    unfold agg_col. cbn [g_rows G agg_apply].
    apply (f_equal Ok).
    repeat (apply (f_equal2 (@cons _));
            [apply (f_equal (pair _)); apply map_ext_in; intros k Hk;
             apply (f_equal Num) |]); [| | | | | reflexivity].
    + apply (group_sum "count").
    + apply (group_sum "sum").
    + now apply group_M.
    + now apply group_min.
    + now apply group_max.
Qed.

End CoarsenFlat.

(** ** Lossless tables, with the keys as columns or as index levels *)

Lemma lookup_combine_absent {V : Type} (c : string) (names : list string) (vals : list V) :
  ~ In c names -> lookup c (combine names vals) = None.
Proof.
  revert vals. induction names as [| n names IH]; intros [| v vals] H; simpl;
    try reflexivity.
  destruct (String.eqb n c) eqn:E.
  - apply String.eqb_eq in E. subst. elim H. now left.
  - apply IH. intros Hin. apply H. now right.
Qed.

Lemma lookup_level_named (c : string) (names : list string) (vals : list (list cell)) :
  lookup_level c (combine (map Some names) vals) = lookup c (combine names vals).
Proof.
  revert vals. induction names as [| n names IH]; intros [| v vals]; simpl;
    try reflexivity.
  destruct (String.eqb n c); [reflexivity | apply IH].
Qed.

Lemma index_as_combine (idx : list (option string * list cell)) :
  idx = combine (map fst idx) (map snd idx).
Proof.
  induction idx as [| [n v] idx IH]; simpl; [reflexivity | now rewrite <- IH].
Qed.

Lemma level_names_named (df : DataFrame) (names : list string) :
  map fst (index df) = map Some names -> level_names df = names.
Proof.
  intros H. unfold level_names.
  assert (G : forall (lv : list (option string * list cell)) (ns : list string) (i : nat),
            map fst lv = map Some ns ->
            map (fun p => match fst (snd p) with
                          | Some s => s
                          | None => ("level_" ++ nat_to_string (fst p))%string
                          end) (combine (seq i (length lv)) lv) = ns).
  { induction lv as [| [n v] lv IH]; intros [| m ns] i E; simpl in *; try discriminate;
      [reflexivity |].
    injection E as -> E. f_equal. now apply IH. }
  destruct (index df) as [| [[n |] l] lv] eqn:Ei.
  - destruct names; [reflexivity | discriminate].
  - apply (G _ names 0%nat H).
  - destruct names; discriminate.
Qed.

Lemma has_dup_NoDup (l : list string) : NoDup l -> has_dup l = false.
Proof.
  induction 1 as [| x l Hn _ IH]; simpl; [reflexivity |].
  apply mem_false in Hn. now rewrite Hn, IH.
Qed.

Lemma existsb_none {A : Type} (f : A -> bool) (l : list A) :
  (forall x, In x l -> f x = false) -> existsb f l = false.
Proof.
  induction l as [| a l IH]; simpl; intros H; [reflexivity |].
  rewrite (H a) by now left. apply IH. intros x Hx. apply H. now right.
Qed.

Lemma range_index_nrows (n : nat) (d : list (string * list cell)) :
  nrows (mkDF (range_index n) d) = n.
Proof. unfold nrows, range_index. simpl. now rewrite length_map, length_seq. Qed.

(** The first step of [coarsen_agg] and [finalize_agg] on a lossless table:
    it yields a table with the keys as columns and the same series. *)
Lemma lossless_normalize (df : DataFrame) (time_col : string)
  (grouping_cols : list string) :
  lossless df time_col grouping_cols ->
  exists d,
    (if absent_any (grouping_cols ++ [time_col]) df then reset_index df else Ok df)
      = Ok d /\
    index d <> [] /\
    nrows d = nrows df /\
    (forall c, In c (grouping_cols ++ [time_col]) -> In c (columns d)) /\
    (forall c, In c (columns df) -> In c (columns d)) /\
    (forall c, In c (grouping_cols ++ [time_col]) \/ In c (columns df) ->
               series d c = series df c) /\
    get_vars_from_flat_cols d (grouping_cols ++ [time_col]) =
    get_vars_from_flat_cols df (grouping_cols ++ [time_col]).
Proof.
  intros L. destruct (ll_shape _ _ _ L) as [Hflat | [Hidx Hnot]].
  - exists df. rewrite (proj2 (absent_any_false _ df) Hflat).
    repeat split; auto. apply (ll_index _ _ _ L).
  - assert (Habs : absent_any (grouping_cols ++ [time_col]) df = true).
    { apply absent_any_true. exists time_col. split.
      - apply in_or_app. right. now left.
      - apply Hnot. apply in_or_app. right. now left. }
    rewrite Habs. unfold reset_index.
    rewrite (level_names_named df _ Hidx).
    rewrite existsb_none, (has_dup_NoDup _ (ll_keys _ _ _ L)).
    2:{ intros c Hc. apply mem_false. now apply Hnot. }
    cbn [orb]. eexists. split; [reflexivity |].
    assert (Hlen : length (grouping_cols ++ [time_col]) = length (map snd (index df))).
    { rewrite length_map, <- (length_map fst), Hidx. now rewrite length_map. }
    assert (Hser : forall c, In c (grouping_cols ++ [time_col]) \/ In c (columns df) ->
              series (mkDF (range_index (nrows df))
                           (combine (grouping_cols ++ [time_col]) (map snd (index df))
                            ++ data df)) c = series df c).
    { intros c Hc. unfold series at 1. cbn [data index]. rewrite lookup_app.
      destruct (in_dec string_dec c (grouping_cols ++ [time_col])) as [Hk | Hk].
      - assert (Hnc : lookup c (data df) = None) by (apply lookup_None, Hnot, Hk).
        unfold series. rewrite Hnc.
        rewrite (index_as_combine (index df)) at 2. rewrite Hidx, lookup_level_named.
        destruct (lookup c (combine (grouping_cols ++ [time_col]) (map snd (index df))))
          eqn:E; [reflexivity |].
        apply lookup_None in E. rewrite fst_combine in E by assumption. contradiction.
      - rewrite lookup_combine_absent by assumption.
        destruct Hc as [Hc | Hc]; [contradiction |].
        unfold series. rewrite (series_lookup df c Hc). reflexivity. }
    split; [discriminate |].
    split; [apply range_index_nrows |].
    split.
    { intros c Hc. unfold columns. cbn [data]. rewrite map_app, fst_combine by assumption.
      apply in_or_app. now left. }
    split.
    { intros c Hc. unfold columns. cbn [data]. rewrite map_app. apply in_or_app. now right. }
    split; [exact Hser |].
    unfold get_vars_from_flat_cols, columns. cbn [data].
    rewrite map_app, fst_combine, filter_app by assumption.
    rewrite filter_none; [reflexivity |].
    intros c Hc. apply negb_false_iff, mem_In. assumption.
Qed.

Lemma to_bucket_cells (b : bucket) : to_bucket (bucket_cells b) = b.
Proof. now destruct b. Qed.

Lemma buckets_spec (df : DataFrame) (v : string) (bs : list bucket) :
  length bs = nrows df ->
  (forall s, In s lossless_stats ->
             series df (v ++ "." ++ s) = map (fun b => Num (Fin (bucket_stat s b))) bs) ->
  buckets df v = bs.
Proof.
  intros Hlen H. unfold buckets, table_rows, stat_cols. rewrite map_map.
  rewrite (map_ext_in _ (fun s => map (fun b => Num (Fin (bucket_stat s b))) bs)) by exact H.
  rewrite <- (map_map (fun s b => Num (Fin (bucket_stat s b))) (fun f => map f bs)).
  rewrite <- Hlen, rows_of_maps, map_map.
  etransitivity; [| apply map_id]. apply map_ext. intros b.
  rewrite map_map. apply to_bucket_cells.
Qed.

Lemma lossless_buckets (df : DataFrame) (time_col : string)
  (grouping_cols : list string) (v : string) :
  lossless df time_col grouping_cols ->
  In v (get_vars_from_flat_cols df (grouping_cols ++ [time_col])) ->
  length (buckets df v) = nrows df /\
  (forall b, In b (buckets df v) -> (0 < b_count b)%R) /\
  forall s, In s lossless_stats ->
    In (v ++ "." ++ s)%string (columns df) /\
    ~ In (v ++ "." ++ s)%string (grouping_cols ++ [time_col]) /\
    series df (v ++ "." ++ s) =
    map (fun b => Num (Fin (bucket_stat s b))) (buckets df v).
Proof.
  intros L Hv. destruct (ll_stats _ _ _ L v Hv) as [bs [Hpos Hs]].
  assert (Hlen : length bs = nrows df).
  { destruct (Hs "count") as [Hc [_ Hser]]; [simpl; tauto |].
    rewrite <- (ll_lengths _ _ _ L _ Hc), Hser. now rewrite length_map. }
  rewrite (buckets_spec df v bs Hlen) by (intros s Hin; now apply Hs).
  auto.
Qed.

(** A lossless table is coarsened into the table of the merged buckets. *)
Lemma coarsen_agg_lossless (df : DataFrame) (time_res : Z) (time_col : string)
  (grouping_cols : list string) :
  lossless df time_col grouping_cols -> (0 < time_res)%Z ->
  coarsen_agg df time_res time_col grouping_cols =
  Ok (merged_table lossless_stats (grouping_cols ++ [time_col])
        (map (coarse_key time_res) (table_rows df (grouping_cols ++ [time_col])))
        (get_vars_from_flat_cols df (grouping_cols ++ [time_col]))
        (buckets df)).
Proof.
  intros L Hres.
  destruct (lossless_normalize df time_col grouping_cols L)
    as [d [Hnorm [Hidx [Hn [Hk [Hc [Hser Hvars]]]]]]].
  destruct (ll_time _ _ _ L) as [ts Hts].
  assert (Hrows : table_rows d (grouping_cols ++ [time_col]) =
                  table_rows df (grouping_cols ++ [time_col])).
  { unfold table_rows. rewrite Hn. f_equal. apply map_ext_in.
    intros c Hin. apply Hser. now left. }
  rewrite <- Hrows.
  apply (coarsen_agg_flat df d time_res time_col grouping_cols ts (buckets df));
    try assumption.
  - pose proof (ll_keys _ _ _ L) as Hnd. apply NoDup_remove_2 in Hnd.
    rewrite app_nil_r in Hnd. exact Hnd.
  - intros c Hin. split; [now apply Hk |]. rewrite Hser by now left. rewrite Hn.
    destruct (ll_shape _ _ _ L) as [Hflat | [Hi Hnot]].
    + apply (ll_lengths _ _ _ L). now apply Hflat.
    + (* an index level *)
      unfold series. rewrite (proj2 (lookup_None c (data df)) (Hnot c Hin)).
      pose proof (ll_levels _ _ _ L) as Hlv.
      assert (G : forall idx, Forall (fun l => length (snd l) = nrows df) idx ->
                forall col, lookup_level c idx = Some col -> length col = nrows df).
      { induction 1 as [| [[n |] l] idx Hl _ IH]; simpl; intros col Hcol;
          [discriminate | | now apply IH].
        destruct (String.eqb n c); [now injection Hcol as <- | now apply IH]. }
      destruct (lookup_level c (index df)) as [col |] eqn:E; [now apply (G _ Hlv) |].
      exfalso. rewrite (index_as_combine (index df)), Hi, lookup_level_named in E.
      apply lookup_None in E. rewrite fst_combine in E; [contradiction |].
      rewrite length_map, <- (length_map fst (index df)), Hi. now rewrite length_map.
  - rewrite Hser; [exact Hts | left; apply in_or_app; right; now left].
  - intros v s Hv Hs.
    destruct (lossless_buckets df time_col grouping_cols v L Hv) as [_ [_ H]].
    destruct (H s Hs) as [H1 [H2 H3]]. repeat split; auto.
    rewrite Hser by now right. exact H3.
  - intros v Hv. rewrite Hn.
    apply (lossless_buckets df time_col grouping_cols v L Hv).
  - intros v b Hv. apply (lossless_buckets df time_col grouping_cols v L Hv).
Qed.

(** ** Reading the table of merged buckets *)

Lemma rows_of_row_length (n : nat) (cols : list (list cell)) (r : list cell) :
  In r (rows_of n cols) -> length r = length cols.
Proof.
  revert r. induction cols as [| c cols IH]; simpl; intros r Hr.
  - apply repeat_spec in Hr. now subst.
  - unfold zipWith in Hr. apply in_map_iff in Hr as [[x k] [<- Hp]].
    apply in_combine_r in Hp. simpl. f_equal. now apply IH.
Qed.

Lemma coarse_key_length (time_res : Z) (k : list cell) :
  k <> [] -> length (coarse_key time_res k) = length k.
Proof.
  intros H. unfold coarse_key. rewrite length_app. simpl.
  destruct (exists_last H) as [k' [x ->]]. rewrite removelast_last, length_app.
  reflexivity.
Qed.

Lemma map_nth_seq (k : list cell) (d : cell) :
  map (fun j => nth j k d) (seq 0 (length k)) = k.
Proof.
  induction k as [| x k IH]; simpl; [reflexivity |]. f_equal.
  rewrite <- seq_shift, map_map. exact IH.
Qed.

Lemma rows_of_cols_of (w : nat) (keys : list (list cell)) :
  (forall k, In k keys -> length k = w) ->
  rows_of (length keys) (cols_of w keys) = keys.
Proof.
  intros H. unfold cols_of.
  rewrite <- (map_map (fun j k => nth j k (Num NaN)) (fun f => map f keys)).
  rewrite rows_of_maps. etransitivity; [| apply map_id]. apply map_ext_in.
  intros k Hk. rewrite map_map. rewrite <- (H k Hk). apply map_nth_seq.
Qed.

Lemma lookup_combine_all {V : Type} (names : list string) (vals : list V) (d : V) :
  NoDup names -> length names = length vals ->
  map (fun c => match lookup c (combine names vals) with
                | Some x => x
                | None => d
                end) names = vals.
Proof.
  intros Hnd. revert vals. induction Hnd as [| n names Hn Hnd IH]; intros [| v vals] Hlen;
    simpl in *; try discriminate; [reflexivity |].
  rewrite String.eqb_refl. f_equal.
  etransitivity; [| apply (IH vals); lia]. apply map_ext_in. intros c Hc.
  destruct (String.eqb n c) eqn:E; [| reflexivity].
  apply String.eqb_eq in E. subst. contradiction.
Qed.

Lemma stat_blocks_names {V : Type} (stats l : list string)
  (F : string -> string -> V) :
  map fst (flat_map (fun v => map (fun s => ((v ++ "." ++ s)%string, F v s)) stats) l) =
  flat_map (stat_cols stats) l.
Proof.
  induction l as [| v l IH]; [reflexivity |].
  cbn [flat_map]. rewrite map_app, IH. f_equal.
  unfold stat_cols. now rewrite map_map.
Qed.

Section MergedTable.

Variables (stats keys : list string) (rows : list (list cell)) (vs : list string)
          (B : string -> list bucket).

Hypothesis Hstats : forall s, In s lossless_stats -> In s stats.
Hypothesis Hdot : forall s, In s stats -> has_dot s = false.

Hypothesis Hkeys : NoDup keys.
Hypothesis Hne : keys <> [].
Hypothesis Hwidth : forall k, In k rows -> length k = length keys.
Hypothesis Hfresh :
  forall v s, In v vs -> In s stats -> ~ In (v ++ "." ++ s)%string keys.

Local Abbreviation mt := (merged_table stats keys rows vs B).

Lemma merged_columns : columns mt = flat_map (stat_cols stats) vs.
Proof.
  unfold columns, merged_table. cbn [data]. apply stat_blocks_names.
Qed.

Lemma merged_nrows : nrows mt = length (group_keys rows).
Proof.
  unfold nrows, merged_table, cols_of. cbn [index].
  destruct keys as [| k0 ks]; [congruence |]. cbn [map length seq combine].
  now rewrite length_map.
Qed.

Lemma merged_index_names : map fst (index mt) = map Some keys.
Proof.
  unfold merged_table. cbn [index]. apply fst_combine.
  now rewrite length_map, cols_of_length.
Qed.

Lemma merged_key_absent (c : string) : In c keys -> ~ In c (columns mt).
Proof.
  intros Hc Hin. rewrite merged_columns in Hin.
  apply in_flat_map in Hin as [v [Hv Hin]].
  apply stat_cols_In in Hin as [s [Hs ->]]. now apply (Hfresh v s).
Qed.

Lemma merged_key_series :
  map (series mt) keys = cols_of (length keys) (group_keys rows).
Proof.
  rewrite <- (lookup_combine_all keys (cols_of (length keys) (group_keys rows)) [] Hkeys)
    by now rewrite cols_of_length.
  apply map_ext_in. intros c Hc. unfold series.
  rewrite (proj2 (lookup_None c (data mt)) (merged_key_absent c Hc)).
  unfold merged_table. cbn [index]. now rewrite lookup_level_named.
Qed.

Lemma group_keys_width (k : list cell) :
  In k (group_keys rows) -> length k = length keys.
Proof. intros H. apply group_keys_In in H as [H _]. now apply Hwidth. Qed.

Lemma merged_table_rows : table_rows mt keys = group_keys rows.
Proof.
  unfold table_rows. rewrite merged_nrows, merged_key_series.
  apply rows_of_cols_of. exact group_keys_width.
Qed.

Lemma merged_stat_series (v s : string) :
  In v vs -> In s lossless_stats ->
  series mt (v ++ "." ++ s) =
  map (fun k => Num (Fin (bucket_stat s (chan_merge (group_of rows (B v) k)))))
      (group_keys rows).
Proof.
  intros Hv Hs. apply series_of_lookup. unfold merged_table. cbn [data].
  apply (lookup_stat_blocks stats vs
           (fun v s => map (fun k => Num (Fin (bucket_stat s
                              (chan_merge (group_of rows (B v) k)))))
                           (group_keys rows)));
    [exact Hdot | assumption | now apply Hstats].
Qed.

Lemma merged_stat_rows (v : string) :
  In v vs ->
  table_rows mt (stat_cols lossless_stats v) =
  map (fun k => bucket_cells (chan_merge (group_of rows (B v) k))) (group_keys rows).
Proof.
  intros Hv. unfold table_rows, stat_cols. rewrite merged_nrows, map_map.
  rewrite (map_ext_in _
    (fun s => map (fun k => Num (Fin (bucket_stat s (chan_merge (group_of rows (B v) k)))))
                  (group_keys rows))) by (intros s Hs; now apply merged_stat_series).
  rewrite <- (map_map (fun s k => Num (Fin (bucket_stat s (chan_merge (group_of rows (B v) k)))))
                      (fun f => map f (group_keys rows))).
  rewrite rows_of_maps. apply map_ext. intros k. now rewrite map_map.
Qed.

(** The merged table has one row per key, holding the merged bucket. *)
Lemma merged_rows_at (v : string) (k : list cell) :
  In v vs -> In k (group_keys rows) ->
  rows_at mt keys k (stat_cols lossless_stats v) =
  [bucket_cells (chan_merge (group_of rows (B v) k))].
Proof.
  intros Hv Hk. unfold rows_at. rewrite merged_table_rows, (merged_stat_rows v Hv).
  apply (group_of_unique (group_keys rows)
           (fun k => bucket_cells (chan_merge (group_of rows (B v) k))));
    [apply group_keys_NoDup | assumption].
Qed.

End MergedTable.

Lemma table_rows_width (df : DataFrame) (names : list string) (k : list cell) :
  In k (table_rows df names) -> length k = length names.
Proof.
  intros H. apply rows_of_row_length in H. now rewrite length_map in H.
Qed.

Lemma coarse_rows_width (df : DataFrame) (time_res : Z) (time_col : string)
  (grouping_cols : list string) (k : list cell) :
  In k (map (coarse_key time_res) (table_rows df (grouping_cols ++ [time_col]))) ->
  length k = length (grouping_cols ++ [time_col]).
Proof.
  intros H. apply in_map_iff in H as [k0 [<- H0]].
  apply table_rows_width in H0. rewrite coarse_key_length; [assumption |].
  intros ->. rewrite length_app in H0. simpl in H0. lia.
Qed.

Lemma keys_nonempty (time_col : string) (grouping_cols : list string) :
  grouping_cols ++ [time_col] <> [].
Proof. destruct grouping_cols; discriminate. Qed.

Lemma lossless_fresh (df : DataFrame) (time_col : string) (grouping_cols : list string) :
  lossless df time_col grouping_cols ->
  forall v s, In v (get_vars_from_flat_cols df (grouping_cols ++ [time_col])) ->
              In s lossless_stats ->
              ~ In (v ++ "." ++ s)%string (grouping_cols ++ [time_col]).
Proof.
  intros L v s Hv Hs.
  destruct (lossless_buckets df time_col grouping_cols v L Hv) as [_ [_ H]].
  now apply H.
Qed.

Ltac merged_side L :=
  first [ assumption
        | apply lossless_stats_no_dot
        | apply (ll_keys _ _ _ L)
        | apply keys_nonempty
        | apply coarse_rows_width
        | now apply lossless_fresh
        | now auto ].

(** Under exact arithmetic, on a lossless table held in one partition,
    [coarsen_agg] returns one row per coarse bucket, and for every variable
    that row holds the merge of the fine buckets that fall into it: counts
    and sums added, the minimum of the minima, the maximum of the maxima, and
    the sums of squared differences added together with the correction
    [count_i * (mean_i - coarse_mean)^2] of every fine bucket. *)
Lemma coarsen_agg_merges (df : DataFrame) (time_res : Z) (time_col : string)
  (grouping_cols : list string) :
  lossless df time_col grouping_cols -> (0 < time_res)%Z ->
  exists out,
    coarsen_agg df time_res time_col grouping_cols = Ok out /\
    table_rows out (grouping_cols ++ [time_col]) =
      group_keys (map (coarse_key time_res)
                      (table_rows df (grouping_cols ++ [time_col]))) /\
    forall v k,
      In v (get_vars_from_flat_cols df (grouping_cols ++ [time_col])) ->
      In k (group_keys (map (coarse_key time_res)
                            (table_rows df (grouping_cols ++ [time_col])))) ->
      rows_at out (grouping_cols ++ [time_col]) k (stat_cols lossless_stats v) =
      [bucket_cells
         (chan_merge
            (group_of (map (coarse_key time_res)
                           (table_rows df (grouping_cols ++ [time_col])))
                      (buckets df v) k))].
Proof.
  intros L Hres. eexists. split; [now apply coarsen_agg_lossless |].
  split.
  - apply merged_table_rows; merged_side L.
  - intros v k Hv Hk. apply merged_rows_at; merged_side L.
Qed.

(** ** The sorted list of group keys is determined by the set of keys *)

Lemma string_leb_trans (a b c : string) :
  String.leb a b = true -> String.leb b c = true -> String.leb a c = true.
Proof.
  unfold String.leb.
  destruct (String.compare a b) eqn:Eab; try discriminate; intros _;
    destruct (String.compare b c) eqn:Ebc; try discriminate; intros _.
  - apply OrderedTypeEx.String_as_OT.cmp_eq in Eab, Ebc. subst.
    pose proof (proj2 (OrderedTypeEx.String_as_OT.cmp_eq c c) eq_refl) as H.
    unfold OrderedTypeEx.String_as_OT.cmp in H. now rewrite H.
  - apply OrderedTypeEx.String_as_OT.cmp_eq in Eab. subst. now rewrite Ebc.
  - apply OrderedTypeEx.String_as_OT.cmp_eq in Ebc. subst. now rewrite Eab.
  - apply OrderedTypeEx.String_as_OT.cmp_lt in Eab, Ebc.
    pose proof (OrderedTypeEx.String_as_OT.lt_trans _ _ _ Eab Ebc) as H.
    apply OrderedTypeEx.String_as_OT.cmp_lt in H.
    unfold OrderedTypeEx.String_as_OT.cmp in H. now rewrite H.
Qed.

Ltac order_reals :=
  repeat match goal with
         | |- context [Rle_dec ?x ?y] => destruct (Rle_dec x y)
         | H : context [Rle_dec ?x ?y] |- _ => destruct (Rle_dec x y)
         end;
  try reflexivity; try discriminate; try (f_equal; lra); try (exfalso; lra);
  try (left; reflexivity); try (right; reflexivity).

Lemma num_leb_total (a b : num) : num_leb a b = true \/ num_leb b a = true.
Proof. destruct a, b; simpl; auto; order_reals. Qed.

Lemma num_leb_antisym (a b : num) :
  num_leb a b = true -> num_leb b a = true -> a = b.
Proof. destruct a, b; simpl; intros H1 H2; order_reals. Qed.

Lemma num_leb_trans (a b c : num) :
  num_leb a b = true -> num_leb b c = true -> num_leb a c = true.
Proof. destruct a, b, c; simpl; intros H1 H2; order_reals. Qed.

Lemma cell_leb_total (a b : cell) : cell_leb a b = true \/ cell_leb b a = true.
Proof.
  destruct a, b; simpl; auto.
  - apply String.leb_total.
  - destruct (Z.leb_spec t t0); [auto | right; apply Z.leb_le; lia].
  - apply num_leb_total.
Qed.

Lemma cell_leb_antisym (a b : cell) :
  cell_leb a b = true -> cell_leb b a = true -> a = b.
Proof.
  destruct a, b; simpl; intros H1 H2; try discriminate.
  - f_equal. now apply String.leb_antisym.
  - f_equal. apply Z.leb_le in H1, H2. lia.
  - f_equal. now apply num_leb_antisym.
Qed.

Lemma cell_leb_trans (a b c : cell) :
  cell_leb a b = true -> cell_leb b c = true -> cell_leb a c = true.
Proof.
  destruct a, b, c; simpl; intros H1 H2; try discriminate; try reflexivity.
  - eapply string_leb_trans; eauto.
  - apply Z.leb_le in H1, H2. apply Z.leb_le. lia.
  - eapply num_leb_trans; eauto.
Qed.

Lemma cell_eqb_refl (a : cell) : cell_eqb a a = true.
Proof. now apply cell_eqb_eq. Qed.

Lemma key_leb_total (k1 k2 : list cell) : key_leb k1 k2 = true \/ key_leb k2 k1 = true.
Proof.
  revert k2. induction k1 as [| a k1 IH]; intros [| b k2]; simpl; auto.
  destruct (cell_eqb a b) eqn:E.
  - apply cell_eqb_eq in E. subst. rewrite cell_eqb_refl. apply IH.
  - destruct (cell_eqb b a) eqn:E'.
    + apply cell_eqb_eq in E'. subst. rewrite cell_eqb_refl in E. discriminate.
    + apply cell_leb_total.
Qed.

Lemma key_leb_antisym (k1 k2 : list cell) :
  key_leb k1 k2 = true -> key_leb k2 k1 = true -> k1 = k2.
Proof.
  revert k2. induction k1 as [| a k1 IH]; intros [| b k2]; simpl; try discriminate;
    [reflexivity |].
  destruct (cell_eqb a b) eqn:E.
  - apply cell_eqb_eq in E. subst. rewrite cell_eqb_refl. intros H1 H2.
    f_equal. now apply IH.
  - destruct (cell_eqb b a) eqn:E'.
    + apply cell_eqb_eq in E'. subst. rewrite cell_eqb_refl in E. discriminate.
    + intros H1 H2. pose proof (cell_leb_antisym a b H1 H2) as ->.
      rewrite cell_eqb_refl in E. discriminate.
Qed.

Lemma key_leb_trans (k1 k2 k3 : list cell) :
  key_leb k1 k2 = true -> key_leb k2 k3 = true -> key_leb k1 k3 = true.
Proof.
  revert k2 k3. induction k1 as [| a k1 IH]; intros [| b k2] [| c k3]; simpl;
    try discriminate; try reflexivity.
  destruct (cell_eqb a b) eqn:Eab.
  - apply cell_eqb_eq in Eab. subst b. destruct (cell_eqb a c) eqn:Eac.
    + apply IH.
    + intros _ H. exact H.
  - destruct (cell_eqb b c) eqn:Ebc.
    + apply cell_eqb_eq in Ebc. subst c. rewrite Eab. intros H _. exact H.
    + intros H1 H2. destruct (cell_eqb a c) eqn:Eac.
      * apply cell_eqb_eq in Eac. subst c.
        pose proof (cell_leb_antisym a b H1 H2) as ->.
        rewrite cell_eqb_refl in Eab. discriminate.
      * eapply cell_leb_trans; eauto.
Qed.

Lemma insert_key_sorted (k : list cell) (l : list (list cell)) :
  StronglySorted (fun a b => key_leb a b = true) l ->
  StronglySorted (fun a b => key_leb a b = true) (insert_key k l).
Proof.
  induction 1 as [| h t Ht IH Hh]; simpl.
  - repeat constructor.
  - destruct (key_leb k h) eqn:E.
    + constructor; [now constructor |]. constructor; [assumption |].
      eapply Forall_impl; [| exact Hh]. intros x Hx. eapply key_leb_trans; eauto.
    + constructor; [assumption |].
      apply (Permutation_Forall (Permutation_sym (insert_key_perm k t))).
      constructor; [| assumption].
      destruct (key_leb_total k h) as [H | H]; [congruence | assumption].
Qed.

Lemma sort_keys_sorted (l : list (list cell)) :
  StronglySorted (fun a b => key_leb a b = true) (sort_keys l).
Proof.
  induction l as [| k l IH]; simpl; [constructor | now apply insert_key_sorted].
Qed.

Lemma sorted_perm_eq (l1 l2 : list (list cell)) :
  StronglySorted (fun a b => key_leb a b = true) l1 ->
  StronglySorted (fun a b => key_leb a b = true) l2 ->
  Permutation l1 l2 -> l1 = l2.
Proof.
  intros H1. revert l2. induction H1 as [| a l1 Hs1 IH Ha]; intros l2 H2 Hp.
  - apply Permutation_nil in Hp. now subst.
  - destruct H2 as [| b l2 Hs2 Hb].
    + apply Permutation_sym, Permutation_nil in Hp. discriminate.
    + assert (Hab : a = b).
      { assert (Hin1 : In a (b :: l2)) by (eapply Permutation_in; [exact Hp | now left]).
        assert (Hin2 : In b (a :: l1))
          by (eapply Permutation_in; [exact (Permutation_sym Hp) | now left]).
        destruct Hin1 as [-> | Hin1]; [reflexivity |].
        destruct Hin2 as [-> | Hin2]; [reflexivity |].
        rewrite Forall_forall in Ha, Hb.
        apply key_leb_antisym; [apply Ha | apply Hb]; assumption. }
      subst b. f_equal. apply IH; [assumption |].
      eapply Permutation_cons_inv; eauto.
Qed.

(** Two lists of rows with the same valid keys have the same group keys. *)
Lemma group_keys_ext (rows1 rows2 : list (list cell)) :
  (forall k, key_ok k = true -> (In k rows1 <-> In k rows2)) ->
  group_keys rows1 = group_keys rows2.
Proof.
  intros H. apply sorted_perm_eq; try apply sort_keys_sorted.
  unfold group_keys. rewrite !sort_keys_perm.
  apply NoDup_Permutation; try apply distinct_NoDup.
  intros k. rewrite !distinct_In, !filter_In. split; intros [Hin Hok]; split;
    try assumption; now apply (H k Hok).
Qed.

(** ** The table of merged buckets is a lossless table *)

Lemma nth_last_width {A : Type} (k : list A) (d : A) (n : nat) :
  length k = S n -> nth n k d = last k d.
Proof.
  intros H. assert (Hne : k <> []) by (intros ->; discriminate).
  destruct (exists_last Hne) as [k' [x ->]]. rewrite last_last.
  rewrite length_app in H. simpl in H.
  rewrite app_nth2 by lia. replace (n - length k')%nat with 0%nat by lia. reflexivity.
Qed.

Lemma chan_merge_count_pos (bs : list bucket) :
  bs <> [] -> (forall b, In b bs -> (0 < b_count b)%R) ->
  (0 < b_count (chan_merge bs))%R.
Proof.
  intros Hne Hpos. unfold chan_merge. cbn [b_count]. apply Rsum_pos.
  - destruct bs; [congruence | discriminate].
  - intros x Hx. apply in_map_iff in Hx as [b [<- Hb]]. now apply Hpos.
Qed.

Section MergedLossless.

Variables (stats : list string) (time_col : string) (grouping_cols : list string)
          (rows : list (list cell)) (vs : list string) (B : string -> list bucket).

Local Abbreviation keys := (grouping_cols ++ [time_col]).
Local Abbreviation mt := (merged_table stats keys rows vs B).

Hypothesis Hstats : forall s, In s lossless_stats -> In s stats.
Hypothesis Hdot : forall s, In s stats -> has_dot s = false.
Hypothesis Hnd : NoDup stats.
Hypothesis Hkeys : NoDup keys.
Hypothesis Hvs : NoDup vs.
Hypothesis Hwidth : forall k, In k rows -> length k = length keys.
Hypothesis Htimed : forall k, In k rows -> exists t, last k (Num NaN) = Time t.
Hypothesis Hfresh :
  forall v s, In v vs -> In s stats -> ~ In (v ++ "." ++ s)%string keys.
Hypothesis Hlen : forall v, In v vs -> length (B v) = length rows.
Hypothesis Hpos : forall v b, In v vs -> In b (B v) -> (0 < b_count b)%R.

Lemma merged_vars : get_vars_from_flat_cols mt keys = vs.
Proof.
  unfold merged_table. apply (get_vars_layout _ _ keys stats vs); try assumption.
  - intros ->. destruct (Hstats "count"). simpl. tauto.
  - intros c Hc. apply in_flat_map in Hc as [v [Hv Hc]].
    apply stat_cols_In in Hc as [s [Hs ->]]. now apply Hfresh.
  - apply stat_blocks_names.
Qed.

Lemma merged_time_series :
  series mt time_col =
  map (fun k => Time (match last k (Num NaN) with Time t => t | _ => 0%Z end))
      (group_keys rows).
Proof.
  assert (H : map (series mt) keys = cols_of (length keys) (group_keys rows))
    by (apply merged_key_series; assumption).
  rewrite map_app in H. cbn [map] in H. unfold cols_of in H.
  rewrite length_app in H. cbn [length] in H.
  rewrite Nat.add_1_r, seq_S, map_app in H. cbn [map Nat.add] in H.
  apply app_inj_tail in H as [_ H]. rewrite H.
  apply map_ext_in. intros k Hk.
  assert (Hin : In k rows) by now apply group_keys_In in Hk.
  rewrite (nth_last_width k (Num NaN) (length grouping_cols)).
  - destruct (Htimed k Hin) as [t ->]. reflexivity.
  - rewrite (Hwidth k Hin), length_app. simpl. lia.
Qed.

Lemma merged_buckets_series (v s : string) :
  In v vs -> In s lossless_stats ->
  series mt (v ++ "." ++ s) =
  map (fun b => Num (Fin (bucket_stat s b)))
      (map (fun k => chan_merge (group_of rows (B v) k)) (group_keys rows)).
Proof.
  intros Hv Hs. rewrite map_map. apply merged_stat_series; assumption.
Qed.

Lemma merged_table_lossless : lossless mt time_col grouping_cols.
Proof.
  assert (Hne : keys <> []) by apply keys_nonempty.
  assert (Hrows : nrows mt = length (group_keys rows))
    by (apply merged_nrows; first [assumption | apply keys_nonempty]).
  constructor.
  - unfold merged_table, cols_of. cbn [index].
    destruct grouping_cols; discriminate.
  - exact Hkeys.
  - right. split.
    + apply merged_index_names.
    + intros c Hc. apply merged_key_absent; assumption.
  - rewrite merged_columns. now apply stat_cols_NoDup.
  - rewrite Hrows.
    unfold merged_table. cbn [index]. apply Forall_forall. intros [n l] Hl.
    apply in_combine_r in Hl. unfold cols_of in Hl.
    apply in_map_iff in Hl as [j [<- _]]. cbn [snd]. now rewrite length_map.
  - intros c Hc. rewrite merged_columns in Hc.
    apply in_flat_map in Hc as [v [Hv Hc]]. apply stat_cols_In in Hc as [s [Hs ->]].
    rewrite Hrows.
    unfold series, merged_table. cbn [data].
    rewrite (lookup_stat_blocks stats vs
               (fun v s => map (fun k => Num (Fin (bucket_stat s
                                  (chan_merge (group_of rows (B v) k)))))
                               (group_keys rows)) v s Hdot Hv Hs).
    now rewrite length_map.
  - eexists. rewrite merged_time_series. rewrite <- map_map. reflexivity.
  - intros v Hv. rewrite merged_vars in Hv.
    exists (map (fun k => chan_merge (group_of rows (B v) k)) (group_keys rows)).
    split.
    + intros b Hb. apply in_map_iff in Hb as [k [<- Hk]].
      apply chan_merge_count_pos.
      * apply group_of_nonempty; [now apply Hlen | now apply group_keys_In in Hk].
      * intros b Hb. apply (Hpos v b Hv). eapply group_of_In; eauto.
    + intros s Hs. split; [| split].
      * rewrite merged_columns. apply in_flat_map. exists v. split; [assumption |].
        apply stat_cols_In. exists s. auto.
      * apply Hfresh; auto.
      * now apply merged_buckets_series.
Qed.

Lemma merged_buckets (v : string) :
  In v vs ->
  buckets mt v = map (fun k => chan_merge (group_of rows (B v) k)) (group_keys rows).
Proof.
  intros Hv. apply buckets_spec.
  - rewrite length_map. symmetry.
    apply merged_nrows; first [assumption | apply keys_nonempty].
  - intros s Hs. now apply merged_buckets_series.
Qed.

End MergedLossless.

Lemma lossless_key_length (df : DataFrame) (time_col : string)
  (grouping_cols : list string) (c : string) :
  lossless df time_col grouping_cols -> In c (grouping_cols ++ [time_col]) ->
  length (series df c) = nrows df.
Proof.
  intros L Hin. destruct (ll_shape _ _ _ L) as [Hflat | [Hi Hnot]].
  - apply (ll_lengths _ _ _ L). now apply Hflat.
  - unfold series. rewrite (proj2 (lookup_None c (data df)) (Hnot c Hin)).
    pose proof (ll_levels _ _ _ L) as Hlv.
    assert (G : forall idx, Forall (fun l => length (snd l) = nrows df) idx ->
              forall col, lookup_level c idx = Some col -> length col = nrows df).
    { induction 1 as [| [[n |] l] idx Hl _ IH]; simpl; intros col Hcol;
        [discriminate | | now apply IH].
      destruct (String.eqb n c); [now injection Hcol as <- | now apply IH]. }
    destruct (lookup_level c (index df)) as [col |] eqn:E; [now apply (G _ Hlv) |].
    exfalso. rewrite (index_as_combine (index df)), Hi, lookup_level_named in E.
    apply lookup_None in E. rewrite fst_combine in E; [contradiction |].
    rewrite length_map, <- (length_map fst (index df)), Hi. now rewrite length_map.
Qed.

Lemma lossless_rows_length (df : DataFrame) (time_col : string)
  (grouping_cols : list string) :
  lossless df time_col grouping_cols ->
  length (table_rows df (grouping_cols ++ [time_col])) = nrows df.
Proof.
  intros L. unfold table_rows. apply rows_of_length. apply Forall_forall.
  intros c Hc. apply in_map_iff in Hc as [name [<- Hn]].
  now apply (lossless_key_length df time_col grouping_cols).
Qed.

Lemma rows_of_timed (n : nat) (gcs : list (list cell)) (ts : list Z) (k : list cell) :
  In k (rows_of n (gcs ++ [map Time ts])) -> exists t, last k (Num NaN) = Time t.
Proof.
  revert k. induction gcs as [| c gcs IH]; intros k Hk.
  - simpl in Hk. unfold zipWith in Hk. apply in_map_iff in Hk as [[x r] [<- Hp]].
    pose proof (in_combine_l _ _ _ _ Hp) as Hx. pose proof (in_combine_r _ _ _ _ Hp) as Hr.
    apply repeat_spec in Hr. subst r. apply in_map_iff in Hx as [t [<- _]].
    exists t. reflexivity.
  - simpl in Hk. unfold zipWith in Hk. apply in_map_iff in Hk as [[x r] [<- Hp]].
    apply in_combine_r in Hp. destruct (IH r Hp) as [t Ht]. exists t.
    cbn [fst snd]. destruct r as [| y r]; [| exact Ht].
    apply rows_of_row_length in Hp. rewrite length_app in Hp. simpl in Hp. lia.
Qed.

Lemma coarse_key_timed (time_res : Z) (k : list cell) :
  (exists t, last k (Num NaN) = Time t) ->
  exists t, last (coarse_key time_res k) (Num NaN) = Time t.
Proof.
  intros [t Ht]. unfold coarse_key. rewrite Ht, last_last. eauto.
Qed.

Lemma lossless_rows_timed (df : DataFrame) (time_res : Z) (time_col : string)
  (grouping_cols : list string) (k : list cell) :
  lossless df time_col grouping_cols ->
  In k (map (coarse_key time_res) (table_rows df (grouping_cols ++ [time_col]))) ->
  exists t, last k (Num NaN) = Time t.
Proof.
  intros L Hk. apply in_map_iff in Hk as [k0 [<- Hk0]]. apply coarse_key_timed.
  unfold table_rows in Hk0. rewrite map_app in Hk0. cbn [map] in Hk0.
  destruct (ll_time _ _ _ L) as [ts Hts]. rewrite Hts in Hk0.
  eapply rows_of_timed; eauto.
Qed.

(** What [coarsen_agg] returns on a lossless table is a lossless table,
    with the same variables, one row per coarse key and the merged buckets. *)
Lemma coarsened_lossless (df : DataFrame) (time_res : Z) (time_col : string)
  (grouping_cols : list string) :
  lossless df time_col grouping_cols ->
  let keys := grouping_cols ++ [time_col] in
  let rows := map (coarse_key time_res) (table_rows df keys) in
  let vs := get_vars_from_flat_cols df keys in
  let out := merged_table lossless_stats keys rows vs (buckets df) in
  lossless out time_col grouping_cols /\
  get_vars_from_flat_cols out keys = vs /\
  table_rows out keys = group_keys rows /\
  forall v, In v vs ->
    buckets out v =
    map (fun k => chan_merge (group_of rows (buckets df v) k)) (group_keys rows).
Proof.
  intros L keys rows vs out.
  assert (Hnd : NoDup vs) by apply pd_unique_NoDup.
  assert (Hlen : forall v, In v vs -> length (buckets df v) = length rows).
  { intros v Hv. unfold rows, keys. rewrite length_map.
    rewrite (lossless_rows_length df time_col grouping_cols L).
    apply (lossless_buckets df time_col grouping_cols v L Hv). }
  assert (Hpos : forall v b, In v vs -> In b (buckets df v) -> (0 < b_count b)%R).
  { intros v b Hv. apply (lossless_buckets df time_col grouping_cols v L Hv). }
  split; [| split; [| split]].
  - apply merged_table_lossless; try assumption; try merged_side L.
    + apply lossless_stats_NoDup.
    + intros k Hk. eapply lossless_rows_timed; eauto.
  - apply merged_vars; try assumption; try merged_side L.
    apply lossless_stats_NoDup.
  - apply merged_table_rows; merged_side L.
  - intros v Hv. apply merged_buckets; try assumption; try merged_side L.
Qed.

(** ** The algebra of merging buckets *)

Lemma Rsum_cons (x : R) (l : list R) : Rsum (x :: l) = (x + Rsum l)%R.
Proof. reflexivity. Qed.

Lemma Rsum_scal {A : Type} (c : R) (f : A -> R) (l : list A) :
  Rsum (map (fun a => c * f a)%R l) = (c * Rsum (map f l))%R.
Proof. induction l as [| a l IH]; simpl; [lra | rewrite IH; lra]. Qed.

Lemma Rsum_ext_in {A : Type} (f g : A -> R) (l : list A) :
  (forall a, In a l -> f a = g a) -> Rsum (map f l) = Rsum (map g l).
Proof. intros H. f_equal. now apply map_ext_in. Qed.

(** The weighted squared deviations from any centre [c] *)
Lemma deviations_expand (l : list bucket) (c : R) :
  (forall b, In b l -> (0 < b_count b)%R) ->
  Rsum (map (fun b => b_count b * (b_sum b / b_count b - c) ^ 2)%R l) =
  (Rsum (map (fun b => b_sum b ^ 2 / b_count b) l)
   - 2 * c * Rsum (map b_sum l) + c ^ 2 * Rsum (map b_count l))%R.
Proof.
  induction l as [| b l IH]; intros H; [simpl; lra |].
  rewrite !map_cons, !Rsum_cons.
  rewrite IH by (intros; apply H; now right).
  assert (Hb : (0 < b_count b)%R) by (apply H; now left).
  field. lra.
Qed.

(** The merged sum of squared differences in closed form *)
Lemma chan_merge_ssd (l : list bucket) :
  l <> [] -> (forall b, In b l -> (0 < b_count b)%R) ->
  b_ssd (chan_merge l) =
  (Rsum (map sum_sq l) - Rsum (map b_sum l) ^ 2 / Rsum (map b_count l))%R.
Proof.
  intros Hne H. unfold chan_merge. cbn [b_ssd].
  rewrite deviations_expand by assumption.
  unfold sum_sq. rewrite (Rsum_plus b_ssd (fun b => b_sum b ^ 2 / b_count b)%R).
  assert (HN : (0 < Rsum (map b_count l))%R).
  { apply Rsum_pos; [destruct l; [congruence | discriminate] |].
    intros x Hx. apply in_map_iff in Hx as [b [<- Hb]]. now apply H. }
  field. lra.
Qed.

Lemma chan_merge_sum_sq (l : list bucket) :
  l <> [] -> (forall b, In b l -> (0 < b_count b)%R) ->
  sum_sq (chan_merge l) = Rsum (map sum_sq l).
Proof.
  intros Hne H. unfold sum_sq at 1. rewrite chan_merge_ssd by assumption.
  unfold chan_merge. cbn [b_sum b_count].
  assert (HN : (0 < Rsum (map b_count l))%R).
  { apply Rsum_pos; [destruct l; [congruence | discriminate] |].
    intros x Hx. apply in_map_iff in Hx as [b [<- Hb]]. now apply H. }
  field. lra.
Qed.

(** Two lists of buckets with the same totals and extrema merge into the
    same bucket. *)
Lemma chan_merge_eq (l1 l2 : list bucket) :
  l1 <> [] -> l2 <> [] ->
  (forall b, In b l1 -> (0 < b_count b)%R) ->
  (forall b, In b l2 -> (0 < b_count b)%R) ->
  Rsum (map b_count l1) = Rsum (map b_count l2) ->
  Rsum (map b_sum l1) = Rsum (map b_sum l2) ->
  Rsum (map sum_sq l1) = Rsum (map sum_sq l2) ->
  MinRlist (map b_min l1) = MinRlist (map b_min l2) ->
  MaxRlist (map b_max l1) = MaxRlist (map b_max l2) ->
  chan_merge l1 = chan_merge l2.
Proof.
  intros Hn1 Hn2 Hp1 Hp2 Hc Hs Hw Hmin Hmax.
  pose proof (chan_merge_ssd l1 Hn1 Hp1) as Hq1.
  pose proof (chan_merge_ssd l2 Hn2 Hp2) as Hq2.
  rewrite Hc, Hs, Hw in Hq1. rewrite <- Hq2 in Hq1. clear Hq2.
  unfold chan_merge in *. cbn [b_ssd] in Hq1.
  rewrite Hq1, Hc, Hs, Hmin, Hmax. reflexivity.
Qed.

(** *** Regrouping: a sum over groups of sums over their members *)

Lemma Rsum_indicator (k : list cell) (c : R) (J : list (list cell)) :
  NoDup J ->
  Rsum (map (fun j => if key_eqb k j then c else 0%R) J) =
  if in_dec key_dec k J then c else 0%R.
Proof.
  induction 1 as [| j J Hn Hnd IH]; simpl; [reflexivity |].
  rewrite IH. destruct (key_eqb k j) eqn:E.
  - apply key_eqb_eq in E. subst j.
    destruct (key_dec k k) as [Hkk | Hne]; [| congruence].
    destruct (in_dec key_dec k J); [contradiction | lra].
  - apply key_eqb_neq in E. destruct (key_dec j k) as [Hjk | Hjk]; [congruence |].
    destruct (in_dec key_dec k J); lra.
Qed.

Lemma Rsum_regroup {X : Type} (kf : X -> list cell) (f : X -> R) (P : X -> bool)
  (base : list X) (J : list (list cell)) :
  NoDup J ->
  (forall x, In x base -> (P x = true <-> In (kf x) J)) ->
  Rsum (map (fun j => Rsum (map f (filter (fun x => key_eqb (kf x) j) base))) J) =
  Rsum (map f (filter P base)).
Proof.
  intros Hnd. induction base as [| x base IH]; intros HP.
  - simpl. clear Hnd HP. induction J as [| j J IHJ]; simpl; [reflexivity |].
    rewrite IHJ. lra.
  - cbn [filter].
    rewrite (Rsum_ext_in _
      (fun j => (if key_eqb (kf x) j then f x else 0) +
                Rsum (map f (filter (fun y => key_eqb (kf y) j) base)))%R).
    2:{ intros j _. destruct (key_eqb (kf x) j); simpl; lra. }
    rewrite Rsum_plus, Rsum_indicator by assumption.
    rewrite IH by (intros y Hy; apply HP; now right).
    destruct (P x) eqn:Px.
    + destruct (in_dec key_dec (kf x) J) as [_ | Hn]; [reflexivity |].
      elim Hn. apply HP; [now left | assumption].
    + destruct (in_dec key_dec (kf x) J) as [Hin | _]; [| lra].
      apply HP in Hin; [congruence | now left].
Qed.

Lemma MinRlist_In (l : list R) : l <> [] -> In (MinRlist l) l.
Proof.
  induction l as [| a l IH]; [congruence |]. intros _.
  destruct l as [| b l]; [now left |].
  change (MinRlist (a :: b :: l)) with (Rmin a (MinRlist (b :: l))).
  unfold Rmin. destruct (Rle_dec a (MinRlist (b :: l))); [now left |].
  right. apply IH. discriminate.
Qed.

Lemma MaxRlist_In (l : list R) : l <> [] -> In (MaxRlist l) l.
Proof.
  intros H. apply MaxRlist_P2. destruct l as [| a l]; [congruence |].
  exists a. now left.
Qed.

(** The least element of a list is determined by the set of its elements. *)
Lemma MinRlist_ext (l1 l2 : list R) :
  l1 <> [] -> l2 <> [] ->
  (forall x, In x l1 -> exists y, In y l2 /\ (y <= x)%R) ->
  (forall y, In y l2 -> exists x, In x l1 /\ (x <= y)%R) ->
  MinRlist l1 = MinRlist l2.
Proof.
  intros H1 H2 H12 H21. apply Rle_antisym.
  - destruct (H21 _ (MinRlist_In l2 H2)) as [x [Hx Hle]].
    pose proof (MinRlist_P1 l1 x Hx). lra.
  - destruct (H12 _ (MinRlist_In l1 H1)) as [y [Hy Hle]].
    pose proof (MinRlist_P1 l2 y Hy). lra.
Qed.

Lemma MaxRlist_ext (l1 l2 : list R) :
  l1 <> [] -> l2 <> [] ->
  (forall x, In x l1 -> exists y, In y l2 /\ (x <= y)%R) ->
  (forall y, In y l2 -> exists x, In x l1 /\ (y <= x)%R) ->
  MaxRlist l1 = MaxRlist l2.
Proof.
  intros H1 H2 H12 H21. apply Rle_antisym.
  - destruct (H12 _ (MaxRlist_In l1 H1)) as [y [Hy Hle]].
    pose proof (MaxRlist_P1 l2 y Hy). lra.
  - destruct (H21 _ (MaxRlist_In l2 H2)) as [x [Hx Hle]].
    pose proof (MaxRlist_P1 l1 x Hx). lra.
Qed.

Lemma map_nonempty {A B : Type} (f : A -> B) (l : list A) : l <> [] -> map f l <> [].
Proof. destruct l; [congruence | discriminate]. Qed.

(** Merging the merged buckets of the groups of a family [J] of keys is
    merging the members of these groups directly. *)
Section Regroup.

Variable X : Type.
Variables (kf : X -> list cell) (beta : X -> bucket) (P : X -> bool).
Variables (base : list X) (J : list (list cell)).

Hypothesis HJ : NoDup J.
Hypothesis HP : forall x, In x base -> (P x = true <-> In (kf x) J).
Hypothesis Hmem : forall j, In j J -> exists x, In x base /\ kf x = j.
Hypothesis HJne : J <> [].
Hypothesis Hpos : forall x, In x base -> (0 < b_count (beta x))%R.

Local Abbreviation grp := (fun j => map beta (filter (fun x => key_eqb (kf x) j) base)).

Lemma grp_nonempty (j : list cell) : In j J -> grp j <> [].
Proof.
  intros Hj. destruct (Hmem j Hj) as [x [Hx Hk]]. apply map_nonempty.
  intros E. assert (Hin : In x (filter (fun y => key_eqb (kf y) j) base)).
  { apply filter_In. split; [assumption |]. now apply key_eqb_eq. }
  rewrite E in Hin. contradiction.
Qed.

Lemma grp_pos (j : list cell) (b : bucket) : In b (grp j) -> (0 < b_count b)%R.
Proof.
  intros Hb. apply in_map_iff in Hb as [x [<- Hx]]. apply filter_In in Hx as [Hx _].
  now apply Hpos.
Qed.

Lemma direct_nonempty : map beta (filter P base) <> [].
Proof.
  destruct J as [| j J'] eqn:EJ; [congruence |].
  destruct (Hmem j) as [x [Hx Hk]]; [now left |].
  apply map_nonempty. intros E.
  assert (Hin : In x (filter P base)).
  { apply filter_In. split; [assumption |]. apply HP; [assumption |].
    rewrite Hk. now left. }
  rewrite E in Hin. contradiction.
Qed.

Lemma regroup_total (f : bucket -> R) :
  Rsum (map (fun j => Rsum (map f (grp j))) J) = Rsum (map f (map beta (filter P base))).
Proof.
  rewrite map_map.
  rewrite <- (Rsum_regroup kf (fun x => f (beta x)) P base J HJ HP).
  apply Rsum_ext_in. intros j _. now rewrite map_map.
Qed.

Lemma chan_merge_regroup :
  chan_merge (map (fun j => chan_merge (grp j)) J) =
  chan_merge (map beta (filter P base)).
Proof.
  apply chan_merge_eq.
  - now apply map_nonempty.
  - apply direct_nonempty.
  - intros b Hb. apply in_map_iff in Hb as [j [<- Hj]].
    apply chan_merge_count_pos; [now apply grp_nonempty | apply grp_pos].
  - intros b Hb. apply in_map_iff in Hb as [x [<- Hx]]. apply filter_In in Hx as [Hx _].
    now apply Hpos.
  - rewrite map_map. cbn [chan_merge b_count]. apply (regroup_total b_count).
  - rewrite map_map. cbn [chan_merge b_sum]. apply (regroup_total b_sum).
  - rewrite map_map.
    rewrite (Rsum_ext_in _ (fun j => Rsum (map sum_sq (grp j)))).
    + apply (regroup_total sum_sq).
    + intros j Hj. apply chan_merge_sum_sq; [now apply grp_nonempty | apply grp_pos].
  - rewrite map_map. cbn [chan_merge b_min].
    apply MinRlist_ext.
    + now apply map_nonempty.
    + apply map_nonempty, direct_nonempty.
    + intros x Hx. apply in_map_iff in Hx as [j [<- Hj]].
      pose proof (MinRlist_In (map b_min (grp j)) (map_nonempty _ _ (grp_nonempty j Hj))) as Hin.
      apply in_map_iff in Hin as [b [Hb Hin]]. apply in_map_iff in Hin as [y [<- Hy]].
      apply filter_In in Hy as [Hy Hk]. apply key_eqb_eq in Hk.
      exists (b_min (beta y)). split; [| lra].
      apply in_map. apply in_map. apply filter_In. split; [assumption |].
      apply HP; [assumption | now rewrite Hk].
    + intros y Hy. apply in_map_iff in Hy as [b [<- Hb]].
      apply in_map_iff in Hb as [x [<- Hx]]. apply filter_In in Hx as [Hx HPx].
      exists (MinRlist (map b_min (grp (kf x)))). split.
      * apply in_map_iff. exists (kf x). split; [reflexivity |]. now apply HP.
      * apply MinRlist_P1. apply in_map. apply in_map. apply filter_In.
        split; [assumption | apply key_eqb_refl].
  - rewrite map_map. cbn [chan_merge b_max].
    apply MaxRlist_ext.
    + now apply map_nonempty.
    + apply map_nonempty, direct_nonempty.
    + intros x Hx. apply in_map_iff in Hx as [j [<- Hj]].
      pose proof (MaxRlist_In (map b_max (grp j)) (map_nonempty _ _ (grp_nonempty j Hj))) as Hin.
      apply in_map_iff in Hin as [b [Hb Hin]]. apply in_map_iff in Hin as [y [<- Hy]].
      apply filter_In in Hy as [Hy Hk]. apply key_eqb_eq in Hk.
      exists (b_max (beta y)). split; [| lra].
      apply in_map. apply in_map. apply filter_In. split; [assumption |].
      apply HP; [assumption | now rewrite Hk].
    + intros y Hy. apply in_map_iff in Hy as [b [<- Hb]].
      apply in_map_iff in Hb as [x [<- Hx]]. apply filter_In in Hx as [Hx HPx].
      exists (MaxRlist (map b_max (grp (kf x)))). split.
      * apply in_map_iff. exists (kf x). split; [reflexivity |]. now apply HP.
      * apply MaxRlist_P1. apply in_map. apply in_map. apply filter_In.
        split; [assumption | apply key_eqb_refl].
Qed.

End Regroup.

(** ** Coarsening twice *)

Lemma floor_time_eq (r t : Z) : (r <> 0)%Z -> floor_time r t = (r * (t / r))%Z.
Proof. intros H. unfold floor_time. rewrite (Z.mod_eq t r H). lia. Qed.

Lemma floor_time_floor (r1 r2 t : Z) :
  (0 < r1)%Z -> (0 < r2)%Z -> (r1 | r2)%Z ->
  floor_time r2 (floor_time r1 t) = floor_time r2 t.
Proof.
  intros H1 H2 [m Hm]. subst r2.
  assert (Hm0 : (0 < m)%Z) by nia.
  rewrite !floor_time_eq by lia. f_equal.
  rewrite (Z.mul_comm m r1), Z.div_mul_cancel_l by lia.
  rewrite Z.div_div by lia. reflexivity.
Qed.

Lemma coarse_key_coarse_key (r1 r2 : Z) (k : list cell) :
  (0 < r1)%Z -> (0 < r2)%Z -> (r1 | r2)%Z ->
  coarse_key r2 (coarse_key r1 k) = coarse_key r2 k.
Proof.
  intros H1 H2 Hd. unfold coarse_key. rewrite removelast_last, last_last.
  f_equal. f_equal. destruct (last k (Num NaN)) as [s | t | x]; try reflexivity.
  now rewrite floor_time_floor.
Qed.

Lemma key_ok_app (a b : list cell) : key_ok (a ++ b) = key_ok a && key_ok b.
Proof. unfold key_ok. apply forallb_app. Qed.

Lemma key_ok_coarse_key (r : Z) (k : list cell) :
  k <> [] -> key_ok (coarse_key r k) = key_ok k.
Proof.
  intros H. destruct (exists_last H) as [k' [x ->]].
  unfold coarse_key. rewrite removelast_last, last_last, !key_ok_app.
  f_equal. destruct x as [s | t | [y | | |]]; reflexivity.
Qed.

Lemma flat_map_ext_in {A B : Type} (f g : A -> list B) (l : list A) :
  (forall a, In a l -> f a = g a) -> flat_map f l = flat_map g l.
Proof.
  induction l as [| a l IH]; simpl; intros H; [reflexivity |].
  rewrite (H a) by now left. f_equal. apply IH. intros b Hb. apply H. now right.
Qed.

Lemma merged_table_ext (stats keys : list string) (rows rows' : list (list cell))
  (vs : list string) (B B' : string -> list bucket) :
  group_keys rows = group_keys rows' ->
  (forall v k, In v vs -> In k (group_keys rows) ->
     chan_merge (group_of rows (B v) k) = chan_merge (group_of rows' (B' v) k)) ->
  merged_table stats keys rows vs B = merged_table stats keys rows' vs B'.
Proof.
  intros Hk H. unfold merged_table. rewrite <- Hk. f_equal.
  apply flat_map_ext_in. intros v Hv. apply map_ext. intros s. f_equal.
  apply map_ext_in. intros k Hin. now rewrite (H v k Hv Hin).
Qed.

Lemma in_combine_exists {A B : Type} (a : list A) (b : list B) (x : A) :
  length a = length b -> In x a -> exists y, In (x, y) (combine a b).
Proof.
  revert b. induction a as [| x0 a IH]; intros [| y0 b] Hlen Hin; simpl in *;
    try contradiction; try discriminate.
  destruct Hin as [-> | Hin]; [exists y0; now left |].
  destruct (IH b) as [y Hy]; [lia | assumption |]. exists y. now right.
Qed.

(** Under exact arithmetic, on a lossless table held in one partition,
    coarsening to a resolution and then to a multiple of it gives the very
    table that coarsening to the multiple directly gives. *)
Lemma coarsen_agg_chained (df : DataFrame) (r1 r2 : Z) (time_col : string)
  (grouping_cols : list string) :
  lossless df time_col grouping_cols ->
  (0 < r1)%Z -> (0 < r2)%Z -> (r1 | r2)%Z ->
  exists medium coarse,
    coarsen_agg df r1 time_col grouping_cols = Ok medium /\
    coarsen_agg medium r2 time_col grouping_cols = Ok coarse /\
    coarsen_agg df r2 time_col grouping_cols = Ok coarse.
Proof.
  intros L H1 H2 Hdiv.
  set (keys := grouping_cols ++ [time_col]).
  set (rows0 := table_rows df keys).
  set (vs := get_vars_from_flat_cols df keys).
  destruct (coarsened_lossless df r1 time_col grouping_cols L) as [LY [HvY [HrY HbY]]].
  fold keys rows0 vs in LY, HvY, HrY, HbY.
  set (Y := merged_table lossless_stats keys (map (coarse_key r1) rows0) vs (buckets df))
    in *.
  exists Y. eexists. split; [now apply coarsen_agg_lossless |].
  rewrite (coarsen_agg_lossless Y r2 time_col grouping_cols LY H2).
  rewrite (coarsen_agg_lossless df r2 time_col grouping_cols L H2).
  fold keys rows0 vs. rewrite HvY, HrY. split; [reflexivity |]. f_equal.
  assert (Hw0 : forall k, In k rows0 -> k <> []).
  { intros k Hk ->. apply table_rows_width in Hk. unfold keys in Hk.
    rewrite length_app in Hk. simpl in Hk. lia. }
  assert (Hkeys : group_keys (map (coarse_key r2) rows0) =
                  group_keys (map (coarse_key r2)
                                  (group_keys (map (coarse_key r1) rows0)))).
  { apply group_keys_ext. intros k Hok. rewrite !in_map_iff. split.
    - intros [k0 [<- Hk0]]. exists (coarse_key r1 k0).
      split; [now apply coarse_key_coarse_key |].
      apply group_keys_In. split; [now apply in_map |].
      rewrite key_ok_coarse_key in * by auto. assumption.
    - intros [j [<- Hj]]. apply group_keys_In in Hj as [Hj _].
      apply in_map_iff in Hj as [k0 [<- Hk0]]. exists k0.
      split; [symmetry; now apply coarse_key_coarse_key | assumption]. }
  apply merged_table_ext; [exact Hkeys |].
  intros v k Hv Hk.
  rewrite (HbY v Hv).
  set (gk1 := group_keys (map (coarse_key r1) rows0)) in *.
  set (bs := buckets df v).
  assert (Hlen : length rows0 = length bs).
  { unfold rows0, keys, bs. rewrite (lossless_rows_length df time_col grouping_cols L).
    symmetry. apply (lossless_buckets df time_col grouping_cols v L Hv). }
  set (base := combine rows0 bs).
  assert (Hfst : map fst base = rows0) by now apply fst_combine.
  assert (Hsnd : map snd base = bs) by now apply snd_combine.
  (* the direct groups *)
  assert (Hdirect : group_of (map (coarse_key r2) rows0) bs k =
                    map snd (filter (fun p => key_eqb (coarse_key r2 (fst p)) k) base)).
  { rewrite <- Hfst at 1. rewrite <- Hsnd at 1. rewrite map_map.
    apply (group_of_base (fun p => coarse_key r2 (fst p)) snd). }
  (* the groups of the medium table *)
  assert (Hmedium : forall j,
            group_of (map (coarse_key r1) rows0) bs j =
            map snd (filter (fun p => key_eqb (coarse_key r1 (fst p)) j) base)).
  { intros j. rewrite <- Hfst at 1. rewrite <- Hsnd at 1. rewrite map_map.
    apply (group_of_base (fun p => coarse_key r1 (fst p)) snd). }
  rewrite Hdirect.
  rewrite (group_of_base (coarse_key r2)
             (fun j => chan_merge (group_of (map (coarse_key r1) rows0) bs j))).
  rewrite (map_ext _ (fun j => chan_merge
             (map snd (filter (fun p => key_eqb (coarse_key r1 (fst p)) j) base))))
    by (intros j; now rewrite Hmedium).
  symmetry.
  assert (Hkok : key_ok k = true /\ In k (map (coarse_key r2) rows0)).
  { apply group_keys_In in Hk. tauto. }
  destruct Hkok as [Hkok Hkin].
  apply (chan_merge_regroup _ (fun p => coarse_key r1 (fst p)) snd
           (fun p => key_eqb (coarse_key r2 (fst p)) k) base
           (filter (fun j => key_eqb (coarse_key r2 j) k) gk1)).
  - apply NoDup_filter, group_keys_NoDup.
  - intros [k0 b] Hp. cbn [fst]. pose proof (in_combine_l _ _ _ _ Hp) as Hk0.
    rewrite filter_In, key_eqb_eq, key_eqb_eq. unfold gk1. rewrite group_keys_In.
    rewrite coarse_key_coarse_key by assumption. split.
    + intros E. split; [| exact E]. split; [now apply in_map |].
      rewrite key_ok_coarse_key by auto.
      rewrite <- (key_ok_coarse_key r2) by auto. now rewrite E.
    + tauto.
  - intros j Hj. apply filter_In in Hj as [Hj _]. unfold gk1 in Hj.
    apply group_keys_In in Hj as [Hj _]. apply in_map_iff in Hj as [k0 [<- Hk0]].
    destruct (in_combine_exists rows0 bs k0 Hlen Hk0) as [b Hb].
    exists (k0, b). auto.
  - apply in_map_iff in Hkin as [k0 [E Hk0]].
    intros Hnil.
    assert (Hin : In (coarse_key r1 k0)
                     (filter (fun j => key_eqb (coarse_key r2 j) k) gk1)).
    { apply filter_In. split.
      - unfold gk1. apply group_keys_In. split; [now apply in_map |].
        rewrite key_ok_coarse_key by auto.
        rewrite <- (key_ok_coarse_key r2) by auto. now rewrite E.
      - apply key_eqb_eq. now rewrite coarse_key_coarse_key. }
    rewrite Hnil in Hin. contradiction.
  - intros [k0 b] Hp. cbn [snd]. apply in_combine_r in Hp.
    apply (lossless_buckets df time_col grouping_cols v L Hv). exact Hp.
Qed.

(** ** [init_agg] on a raw table *)

Lemma set_assoc_absent {V : Type} (d : list (string * V)) (k : string) (v : V) :
  ~ In k (map fst d) -> set_assoc d k v = d ++ [(k, v)].
Proof.
  induction d as [| [k' v'] d IH]; simpl; intros H; [reflexivity |].
  destruct (String.eqb k' k) eqn:E.
  - apply String.eqb_eq in E. tauto.
  - rewrite IH; tauto.
Qed.

Lemma set_assoc_same {V : Type} (d : list (string * V)) (k : string) (v : V) :
  lookup k d = Some v -> set_assoc d k v = d.
Proof.
  induction d as [| [k' v'] d IH]; simpl; [discriminate |].
  destruct (String.eqb k' k) eqn:E.
  - now intros [= ->].
  - intros H. now rewrite IH.
Qed.

Lemma setcols_same (df : DataFrame) (names : list string) (X : string -> list num) :
  (forall c, In c names -> lookup c (data df) = Some (map Num (X c))) ->
  setcols df names (map X names) = Ok df.
Proof.
  intros H. unfold setcols. rewrite length_map, Nat.eqb_refl. cbn [negb]. f_equal.
  rewrite <- (map_id names) at 1. rewrite combine_maps.
  induction names as [| c names IH]; [reflexivity |].
  cbn [map fold_left fst snd]. unfold setcol at 2.
  rewrite set_assoc_same by (apply H; now left).
  destruct df as [idx d]. cbn [index data] in *. apply IH.
  intros c' Hc'. apply H. now right.
Qed.

Lemma select_astype {B : Type} (df : DataFrame) (names : list string)
  (X : string -> list num) (k : matrix -> result B) :
  (forall c, In c names -> lookup c (data df) = Some (map Num (X c))) ->
  (sel <- select df names ;; conv <- astype_float sel ;; k conv) = k (map X names).
Proof.
  intros H. unfold select.
  rewrite (mapM_getcol df names (fun c => map Num (X c)) H). cbn [bind].
  unfold astype_float. cbn [data].
  rewrite snd_combine by now rewrite length_map.
  rewrite mapM_map. rewrite (mapM_ext_Ok _ X); [reflexivity |].
  intros c _. rewrite mapM_map. rewrite <- (map_id (X c)) at 2.
  now apply mapM_ext_Ok.
Qed.

(** Two column lists with the same labels, without repetition, and the same
    column under every label are the same list. *)
Lemma data_ext {V : Type} (d1 d2 : list (string * V)) :
  map fst d1 = map fst d2 -> NoDup (map fst d1) ->
  (forall c, In c (map fst d1) -> lookup c d1 = lookup c d2) ->
  d1 = d2.
Proof.
  revert d2. induction d1 as [| [k v] d1 IH]; intros [| [k' v'] d2] Hn Hnd H;
    simpl in *; try discriminate; [reflexivity |].
  injection Hn as <- Hn. inversion Hnd as [| ? ? Hk Hnd']; subst.
  pose proof (H k (or_introl eq_refl)) as Hk0. rewrite String.eqb_refl in Hk0.
  injection Hk0 as <-. f_equal. apply IH; try assumption.
  intros c Hc. specialize (H c (or_intror Hc)).
  destruct (String.eqb k c) eqn:E; [| assumption].
  apply String.eqb_eq in E. subst. contradiction.
Qed.

Lemma filter_map_fst {V : Type} (P : string -> bool) (d : list (string * V)) :
  filter P (map fst d) = map fst (filter (fun p => P (fst p)) d).
Proof.
  induction d as [| [k v] d IH]; simpl; [reflexivity |].
  destruct (P k); simpl; now rewrite IH.
Qed.

Lemma Rsum_ones {A : Type} (l : list A) : Rsum (map (fun _ => 1%R) l) = INR (length l).
Proof.
  induction l as [| a l IH]; [reflexivity |].
  rewrite map_cons, Rsum_cons, IH. cbn [length]. rewrite S_INR. lra.
Qed.

(** The statistics [init_agg] stores for the samples of one group are the
    merge of the samples, each taken as a bucket of its own. *)
Lemma init_count (xs : list R) :
  agg_count (map Fin xs) = Fin (b_count (chan_merge (map sample xs))).
Proof.
  rewrite agg_count_Fin. unfold chan_merge. cbn [b_count]. f_equal.
  rewrite map_map. cbn [sample b_count]. now rewrite Rsum_ones.
Qed.

Lemma init_sum (xs : list R) :
  agg_sum (map Fin xs) = Fin (b_sum (chan_merge (map sample xs))).
Proof.
  rewrite agg_sum_Fin. unfold chan_merge. cbn [b_sum]. f_equal.
  rewrite map_map. cbn [sample b_sum]. now rewrite map_id.
Qed.

Lemma init_min (xs : list R) :
  xs <> [] -> agg_min (map Fin xs) = Fin (b_min (chan_merge (map sample xs))).
Proof.
  intros H. destruct xs as [| x xs]; [congruence |]. rewrite agg_min_Fin.
  unfold chan_merge. cbn [b_min]. f_equal. rewrite map_map. cbn [sample b_min].
  now rewrite map_id.
Qed.

Lemma init_max (xs : list R) :
  xs <> [] -> agg_max (map Fin xs) = Fin (b_max (chan_merge (map sample xs))).
Proof.
  intros H. destruct xs as [| x xs]; [congruence |]. rewrite agg_max_Fin.
  unfold chan_merge. cbn [b_max]. f_equal. rewrite map_map. cbn [sample b_max].
  now rewrite map_id.
Qed.

Lemma sample_ssd (xs : list R) :
  b_ssd (chan_merge (map sample xs)) =
  Rsum (map (fun x => (x - Rsum xs / INR (length xs)) ^ 2)%R xs).
Proof.
  unfold chan_merge. cbn [b_ssd]. rewrite !map_map. cbn [sample b_ssd b_count b_sum].
  rewrite map_id, Rsum_ones.
  replace (Rsum (map (fun _ => 0%R) xs)) with 0%R.
  - rewrite Rplus_0_l. apply Rsum_ext_in. intros x _.
    unfold Rdiv. rewrite Rinv_1. ring.
  - clear. induction xs as [| x xs IH]; [reflexivity |].
    rewrite map_cons, Rsum_cons, <- IH. lra.
Qed.

Lemma init_ssd (xs : list R) :
  xs <> [] ->
  nmul (fillna0 (agg_var (map Fin xs))) (nsub (agg_count (map Fin xs)) (Fin 1)) =
  Fin (b_ssd (chan_merge (map sample xs))).
Proof.
  intros Hne. rewrite sample_ssd, agg_count_Fin.
  destruct (le_lt_dec 2 (length xs)) as [H2 | H1].
  - rewrite agg_var_Fin by assumption. cbn [fillna0 nsub nneg nadd nmul]. f_equal.
    assert (H0 : (2 <= INR (length xs))%R) by (apply (le_INR 2); assumption).
    field. lra.
  - rewrite agg_var_one by (rewrite filter_notna_Fin, length_map; lia).
    cbn [fillna0 nsub nneg nadd nmul]. f_equal.
    destruct xs as [| x [| y xs]]; [congruence | | simpl in H1; lia].
    simpl. field.
Qed.

Lemma lookup_In_NoDup {V : Type} (d : list (string * V)) (p : string * V) :
  NoDup (map fst d) -> In p d -> lookup (fst p) d = Some (snd p).
Proof.
  induction d as [| [k v] d IH]; simpl; intros Hnd Hin; [contradiction |].
  inversion Hnd as [| ? ? Hk Hnd']; subst.
  destruct Hin as [<- | Hin]; simpl.
  - now rewrite String.eqb_refl.
  - destruct (String.eqb k (fst p)) eqn:E; [| now apply IH].
    apply String.eqb_eq in E. subst k. elim Hk. now apply in_map.
Qed.

Lemma combine_app_eq {A B : Type} (a1 a2 : list A) (b1 b2 : list B) :
  length a1 = length b1 ->
  combine (a1 ++ a2) (b1 ++ b2) = combine a1 b1 ++ combine a2 b2.
Proof.
  revert b1. induction a1 as [| x a1 IH]; intros [| y b1] H; simpl in *;
    try discriminate; [reflexivity |].
  f_equal. apply IH. lia.
Qed.

Lemma combine_blocks {A B C : Type} (f : A -> list B) (g : A -> list C) (l : list A) :
  (forall a, length (f a) = length (g a)) ->
  combine (flat_map f l) (concat (map g l)) = flat_map (fun a => combine (f a) (g a)) l.
Proof.
  intros H. induction l as [| a l IH]; simpl; [reflexivity |].
  rewrite combine_app_eq by apply H. now rewrite IH.
Qed.

Lemma NoDup_filter_string (P : string -> bool) (l : list string) :
  NoDup l -> NoDup (filter P l).
Proof. apply NoDup_filter. Qed.

Section InitRaw.

Variables (raw : DataFrame) (time_res : Z) (time_col : string)
          (grouping_cols : list string) (ts : list Z).

Local Abbreviation keys := (grouping_cols ++ [time_col]).
Local Abbreviation vars := (variables_of raw grouping_cols).
Local Abbreviation rows := (map (coarse_key time_res) (table_rows raw keys)).

Hypothesis Hraw : raw_table raw time_col grouping_cols.
Hypothesis Hidx : index raw = [(Some time_col, map Time ts)].
Hypothesis Hres : (0 < time_res)%Z.

Let floored := map (fun t => Time (floor_time time_res t)) ts.
Let df2 := mkDF (range_index (length ts)) (data raw ++ [(time_col, floored)]).
Let X (v : string) : list num := map (fun c => Fin (real_of c)) (series raw v).

Lemma raw_nrows : nrows raw = length ts.
Proof. unfold nrows. rewrite Hidx. apply length_map. Qed.

Lemma raw_time_series : series raw time_col = map Time ts.
Proof.
  unfold series.
  rewrite (proj2 (lookup_None time_col (data raw)) (rt_time_fresh _ _ _ Hraw)).
  rewrite Hidx. simpl. now rewrite String.eqb_refl.
Qed.

Lemma vars_In (v : string) :
  In v vars <-> In v (columns raw) /\ ~ In v grouping_cols.
Proof.
  unfold variables_of. rewrite filter_In, negb_true_iff, mem_false. tauto.
Qed.

Lemma raw_var_series (v : string) : In v vars -> series raw v = map Num (X v).
Proof.
  intros Hv. apply vars_In in Hv as [Hc Hg].
  destruct (rt_values _ _ _ Hraw v Hc Hg) as [xs Hxs]. unfold X. rewrite Hxs.
  rewrite !map_map. reflexivity.
Qed.

Lemma df2_var (v : string) :
  In v vars -> lookup v (data df2) = Some (map Num (X v)).
Proof.
  intros Hv. unfold df2. cbn [data]. rewrite lookup_app.
  pose proof (proj1 (vars_In v) Hv) as [Hc _].
  rewrite (series_lookup raw v Hc). now rewrite raw_var_series.
Qed.

Lemma df2_keys (c : string) :
  In c keys ->
  lookup c (data df2) =
  Some (if String.eqb c time_col then floored else series raw c).
Proof.
  intros Hc. unfold df2. cbn [data]. rewrite lookup_app.
  destruct (String.eqb c time_col) eqn:E.
  - apply String.eqb_eq in E. subst c.
    rewrite (proj2 (lookup_None time_col (data raw)) (rt_time_fresh _ _ _ Hraw)).
    simpl. now rewrite String.eqb_refl.
  - apply String.eqb_neq in E. apply in_app_or in Hc as [Hc | [Hc | []]]; [| congruence].
    now rewrite (series_lookup raw c (rt_groups _ _ _ Hraw c Hc)).
Qed.

Lemma time_not_group : ~ In time_col grouping_cols.
Proof.
  intros H. apply (rt_time_fresh _ _ _ Hraw). now apply (rt_groups _ _ _ Hraw).
Qed.

Lemma df2_rows :
  rows_of (nrows df2)
    (map (fun c => if String.eqb c time_col then floored else series raw c) keys)
  = rows.
Proof.
  unfold df2. rewrite range_index_nrows.
  unfold table_rows. rewrite raw_nrows, !map_app. cbn [map].
  rewrite String.eqb_refl, raw_time_series.
  rewrite <- (rows_of_floor time_res (length ts) _ ts eq_refl). f_equal. f_equal.
  apply map_ext_in. intros c Hc.
  destruct (String.eqb c time_col) eqn:E; [| reflexivity].
  apply String.eqb_eq in E. subst c. elim time_not_group. assumption.
Qed.

Lemma df2_others :
  filter (fun p => negb (mem (fst p) keys)) (data df2) =
  filter (fun p => negb (mem (fst p) grouping_cols)) (data raw).
Proof.
  unfold df2. cbn [data]. rewrite filter_app. cbn [filter fst].
  assert (Hm : mem time_col keys = true).
  { apply mem_In. apply in_or_app. right. now left. }
  rewrite Hm. cbn [negb]. rewrite app_nil_r.
  apply filter_ext_in. intros [k v] Hp. cbn [fst]. f_equal.
  assert (Hk : k <> time_col).
  { intros ->. apply (rt_time_fresh _ _ _ Hraw). apply (in_map fst) in Hp. exact Hp. }
  destruct (mem k grouping_cols) eqn:E.
  - apply mem_In. apply in_or_app. left. now apply mem_In.
  - apply mem_false. apply mem_false in E. intros Hin.
    apply in_app_or in Hin as [Hin | [Hin | []]]; [contradiction | congruence].
Qed.

Lemma vars_as_fst :
  vars = map fst (filter (fun p => negb (mem (fst p) grouping_cols)) (data raw)).
Proof.
  unfold variables_of, columns.
  apply (filter_map_fst (fun col => negb (mem col grouping_cols))).
Qed.

Lemma vars_NoDup : NoDup vars.
Proof. unfold variables_of. apply NoDup_filter. apply (rt_columns _ _ _ Hraw). Qed.

Let gk := group_keys rows.

Let stat_col (f : agg_fun) (v : string) : list num :=
  map (fun k => agg_apply f (group_of rows (X v) k)) gk.

Let df_agg :=
  mkDF (combine (map Some keys) (cols_of (length keys) gk))
       (flat_map
          (fun v => map (fun s => ((v ++ "." ++ s)%string,
                                   map Num (stat_col (init_fun s) v)))
                        init_stats)
          vars).

Let M (v : string) : list num :=
  zipWith nmul (map fillna0 (stat_col Var v))
               (map (fun c => nsub c (Fin 1)) (stat_col Count v)).

Lemma init_stats_no_dot (s : string) : In s init_stats -> has_dot s = false.
Proof.
  simpl. intros H. repeat (destruct H as [<- | H]; [reflexivity |]). contradiction.
Qed.

Lemma df_agg_stat (v s : string) :
  In v vars -> In s init_stats ->
  lookup (v ++ "." ++ s) (data df_agg) = Some (map Num (stat_col (init_fun s) v)).
Proof.
  intros Hv Hs. unfold df_agg. cbn [data].
  apply (lookup_stat_blocks init_stats vars
           (fun v s => map Num (stat_col (init_fun s) v)) v s
           init_stats_no_dot Hv Hs).
Qed.

Lemma init_agg_steps :
  init_agg raw time_res grouping_cols =
  setcols df_agg (get_cols vars "sum_sq_diff") (map M vars).
Proof.
  unfold init_agg. rewrite Hidx.
  rewrite dt_floor_times by assumption. cbn [bind]. fold floored.
  assert (Hd1 : reset_index_drop (setcol raw time_col floored) = df2).
  { unfold reset_index_drop, setcol, df2. cbn [data index]. f_equal.
    - f_equal. unfold nrows. cbn [index]. rewrite Hidx. unfold floored.
      now rewrite length_map.
    - apply set_assoc_absent. apply (rt_time_fresh _ _ _ Hraw). }
  cbv zeta. rewrite Hd1.
  fold (variables_of raw grouping_cols).
  rewrite (select_astype df2 vars X) by exact df2_var.
  rewrite (setcols_same df2 vars X) by exact df2_var. cbn [bind].
  rewrite (groupby_rows df2 keys _ df2_keys). cbn [bind]. rewrite df2_rows.
  (* the aggregation over the variable columns *)
  unfold agg_list. cbn [g_df g_by g_rows]. rewrite df2_others.
  set (G := mkGrouped df2 keys rows).
  rewrite (mapM_ext_Ok _
    (fun p => map (fun f => map Num (stat_col f (fst p))) [Count; Sum; Var; Max; Min])).
  2:{ intros [k c] Hp. cbn [fst snd].
      assert (Hk : In k vars).
      { rewrite vars_as_fst. apply (in_map fst) in Hp. exact Hp. }
      pose proof (lookup_In_NoDup (data raw) (k, c) (rt_columns _ _ _ Hraw)) as Hl.
      apply filter_In in Hp as [Hp _]. specialize (Hl Hp). cbn [fst snd] in Hl.
      apply series_of_lookup in Hl. rewrite (raw_var_series k Hk) in Hl. subst c.
      rewrite numcol_Num. cbn [bind]. f_equal.
      unfold agg_col, stat_col, G. cbn [g_rows map]. now rewrite !map_map. }
  cbn [bind]. unfold with_columns. cbn [fst snd].
  change [get_cols vars "count"; get_cols vars "sum"; get_cols vars "sum_sq_diff";
          get_cols vars "max"; get_cols vars "min"]
    with (map (get_cols vars) init_stats).
  rewrite chain_zipn_get_cols by discriminate.
  rewrite <- (map_map fst (fun v => map (fun f => map Num (stat_col f v))
                                        [Count; Sum; Var; Max; Min])).
  rewrite <- vars_as_fst.
  assert (Hlen : length (flat_map (stat_cols init_stats) vars) =
                 length (concat (map (fun v => map (fun f => map Num (stat_col f v))
                                                   [Count; Sum; Var; Max; Min]) vars))).
  { rewrite stat_cols_flat_length. generalize vars. intros l.
    induction l as [| v l IH]; [reflexivity |].
    rewrite map_cons, concat_cons, length_app, <- IH. reflexivity. }
  rewrite Hlen, Nat.eqb_refl. cbn [negb bind].
  rewrite combine_blocks by reflexivity.
  assert (Hagg : mkDF (key_levels G)
                   (flat_map (fun a => combine (stat_cols init_stats a)
                                (map (fun f => map Num (stat_col f a))
                                     [Count; Sum; Var; Max; Min])) vars) = df_agg)
    by reflexivity.
  rewrite Hagg.
  rewrite (select_rename_cols df_agg vars "sum_sq_diff" (stat_col Var))
    by (try reflexivity; intros v Hv; apply (df_agg_stat v "sum_sq_diff" Hv);
        simpl; tauto).
  rewrite (select_rename_cols df_agg vars "count" (stat_col Count))
    by (try reflexivity; intros v Hv; apply (df_agg_stat v "count" Hv);
        simpl; tauto).
  rewrite !frame_map_maps, frame_op_maps. reflexivity.
Qed.

Lemma raw_rows_length : length rows = length ts.
Proof.
  rewrite length_map. unfold table_rows. rewrite raw_nrows. apply rows_of_length.
  apply Forall_forall. intros c Hc. apply in_map_iff in Hc as [name [<- Hn]].
  apply in_app_or in Hn as [Hn | [<- | []]].
  - rewrite <- raw_nrows. apply (rt_lengths _ _ _ Hraw). now apply (rt_groups _ _ _ Hraw).
  - rewrite raw_time_series. apply length_map.
Qed.

Lemma raw_var_length (v : string) : In v vars -> length (series raw v) = length rows.
Proof.
  intros Hv. rewrite raw_rows_length, <- raw_nrows.
  apply (rt_lengths _ _ _ Hraw). now apply vars_In in Hv.
Qed.

Lemma group_X (v : string) (k : list cell) :
  group_of rows (X v) k = map Fin (map real_of (group_of rows (series raw v) k)).
Proof. unfold X. now rewrite group_of_map, map_map. Qed.

Lemma group_samples (v : string) (k : list cell) :
  group_of rows (samples raw v) k =
  map sample (map real_of (group_of rows (series raw v) k)).
Proof. unfold samples. now rewrite group_of_map, map_map. Qed.

Lemma group_raw_nonempty (v : string) (k : list cell) :
  In v vars -> In k gk -> map real_of (group_of rows (series raw v) k) <> [].
Proof.
  intros Hv Hk. apply map_nonempty. apply group_of_nonempty.
  - now apply raw_var_length.
  - unfold gk in Hk. now apply group_keys_In in Hk.
Qed.

Lemma M_ssd (v : string) :
  In v vars ->
  M v = map (fun k => Fin (b_ssd (chan_merge (group_of rows (samples raw v) k)))) gk.
Proof.
  intros Hv. unfold M, stat_col. rewrite !map_map, zipWith_map.
  apply map_ext_in. intros k Hk. cbn [agg_apply].
  rewrite group_X, group_samples. apply init_ssd. now apply group_raw_nonempty.
Qed.

Lemma init_agg_raw :
  init_agg raw time_res grouping_cols =
  Ok (merged_table init_stats keys rows vars (samples raw)).
Proof.
  rewrite init_agg_steps.
  destruct (setcols_cols df_agg vars "sum_sq_diff" M eq_refl)
    as [out [Hset [Hi [Hc [Hl Ho]]]]].
  { intros v Hv. unfold columns. apply (lookup_Some_In _ (data df_agg)
                                          (map Num (stat_col (init_fun "sum_sq_diff") v))).
    apply df_agg_stat; [assumption | simpl; tauto]. }
  rewrite Hset. f_equal. destruct out as [idx d]. cbn [index data] in *.
  unfold merged_table. fold gk. f_equal; [exact Hi |].
  assert (Hnames : map fst d = flat_map (stat_cols init_stats) vars).
  { unfold columns in Hc. cbn [data] in Hc. rewrite Hc. unfold df_agg. cbn [data].
    apply stat_blocks_names. }
  apply data_ext.
  - rewrite Hnames. symmetry. apply stat_blocks_names.
  - rewrite Hnames. apply stat_cols_NoDup.
    + repeat constructor; simpl; intuition discriminate.
    + exact init_stats_no_dot.
    + exact vars_NoDup.
  - intros c Hin. rewrite Hnames in Hin. apply in_flat_map in Hin as [v [Hv Hin]].
    apply stat_cols_In in Hin as [s [Hs ->]].
    rewrite (lookup_stat_blocks init_stats vars
               (fun v s => map (fun k => Num (Fin (bucket_stat s
                                  (chan_merge (group_of rows (samples raw v) k))))) gk)
               v s init_stats_no_dot Hv Hs).
    destruct (String.eqb s "sum_sq_diff") eqn:E.
    + apply String.eqb_eq in E. subst s. rewrite (Hl v Hv). f_equal.
      rewrite (M_ssd v Hv), map_map. reflexivity.
    + apply String.eqb_neq in E. rewrite Ho.
      2:{ unfold get_cols. intros Hin. apply in_map_iff in Hin as [w [Hw _]].
          apply stat_col_inj in Hw as [_ Hw]; [congruence | reflexivity |].
          now apply init_stats_no_dot. }
      rewrite (df_agg_stat v s Hv Hs). f_equal. unfold stat_col. rewrite map_map.
      apply map_ext_in. intros k Hk. f_equal.
      rewrite group_X, group_samples.
      pose proof (group_raw_nonempty v k Hv Hk) as Hne.
      simpl in Hs. destruct Hs as [<- | [<- | [<- | [<- | [<- | []]]]]]; cbn [init_fun agg_apply].
      * apply init_count.
      * apply init_sum.
      * congruence.
      * now apply init_max.
      * now apply init_min.
Qed.

End InitRaw.

(** ** [finalize_agg] on a lossless table whose keys are columns *)

Lemma lookup_combine_map {V : Type} (names : list string) (F : string -> V) (c : string) :
  In c names -> lookup c (combine names (map F names)) = Some (F c).
Proof.
  induction names as [| n names IH]; simpl; intros H; [contradiction |].
  destruct (String.eqb n c) eqn:E.
  - apply String.eqb_eq in E. now subst.
  - apply String.eqb_neq in E. destruct H as [-> | H]; [congruence | auto].
Qed.

Lemma combine_map_app {V : Type} (a b : list string) (F : string -> V) :
  combine (a ++ b) (map F (a ++ b)) = combine a (map F a) ++ combine b (map F b).
Proof.
  rewrite map_app. apply combine_app_eq. now rewrite length_map.
Qed.

Lemma combine_map_blocks {V : Type} (stats vs : list string) (F : string -> V) :
  combine (flat_map (stat_cols stats) vs) (map F (flat_map (stat_cols stats) vs)) =
  flat_map (fun v => map (fun s => ((v ++ "." ++ s)%string, F (v ++ "." ++ s)%string)) stats) vs.
Proof.
  induction vs as [| v vs IH]; [reflexivity |].
  cbn [flat_map]. rewrite combine_map_app, IH. f_equal.
  unfold stat_cols. rewrite map_map, combine_maps. reflexivity.
Qed.

Lemma final_stats_no_dot (s : string) : In s final_stats -> has_dot s = false.
Proof.
  simpl. intros H. repeat (destruct H as [<- | H]; [reflexivity |]). contradiction.
Qed.

Section FinalizeFlat.

Variables (df d : DataFrame) (time_col : string) (grouping_cols : list string).
Variable B : string -> list bucket.

Local Abbreviation keys := (grouping_cols ++ [time_col]).
Local Abbreviation vs := (get_vars_from_flat_cols d keys).

Hypothesis Hnorm : (if absent_any keys df then reset_index df else Ok df) = Ok d.
Hypothesis Hkeys : forall c, In c keys -> In c (columns d).
Hypothesis Hstat :
  forall v s, In v vs -> In s lossless_stats ->
    In (v ++ "." ++ s)%string (columns d) /\
    series d (v ++ "." ++ s) = map (fun b => Num (Fin (bucket_stat s b))) (B v).
Hypothesis Hfresh :
  forall v s, In v vs -> In s final_stats -> ~ In (v ++ "." ++ s)%string keys.
Hypothesis Hpos : forall v b, In v vs -> In b (B v) -> (0 < b_count b)%R.

Let N (s v : string) : list num := map (fun b => Fin (bucket_stat s b)) (B v).

Lemma d_stat (v s : string) :
  In v vs -> In s lossless_stats ->
  lookup (v ++ "." ++ s) (data d) = Some (map Num (N s v)).
Proof.
  intros Hv Hs. destruct (Hstat v s Hv Hs) as [Hc Hser].
  rewrite (series_lookup d _ Hc), Hser. unfold N. now rewrite map_map.
Qed.

Let means := relabel (get_cols vs "mean") (frame_op ndiv (map (N "sum") vs) (map (N "count") vs)).

Let stds :=
  relabel (get_cols vs "std")
    (frame_map nroot
       (frame_op ndiv (map (N "sum_sq_diff") vs)
          (frame_map (fun c => nsub c (Fin 1)) (map (N "count") vs)))).

Let df_final :=
  concat_columns (index d)
    [combine keys (map (series d) keys); means; stds;
     combine (get_cols vs "min" ++ get_cols vs "max")
             (map (series d) (get_cols vs "min" ++ get_cols vs "max"))].

Lemma select_series (names : list string) :
  (forall c, In c names -> In c (columns d)) ->
  select d names = Ok (mkDF (index d) (combine names (map (series d) names))).
Proof.
  intros H. unfold select.
  rewrite (mapM_getcol d names (series d)); [reflexivity |].
  intros c Hc. apply series_lookup. now apply H.
Qed.

Lemma finalize_agg_steps :
  finalize_agg df time_col grouping_cols =
  select df_final
    (grouping_cols ++ [time_col] ++
     chain (zipn [get_cols vs "mean"; get_cols vs "std";
                  get_cols vs "min"; get_cols vs "max"])).
Proof.
  unfold finalize_agg. rewrite Hnorm. cbn [bind]. cbv zeta.
  rewrite (select_rename_cols d vs "count" (N "count"))
    by (try reflexivity; intros v Hv; apply d_stat; simpl; tauto).
  rewrite (select_rename_cols d vs "sum" (N "sum"))
    by (try reflexivity; intros v Hv; apply d_stat; simpl; tauto).
  rewrite (select_rename_cols d vs "sum_sq_diff" (N "sum_sq_diff"))
    by (try reflexivity; intros v Hv; apply d_stat; simpl; tauto).
  rewrite (select_series keys) by exact Hkeys. cbn [bind].
  rewrite (select_series (get_cols vs "min" ++ get_cols vs "max")).
  - reflexivity.
  - intros c Hc. apply in_app_or in Hc. unfold get_cols in Hc.
    destruct Hc as [Hc | Hc]; apply in_map_iff in Hc as [v [<- Hv]];
      apply Hstat; simpl; tauto.
Qed.

Lemma lookup_relabel (s v : string) (Z : string -> list num) :
  has_dot s = false -> In v vs ->
  lookup (v ++ "." ++ s) (relabel (get_cols vs s) (map Z vs)) = Some (map Num (Z v)).
Proof.
  intros Hs Hv. unfold relabel, get_cols. rewrite map_map, combine_maps.
  generalize Hv. generalize vs. intros l Hl.
  induction l as [| w l IH]; [contradiction |]. cbn [map lookup].
  destruct (String.eqb (w ++ "." ++ s) (v ++ "." ++ s)) eqn:E.
  - apply String.eqb_eq in E. apply stat_col_inj in E as [-> _]; auto.
  - apply String.eqb_neq in E. destruct Hl as [-> | Hl]; [congruence | auto].
Qed.

Lemma lookup_relabel_other (s c : string) (m : matrix) :
  ~ In c (get_cols vs s) -> lookup c (relabel (get_cols vs s) m) = None.
Proof. intros H. unfold relabel. now apply lookup_combine_absent. Qed.

Lemma other_stat (v s s' : string) :
  has_dot s = false -> has_dot s' = false -> s <> s' ->
  ~ In (v ++ "." ++ s)%string (get_cols vs s').
Proof.
  intros Hs Hs' Hne Hin. unfold get_cols in Hin.
  apply in_map_iff in Hin as [w [E _]]. apply stat_col_inj in E as [_ E]; congruence.
Qed.

Lemma df_final_key (c : string) :
  In c keys -> lookup c (data df_final) = Some (series d c).
Proof.
  intros Hc. unfold df_final, concat_columns. cbn [data concat].
  rewrite lookup_app. now rewrite (lookup_combine_map keys (series d) c Hc).
Qed.

Lemma df_final_stat (v s : string) :
  In v vs -> In s final_stats ->
  lookup (v ++ "." ++ s) (data df_final) =
  Some (map (fun b => Num (final_stat s b)) (B v)).
Proof.
  intros Hv Hs. unfold df_final, concat_columns. cbn [data concat].
  rewrite lookup_app, lookup_combine_absent by (now apply Hfresh).
  simpl in Hs. destruct Hs as [<- | [<- | [<- | [<- | []]]]].
  - rewrite lookup_app. unfold means. rewrite frame_op_maps.
    rewrite (lookup_relabel "mean" v _ eq_refl Hv). f_equal.
    unfold N. rewrite zipWith_map, map_map. apply map_ext_in. intros b Hb.
    change (bucket_stat "sum" b) with (b_sum b).
    change (bucket_stat "count" b) with (b_count b).
    rewrite ndiv_Fin; [reflexivity |]. pose proof (Hpos v b Hv Hb). lra.
  - rewrite lookup_app. unfold means.
    rewrite lookup_relabel_other by (apply other_stat; [reflexivity | reflexivity | discriminate]).
    rewrite lookup_app. unfold stds. rewrite frame_map_maps, frame_op_maps, frame_map_maps.
    rewrite (lookup_relabel "std" v _ eq_refl Hv). f_equal.
    unfold N. rewrite !map_map, zipWith_map, map_map. reflexivity.
  - rewrite lookup_app. unfold means.
    rewrite lookup_relabel_other by (apply other_stat; [reflexivity | reflexivity | discriminate]).
    rewrite lookup_app. unfold stds.
    rewrite lookup_relabel_other by (apply other_stat; [reflexivity | reflexivity | discriminate]).
    rewrite lookup_app.
    rewrite lookup_combine_map
      by (apply in_or_app; left; unfold get_cols; apply in_map_iff; exists v; auto).
    destruct (Hstat v "min" Hv) as [_ ->]; [simpl; tauto | reflexivity].
  - rewrite lookup_app. unfold means.
    rewrite lookup_relabel_other by (apply other_stat; [reflexivity | reflexivity | discriminate]).
    rewrite lookup_app. unfold stds.
    rewrite lookup_relabel_other by (apply other_stat; [reflexivity | reflexivity | discriminate]).
    rewrite lookup_app.
    rewrite lookup_combine_map
      by (apply in_or_app; right; unfold get_cols; apply in_map_iff; exists v; auto).
    destruct (Hstat v "max" Hv) as [_ ->]; [simpl; tauto | reflexivity].
Qed.

Lemma finalize_agg_flat :
  finalize_agg df time_col grouping_cols = Ok (final_table d keys vs B).
Proof.
  rewrite finalize_agg_steps.
  change [get_cols vs "mean"; get_cols vs "std"; get_cols vs "min"; get_cols vs "max"]
    with (map (get_cols vs) final_stats).
  rewrite chain_zipn_get_cols by discriminate.
  rewrite app_assoc.
  unfold select.
  rewrite (mapM_getcol df_final _ (series df_final)).
  - cbn [bind]. unfold final_table. f_equal. f_equal.
    rewrite combine_map_app, combine_map_blocks. f_equal.
    + f_equal. apply map_ext_in. intros c Hc.
      apply series_of_lookup. now apply df_final_key.
    + apply flat_map_ext_in. intros v Hv. apply map_ext_in. intros s Hs. f_equal.
      apply series_of_lookup. now apply df_final_stat.
  - intros c Hc. apply in_app_or in Hc as [Hc | Hc].
    + rewrite (df_final_key c Hc). f_equal. symmetry.
      apply series_of_lookup. now apply df_final_key.
    + apply in_flat_map in Hc as [v [Hv Hc]]. apply stat_cols_In in Hc as [s [Hs ->]].
      rewrite (df_final_stat v s Hv Hs). f_equal. symmetry.
      apply series_of_lookup. now apply df_final_stat.
Qed.

End FinalizeFlat.

(** ** Reading the final table *)

Section FinalTable.

Variables (d : DataFrame) (keys vs : list string) (B : string -> list bucket).

Hypothesis Hidx : index d <> [].
Hypothesis Hfresh :
  forall v s, In v vs -> In s final_stats -> ~ In (v ++ "." ++ s)%string keys.
Hypothesis Hlen : forall v, In v vs -> length (B v) = nrows d.

Local Abbreviation ft := (final_table d keys vs B).

Lemma final_columns : columns ft = keys ++ flat_map (stat_cols final_stats) vs.
Proof.
  unfold columns, final_table. cbn [data]. rewrite map_app. f_equal.
  - apply fst_combine. now rewrite length_map.
  - apply stat_blocks_names.
Qed.

Lemma final_nrows : nrows ft = nrows d.
Proof. apply nrows_same_index; [reflexivity | exact Hidx]. Qed.

Lemma final_key_series (c : string) : In c keys -> series ft c = series d c.
Proof.
  intros Hc. apply series_of_lookup. unfold final_table. cbn [data].
  rewrite lookup_app. now rewrite (lookup_combine_map keys (series d) c Hc).
Qed.

Lemma final_stat_series (v s : string) :
  In v vs -> In s final_stats ->
  series ft (v ++ "." ++ s) = map (fun b => Num (final_stat s b)) (B v).
Proof.
  intros Hv Hs. apply series_of_lookup. unfold final_table. cbn [data].
  rewrite lookup_app, lookup_combine_absent by now apply Hfresh.
  apply (lookup_stat_blocks final_stats vs
           (fun v s => map (fun b => Num (final_stat s b)) (B v)) v s
           final_stats_no_dot Hv Hs).
Qed.

Lemma final_table_rows : table_rows ft keys = table_rows d keys.
Proof.
  unfold table_rows. rewrite final_nrows. f_equal.
  apply map_ext_in. intros c Hc. now apply final_key_series.
Qed.

Lemma final_stat_rows (v : string) :
  In v vs ->
  table_rows ft (stat_cols final_stats v) =
  map (fun b => map (fun s => Num (final_stat s b)) final_stats) (B v).
Proof.
  intros Hv. unfold table_rows, stat_cols. rewrite final_nrows, map_map.
  rewrite (map_ext_in _ (fun s => map (fun b => Num (final_stat s b)) (B v)))
    by (intros s Hs; now apply final_stat_series).
  rewrite <- (map_map (fun s b => Num (final_stat s b)) (fun f => map f (B v))).
  rewrite <- (Hlen v Hv), rows_of_maps. apply map_ext. intros b. now rewrite map_map.
Qed.

End FinalTable.

(** [finalize_agg] on a lossless table *)
Lemma finalize_agg_lossless (df : DataFrame) (time_col : string)
  (grouping_cols : list string) :
  lossless df time_col grouping_cols ->
  (forall v s, In v (get_vars_from_flat_cols df (grouping_cols ++ [time_col])) ->
               In s final_stats ->
               ~ In (v ++ "." ++ s)%string (grouping_cols ++ [time_col])) ->
  exists final,
    finalize_agg df time_col grouping_cols = Ok final /\
    columns final =
      (grouping_cols ++ [time_col]) ++
      flat_map (stat_cols final_stats)
               (get_vars_from_flat_cols df (grouping_cols ++ [time_col])) /\
    table_rows final (grouping_cols ++ [time_col]) =
      table_rows df (grouping_cols ++ [time_col]) /\
    forall v, In v (get_vars_from_flat_cols df (grouping_cols ++ [time_col])) ->
      table_rows final (stat_cols final_stats v) =
      map (fun b => map (fun s => Num (final_stat s b)) final_stats) (buckets df v).
Proof.
  intros L Hfresh.
  destruct (lossless_normalize df time_col grouping_cols L)
    as [d [Hnorm [Hidx [Hn [Hk [Hc [Hser Hvars]]]]]]].
  exists (final_table d (grouping_cols ++ [time_col])
            (get_vars_from_flat_cols df (grouping_cols ++ [time_col])) (buckets df)).
  assert (Hlen : forall v, In v (get_vars_from_flat_cols df (grouping_cols ++ [time_col])) ->
                 length (buckets df v) = nrows d).
  { intros v Hv. rewrite Hn. apply (lossless_buckets df time_col grouping_cols v L Hv). }
  split; [| split; [| split]].
  - rewrite <- Hvars.
    apply (finalize_agg_flat df d time_col grouping_cols (buckets df)); try assumption.
    + rewrite Hvars. intros v s Hv Hs.
      destruct (lossless_buckets df time_col grouping_cols v L Hv) as [_ [_ H]].
      destruct (H s Hs) as [H1 [H2 H3]]. split; [now apply Hc |].
      rewrite Hser by now right. exact H3.
    + rewrite Hvars. exact Hfresh.
    + rewrite Hvars. intros v b Hv.
      apply (lossless_buckets df time_col grouping_cols v L Hv).
  - apply final_columns.
  - rewrite final_table_rows by assumption.
    unfold table_rows. rewrite Hn. f_equal. apply map_ext_in.
    intros c Hin. apply Hser. now left.
  - intros v Hv. now apply final_stat_rows.
Qed.

(** ** From raw rows to final statistics *)

Lemma raw_keys_NoDup (raw : DataFrame) (time_col : string) (grouping_cols : list string) :
  raw_table raw time_col grouping_cols -> NoDup (grouping_cols ++ [time_col]).
Proof.
  intros Hraw. apply NoDup_app.
  - apply (rt_groups_distinct _ _ _ Hraw).
  - repeat constructor. intros [].
  - intros c Hc [<- | []]. apply (rt_time_fresh _ _ _ Hraw).
    now apply (rt_groups _ _ _ Hraw).
Qed.

Lemma raw_rows_timed (raw : DataFrame) (time_res : Z) (time_col : string)
  (grouping_cols : list string) (k : list cell) :
  raw_table raw time_col grouping_cols ->
  In k (map (coarse_key time_res) (table_rows raw (grouping_cols ++ [time_col]))) ->
  exists t, last k (Num NaN) = Time t.
Proof.
  intros Hraw Hk. destruct (rt_index _ _ _ Hraw) as [ts Hidx].
  apply in_map_iff in Hk as [k0 [<- Hk0]]. apply coarse_key_timed.
  unfold table_rows in Hk0. rewrite map_app in Hk0. cbn [map] in Hk0.
  rewrite (raw_time_series raw time_col grouping_cols ts Hraw Hidx) in Hk0.
  eapply rows_of_timed; eauto.
Qed.

(** What [init_agg] returns on a raw table: the table of the merged samples
    of every bucket, which is a lossless table. *)
Lemma init_agg_raw_table (raw : DataFrame) (time_res : Z) (time_col : string)
  (grouping_cols : list string) :
  raw_table raw time_col grouping_cols -> (0 < time_res)%Z ->
  let keys := grouping_cols ++ [time_col] in
  let rows := map (coarse_key time_res) (table_rows raw keys) in
  let vars := variables_of raw grouping_cols in
  let out := merged_table init_stats keys rows vars (samples raw) in
  init_agg raw time_res grouping_cols = Ok out /\
  lossless out time_col grouping_cols /\
  get_vars_from_flat_cols out keys = vars /\
  table_rows out keys = group_keys rows /\
  forall v, In v vars ->
    buckets out v =
    map (fun k => chan_merge (group_of rows (samples raw v) k)) (group_keys rows).
Proof.
  intros Hraw Hres keys rows vars out.
  destruct (rt_index _ _ _ Hraw) as [ts Hidx].
  assert (Hstats : forall s, In s lossless_stats -> In s init_stats).
  { simpl. intros s H. repeat (destruct H as [<- | H]; [tauto |]). contradiction. }
  assert (Hnd : NoDup init_stats) by (repeat constructor; simpl; intuition discriminate).
  assert (Hkeys : NoDup keys) by (apply (raw_keys_NoDup raw); assumption).
  assert (Hvs : NoDup vars) by (eapply vars_NoDup; eauto).
  assert (Hwidth : forall k, In k rows -> length k = length keys).
  { intros k Hk. eapply coarse_rows_width. exact Hk. }
  assert (Htimed : forall k, In k rows -> exists t, last k (Num NaN) = Time t).
  { intros k Hk. eapply raw_rows_timed; eauto. }
  assert (Hfresh : forall v s, In v vars -> In s init_stats ->
                     ~ In (v ++ "." ++ s)%string keys).
  { intros v s Hv _. apply (vars_In raw time_col grouping_cols) in Hv as [Hc Hg].
    exact (rt_names _ _ _ Hraw v s Hc Hg). }
  assert (Hlen : forall v, In v vars -> length (samples raw v) = length rows).
  { intros v Hv. unfold samples. rewrite length_map.
    eapply raw_var_length; eauto. }
  assert (Hpos : forall v b, In v vars -> In b (samples raw v) -> (0 < b_count b)%R).
  { intros v b _ Hb. unfold samples in Hb. apply in_map_iff in Hb as [c [<- _]].
    simpl. lra. }
  split; [eapply init_agg_raw; eauto |].
  split; [apply merged_table_lossless; try assumption; apply init_stats_no_dot |].
  split; [apply merged_vars; try assumption; apply init_stats_no_dot |].
  split; [apply merged_table_rows; try assumption; apply keys_nonempty |].
  intros v Hv. apply merged_buckets; try assumption. apply init_stats_no_dot.
Qed.

Lemma Rsum_squares_nonneg {A : Type} (f : A -> R) (l : list A) :
  (0 <= Rsum (map (fun a => f a ^ 2) l))%R.
Proof.
  induction l as [| a l IH]; [simpl; lra |].
  rewrite map_cons, Rsum_cons. pose proof (pow2_ge_0 (f a)). lra.
Qed.

(** The merge of the samples of a group is the bucket of its naive
    statistics. *)
Lemma chan_merge_samples (xs : list R) :
  chan_merge (map sample xs) =
  mkBucket (INR (length xs)) (Rsum xs)
           (Rsum (map (fun x => (x - naive_mean xs) ^ 2)%R xs))
           (MinRlist xs) (MaxRlist xs).
Proof.
  pose proof (sample_ssd xs) as Hq. unfold chan_merge in *. cbn [b_ssd] in Hq.
  rewrite Hq. rewrite !map_map. cbn [sample b_count b_sum b_min b_max].
  rewrite !map_id, Rsum_ones. reflexivity.
Qed.

Lemma final_cells_samples (xs : list R) :
  xs <> [] ->
  map (fun s => Num (final_stat s (chan_merge (map sample xs)))) final_stats =
  naive_cells xs.
Proof.
  intros Hne. rewrite chan_merge_samples. unfold naive_cells.
  cbn [map final_stats]. unfold final_stat. cbn [String.eqb Ascii.eqb Bool.eqb].
  cbn [b_sum b_count b_ssd b_min b_max]. f_equal. f_equal.
  unfold naive_std. destruct (length xs <=? 1)%nat eqn:E.
  - apply Nat.leb_le in E. destruct xs as [| x [| y xs]]; [congruence | | simpl in E; lia].
    f_equal.
    assert (H1 : (INR (length [x]) - 1 = 0)%R) by (simpl; lra).
    assert (H2 : Rsum (map (fun x0 => (x0 - naive_mean [x]) ^ 2)%R [x]) = 0%R).
    { unfold naive_mean. simpl. field. }
    rewrite H1, H2. rewrite ndiv_0_0. reflexivity.
  - apply Nat.leb_gt in E. f_equal.
    assert (H0 : (2 <= INR (length xs))%R) by (apply (le_INR 2); lia).
    rewrite ndiv_Fin by lra. unfold nroot.
    pose proof (Rsum_squares_nonneg (fun x => (x - naive_mean xs)%R) xs) as Hq.
    assert (Hge : (0 <= Rsum (map (fun x => (x - naive_mean xs) ^ 2) xs)
                        / (INR (length xs) - 1))%R).
    { apply Rmult_le_pos; [assumption |]. left. apply Rinv_0_lt_compat. lra. }
    destruct (Rcompare_spec
                (Rsum (map (fun x => (x - naive_mean xs) ^ 2)%R xs) / (INR (length xs) - 1)) 0);
      try reflexivity. lra.
Qed.

Lemma samples_group (raw : DataFrame) (rows : list (list cell)) (v : string)
  (k : list cell) :
  group_of rows (samples raw v) k =
  map sample (map real_of (group_of rows (series raw v) k)).
Proof. unfold samples. now rewrite group_of_map, map_map. Qed.

Lemma raw_group_nonempty (raw : DataFrame) (time_res : Z) (time_col : string)
  (grouping_cols : list string) (v : string) (k : list cell) :
  raw_table raw time_col grouping_cols ->
  In v (variables_of raw grouping_cols) ->
  In k (group_keys (map (coarse_key time_res)
                        (table_rows raw (grouping_cols ++ [time_col])))) ->
  map real_of
      (group_of (map (coarse_key time_res)
                     (table_rows raw (grouping_cols ++ [time_col])))
                (series raw v) k) <> [].
Proof.
  intros Hraw Hv Hk. destruct (rt_index _ _ _ Hraw) as [ts Hidx].
  apply map_nonempty. apply group_of_nonempty.
  - eapply raw_var_length; eauto.
  - now apply group_keys_In in Hk.
Qed.

Lemma lossless_stat_rows (df : DataFrame) (time_col : string)
  (grouping_cols : list string) (v : string) :
  lossless df time_col grouping_cols ->
  In v (get_vars_from_flat_cols df (grouping_cols ++ [time_col])) ->
  table_rows df (stat_cols lossless_stats v) = map bucket_cells (buckets df v).
Proof.
  intros L Hv. destruct (lossless_buckets df time_col grouping_cols v L Hv)
    as [Hlen [_ Hs]].
  unfold table_rows at 1. unfold stat_cols. rewrite map_map.
  rewrite (map_ext_in _
    (fun s => map (fun b => Num (Fin (bucket_stat s b))) (buckets df v)))
    by (intros s Hin; apply (Hs s Hin)).
  rewrite <- (map_map (fun s b => Num (Fin (bucket_stat s b)))
                      (fun f => map f (buckets df v))).
  rewrite <- Hlen, rows_of_maps. apply map_ext. intros b. now rewrite map_map.
Qed.

(** The two tables of the round trip, row by row: the lossless table holds
    the merge of the samples of each group, the final one their naive
    statistics. *)
Lemma init_finalize_rows (raw : DataFrame) (time_res : Z) (time_col : string)
  (grouping_cols : list string) :
  raw_table raw time_col grouping_cols -> (0 < time_res)%Z ->
  let keys := grouping_cols ++ [time_col] in
  let rows := map (coarse_key time_res) (table_rows raw keys) in
  exists lossless_agg final,
    init_agg raw time_res grouping_cols = Ok lossless_agg /\
    finalize_agg lossless_agg time_col grouping_cols = Ok final /\
    table_rows final keys = group_keys rows /\
    (forall v k,
       In v (variables_of raw grouping_cols) -> In k (group_keys rows) ->
       rows_at lossless_agg keys k (stat_cols lossless_stats v) =
       [bucket_cells
          (chan_merge (map sample (map real_of (group_of rows (series raw v) k))))]) /\
    (forall v k,
       In v (variables_of raw grouping_cols) -> In k (group_keys rows) ->
       rows_at final keys k (stat_cols final_stats v) =
       [naive_cells (map real_of (group_of rows (series raw v) k))]).
Proof.
  intros Hraw Hres keys rows.
  destruct (init_agg_raw_table raw time_res time_col grouping_cols Hraw Hres)
    as [Hinit [L [Hvars [Hrows Hb]]]].
  fold keys in Hinit, L, Hvars, Hrows, Hb. fold rows in Hinit, L, Hvars, Hrows, Hb.
  set (vars := variables_of raw grouping_cols) in *.
  set (out := merged_table init_stats keys rows vars (samples raw)) in *.
  destruct (finalize_agg_lossless out time_col grouping_cols L)
    as [final [Hfin [Hcols [Hfrows Hfstat]]]].
  { fold keys. rewrite Hvars. intros v s Hv _.
    apply (vars_In raw time_col grouping_cols) in Hv as [Hc Hg].
    exact (rt_names _ _ _ Hraw v s Hc Hg). }
  fold keys in Hfrows, Hfstat, Hcols. rewrite Hvars in Hfstat. rewrite Hrows in Hfrows.
  exists out, final. split; [exact Hinit |]. split; [exact Hfin |].
  split; [exact Hfrows |]. split.
  - intros v k Hv Hk. unfold rows_at.
    rewrite Hrows, (lossless_stat_rows out time_col grouping_cols v L)
      by (fold keys; now rewrite Hvars).
    rewrite (Hb v Hv), map_map.
    rewrite (group_of_unique (group_keys rows)
               (fun k => bucket_cells (chan_merge (group_of rows (samples raw v) k)))
               k (group_keys_NoDup rows) Hk).
    now rewrite samples_group.
  - intros v k Hv Hk. unfold rows_at. rewrite Hfrows, (Hfstat v Hv), (Hb v Hv), map_map.
    rewrite (group_of_unique (group_keys rows)
               (fun k => map (fun s => Num (final_stat s
                          (chan_merge (group_of rows (samples raw v) k)))) final_stats)
               k (group_keys_NoDup rows) Hk).
    f_equal. rewrite samples_group. apply final_cells_samples.
    now apply (raw_group_nonempty raw time_res time_col grouping_cols).
Qed.

(** Under exact arithmetic, on raw rows held in one partition, finalizing
    what [init_agg] returns gives, for every group of rows with the same
    grouping values and the same bucket and for every variable, the mean,
    the sample standard deviation, the minimum and the maximum computed
    directly over the raw values of the group. *)
Lemma finalize_init_agg_naive (raw : DataFrame) (time_res : Z) (time_col : string)
  (grouping_cols : list string) :
  raw_table raw time_col grouping_cols -> (0 < time_res)%Z ->
  exists lossless_agg final,
    init_agg raw time_res grouping_cols = Ok lossless_agg /\
    finalize_agg lossless_agg time_col grouping_cols = Ok final /\
    table_rows final (grouping_cols ++ [time_col]) =
      group_keys (map (coarse_key time_res)
                      (table_rows raw (grouping_cols ++ [time_col]))) /\
    forall v k,
      In v (variables_of raw grouping_cols) ->
      In k (group_keys (map (coarse_key time_res)
                            (table_rows raw (grouping_cols ++ [time_col])))) ->
      rows_at final (grouping_cols ++ [time_col]) k (stat_cols final_stats v) =
      [naive_cells
         (map real_of
              (group_of (map (coarse_key time_res)
                             (table_rows raw (grouping_cols ++ [time_col])))
                        (series raw v) k))].
Proof.
  intros Hraw Hres.
  destruct (init_finalize_rows raw time_res time_col grouping_cols Hraw Hres)
    as [out [final [Hinit [Hfin [Hrows [_ Hstat]]]]]].
  exists out, final. repeat split; assumption.
Qed.

(** C5: for a group with exactly one raw sample [x], the lossless row of
    [init_agg] is count 1, sum [x], sum_sq_diff 0, min [x] and max [x], and
    the final row is mean [x], std not-a-number, min [x] and max [x]. *)
Theorem single_sample_group (raw : DataFrame) (time_res : Z) (time_col : string)
  (grouping_cols : list string) (v : string) (k : list cell) (x : R) :
  raw_table raw time_col grouping_cols -> (0 < time_res)%Z ->
  In v (variables_of raw grouping_cols) ->
  group_of (map (coarse_key time_res) (table_rows raw (grouping_cols ++ [time_col])))
           (series raw v) k = [Num (Fin x)] ->
  key_ok k = true ->
  exists lossless_agg final,
    init_agg raw time_res grouping_cols = Ok lossless_agg /\
    finalize_agg lossless_agg time_col grouping_cols = Ok final /\
    rows_at lossless_agg (grouping_cols ++ [time_col]) k (stat_cols lossless_stats v) =
      [[Num (Fin 1); Num (Fin x); Num (Fin 0); Num (Fin x); Num (Fin x)]] /\
    rows_at final (grouping_cols ++ [time_col]) k (stat_cols final_stats v) =
      [[Num (Fin x); Num NaN; Num (Fin x); Num (Fin x)]].
Proof.
  intros Hraw Hres Hv Hgrp Hok.
  destruct (init_finalize_rows raw time_res time_col grouping_cols Hraw Hres)
    as [out [final [Hinit [Hfin [_ [Hlrows Hfstat]]]]]].
  assert (Hk : In k (group_keys (map (coarse_key time_res)
                                     (table_rows raw (grouping_cols ++ [time_col]))))).
  { apply group_keys_In. split; [| assumption].
    destruct (in_dec key_dec k (map (coarse_key time_res)
                                   (table_rows raw (grouping_cols ++ [time_col]))))
      as [Hin | Hn]; [assumption |].
    exfalso. unfold group_of in Hgrp.
    rewrite filter_none in Hgrp; [discriminate |].
    intros [k' c] Hp. cbn [fst]. apply key_eqb_neq. intros ->.
    apply Hn. now apply in_combine_l in Hp. }
  exists out, final. split; [exact Hinit |]. split; [exact Hfin |]. split.
  - rewrite (Hlrows v k Hv Hk), Hgrp. f_equal.
    change (map real_of [Num (Fin x)]) with [x].
    rewrite (chan_merge_samples [x]). unfold bucket_cells.
    cbn [b_count b_sum b_ssd b_min b_max length map MinRlist MaxRlist].
    assert (Hq : ((x - naive_mean [x]) ^ 2 + 0 = 0)%R)
      by (unfold naive_mean; simpl; field).
    cbn [Rsum fold_right INR]. rewrite Hq, Rplus_0_r. reflexivity.
  - rewrite (Hfstat v k Hv Hk), Hgrp.
    change (map real_of [Num (Fin x)]) with [x].
    unfold naive_cells, naive_std, naive_mean.
    cbn [length Nat.leb map MinRlist MaxRlist Rsum fold_right INR].
    unfold Rdiv. now rewrite Rplus_0_r, Rinv_1, Rmult_1_r.
Qed.

(** ** The scenario, evaluated *)

Ltac eval_frame :=
  cbv -[Rplus Rmult Rminus Rdiv Rinv Ropp IZR Rle_dec Rlt_dec Rmin Rmax sqrt
        total_order_T Rcompare INR].

Ltac decide_compare :=
  repeat match goal with
  | |- context [Rcompare ?a 0%R] =>
      first [ rewrite (Rcompare_0_pos a) by lra
            | rewrite (Rcompare_0_neg a) by lra
            | replace a with 0%R by lra; rewrite Rcompare_0_eq ]
  end.

Lemma cell_Fin (a b : R) : a = b -> Num (Fin a) = Num (Fin b).
Proof. now intros ->. Qed.

Lemma scenario_raw : raw_table scenario "t" ["key"].
Proof.
  constructor.
  - exists [0%Z; 5%Z; 300%Z]. reflexivity.
  - simpl. intuition discriminate.
  - repeat constructor; simpl; intuition discriminate.
  - repeat constructor; simpl; intuition.
  - simpl. intros c [<- | []]. now left.
  - intros c [<- | [<- | []]]; reflexivity.
  - intros v [<- | [<- | []]] Hn; [exfalso; apply Hn; now left |].
    exists [10%R; 20%R; 30%R]. reflexivity.
  - intros v s [<- | [<- | []]] Hn; [exfalso; apply Hn; now left |].
    simpl. intros [H | [H | []]]; discriminate H.
Qed.

Lemma scenario_init : init_agg scenario 300 ["key"] = Ok scenario_lossless.
Proof.
  rewrite (proj1 (init_agg_raw_table scenario 300 "t" ["key"] scenario_raw eq_refl)).
  apply (f_equal Ok). eval_frame. unfold scenario_lossless.
  repeat (apply f_equal2; [| try reflexivity]); try reflexivity.
  all: apply cell_Fin;
    first [ lra | field
          | unfold Rmax; destruct (Rle_dec 10 20); lra
          | unfold Rmin; destruct (Rle_dec 10 20); lra ].
Qed.

Lemma scenario_is_lossless : lossless scenario_lossless "t" ["key"].
Proof.
  destruct (init_agg_raw_table scenario 300 "t" ["key"] scenario_raw eq_refl)
    as [Hinit [L _]].
  pose proof scenario_init as E. rewrite Hinit in E.
  assert (E' : merged_table init_stats (["key"] ++ ["t"])
                 (map (coarse_key 300) (table_rows scenario (["key"] ++ ["t"])))
                 (variables_of scenario ["key"]) (samples scenario) =
               scenario_lossless) by congruence.
  exact (eq_ind _ (fun d => lossless d "t" ["key"]) L _ E').
Qed.

Lemma scenario_finalize :
  finalize_agg scenario_lossless "t" ["key"] = Ok scenario_final.
Proof.
  eval_frame. decide_compare.
  replace (50 / (2 + - (1)))%R with 50%R by field.
  rewrite (Rcompare_0_pos 50) by lra.
  replace (30 / 2)%R with 15%R by field.
  replace (30 / 1)%R with 30%R by field.
  reflexivity.
Qed.

(** C6: on the three rows (00:00:00, A, 10), (00:00:05, A, 20) and
    (00:05:00, A, 30), [init_agg] at five minutes with grouping key [key]
    returns exactly two buckets, 00:00:00 with count 2, sum 30, sum_sq_diff
    50, min 10, max 20 and 00:05:00 with count 1, sum 30, sum_sq_diff 0, min
    and max 30; [finalize_agg] on that table returns mean 15, std sqrt 50,
    min 10, max 20 for the first and mean 30, std not-a-number, min and max
    30 for the second. *)
Theorem scenario_buckets :
  init_agg scenario 300 ["key"] = Ok scenario_lossless /\
  finalize_agg scenario_lossless "t" ["key"] = Ok scenario_final.
Proof. split; [exact scenario_init | exact scenario_finalize]. Qed.

Lemma single_sample_group_witness :
  exists lossless_agg final,
    init_agg scenario 300 ["key"] = Ok lossless_agg /\
    finalize_agg lossless_agg "t" ["key"] = Ok final /\
    rows_at lossless_agg (["key"] ++ ["t"]) [Str "A"; Time 300]
            (stat_cols lossless_stats "v") =
      [[Num (Fin 1); Num (Fin 30); Num (Fin 0); Num (Fin 30); Num (Fin 30)]] /\
    rows_at final (["key"] ++ ["t"]) [Str "A"; Time 300] (stat_cols final_stats "v") =
      [[Num (Fin 30); Num NaN; Num (Fin 30); Num (Fin 30)]].
Proof.
  apply (single_sample_group scenario 300 "t" ["key"] "v" [Str "A"; Time 300] 30
           scenario_raw eq_refl).
  - simpl. tauto.
  - reflexivity.
  - reflexivity.
Defined.

(** ** The column layout of a coarsened table *)




(** ** Picking rows by a mask *)

Lemma pick_nil {A : Type} (mask : list bool) : pick mask (@nil A) = [].
Proof. now destruct mask. Qed.

Lemma pick_cons {A : Type} (b : bool) (mask : list bool) (x : A) (l : list A) :
  pick (b :: mask) (x :: l) = if b then x :: pick mask l else pick mask l.
Proof. now destruct b. Qed.

Lemma pick_map {A B : Type} (f : A -> B) (mask : list bool) (l : list A) :
  pick mask (map f l) = map f (pick mask l).
Proof.
  revert l. induction mask as [| b mask IH]; intros [| x l]; try reflexivity.
  change (map f (x :: l)) with (f x :: map f l). rewrite !pick_cons, IH.
  now destruct b.
Qed.

Lemma pick_length {A : Type} (mask : list bool) (l : list A) :
  length mask = length l ->
  length (pick mask l) = length (filter (fun b => b) mask).
Proof.
  revert l. induction mask as [| b mask IH]; intros [| x l] H; try discriminate;
    [reflexivity |].
  rewrite pick_cons. injection H as H. destruct b; simpl; now rewrite IH.
Qed.

Lemma pick_repeat {A : Type} (x : A) (mask : list bool) :
  pick mask (repeat x (length mask)) = repeat x (length (filter (fun b => b) mask)).
Proof.
  induction mask as [| b mask IH]; [reflexivity |].
  cbn [length repeat]. rewrite pick_cons, IH. now destruct b.
Qed.

Lemma pick_zipWith {A B C : Type} (f : A -> B -> C) (mask : list bool)
  (a : list A) (b : list B) :
  zipWith f (pick mask a) (pick mask b) = pick mask (zipWith f a b).
Proof.
  revert a b. induction mask as [| h mask IH]; intros a b; [reflexivity |].
  destruct a as [| x a]; [now rewrite !pick_nil |].
  destruct b as [| y b].
  { rewrite pick_nil. unfold zipWith. rewrite combine_nil. reflexivity. }
  change (zipWith f (x :: a) (y :: b)) with (f x y :: zipWith f a b).
  rewrite !pick_cons, <- IH. now destruct h.
Qed.

Lemma rows_of_pick (mask : list bool) (cols : list (list cell)) :
  rows_of (length (filter (fun b => b) mask)) (map (pick mask) cols) =
  pick mask (rows_of (length mask) cols).
Proof.
  induction cols as [| c cols IH]; cbn [map rows_of].
  - now rewrite pick_repeat.
  - now rewrite IH, pick_zipWith.
Qed.

Lemma pick_In {A : Type} (mask : list bool) (l : list A) (x : A) :
  In x (pick mask l) -> In x l.
Proof.
  unfold pick. intros H. apply in_map_iff in H as [[b y] [<- H]].
  apply filter_In in H as [H _]. now apply in_combine_r in H.
Qed.

Lemma pick_negb {A : Type} (mask : list bool) (l : list A) :
  pick (map negb mask) l =
  map snd (filter (fun p => negb (fst p)) (combine mask l)).
Proof.
  revert l. induction mask as [| b mask IH]; intros [| x l]; try reflexivity.
  change (map negb (b :: mask)) with (negb b :: map negb mask).
  rewrite pick_cons, IH. now destruct b.
Qed.

(** ** The rows of a raw table where a mask holds *)

Lemma lookup_map_values {V W : Type} (f : V -> W) (name : string)
  (d : list (string * V)) :
  lookup name (map (fun c => (fst c, f (snd c))) d) = option_map f (lookup name d).
Proof.
  induction d as [| [k v] d IH]; [reflexivity |]. cbn [map lookup fst snd].
  now destruct (String.eqb k name).
Qed.

Lemma lookup_level_map_values (f : list cell -> list cell) (name : string)
  (idx : list (option string * list cell)) :
  lookup_level name (map (fun l => (fst l, f (snd l))) idx) =
  option_map f (lookup_level name idx).
Proof.
  induction idx as [| [[k |] v] idx IH]; [reflexivity | |]; cbn [map lookup_level fst snd].
  - now destruct (String.eqb k name).
  - exact IH.
Qed.

Section RowsWhere.

Variables (mask : list bool) (df : DataFrame).

Local Abbreviation picked :=
  (mkDF (map (fun l => (fst l, pick mask (snd l))) (index df))
        (map (fun c => (fst c, pick mask (snd c))) (data df))).

Lemma picked_columns : columns picked = columns df.
Proof. unfold columns. cbn [data]. rewrite map_map. reflexivity. Qed.

Lemma picked_series (c : string) : series picked c = pick mask (series df c).
Proof.
  unfold series. cbn [data index].
  rewrite lookup_map_values, lookup_level_map_values.
  destruct (lookup c (data df)); [reflexivity |]. cbn [option_map].
  destruct (lookup_level c (index df)); [reflexivity |]. cbn [option_map].
  now rewrite pick_nil.
Qed.

End RowsWhere.

Lemma rows_where_raw (mask : list bool) (raw : DataFrame) (time_col : string)
  (grouping_cols : list string) :
  raw_table raw time_col grouping_cols -> length mask = nrows raw ->
  exists part,
    rows_where mask raw = Ok part /\
    raw_table part time_col grouping_cols /\
    columns part = columns raw /\
    (forall c, series part c = pick mask (series raw c)) /\
    table_rows part (grouping_cols ++ [time_col]) =
      pick mask (table_rows raw (grouping_cols ++ [time_col])).
Proof.
  intros Hraw Hlen. unfold rows_where. rewrite Hlen, Nat.eqb_refl.
  eexists. split; [reflexivity |].
  destruct (rt_index _ _ _ Hraw) as [ts Hidx].
  assert (Hn : nrows raw = length ts).
  { unfold nrows. rewrite Hidx. now rewrite length_map. }
  assert (Hcount : nrows (mkDF (map (fun l => (fst l, pick mask (snd l))) (index raw))
                              (map (fun c => (fst c, pick mask (snd c))) (data raw))) =
                   length (filter (fun b => b) mask)).
  { unfold nrows. cbn [index]. rewrite Hidx. cbn [map fst snd].
    apply pick_length. rewrite length_map. congruence. }
  split; [| split; [apply picked_columns | split; [apply picked_series |]]].
  - constructor.
    + exists (pick mask ts). cbn [index]. rewrite Hidx. cbn [map fst snd].
      now rewrite pick_map.
    + rewrite picked_columns. apply (rt_time_fresh _ _ _ Hraw).
    + rewrite picked_columns. apply (rt_columns _ _ _ Hraw).
    + apply (rt_groups_distinct _ _ _ Hraw).
    + rewrite picked_columns. apply (rt_groups _ _ _ Hraw).
    + intros c Hc. rewrite picked_columns in Hc. rewrite picked_series, Hcount.
      apply pick_length. rewrite (rt_lengths _ _ _ Hraw c Hc). exact Hlen.
    + intros v Hv Hg. rewrite picked_columns in Hv.
      destruct (rt_values _ _ _ Hraw v Hv Hg) as [xs Hxs].
      exists (pick mask xs). now rewrite picked_series, Hxs, pick_map.
    + intros v s Hv Hg. rewrite picked_columns in Hv.
      apply (rt_names _ _ _ Hraw v s Hv Hg).
  - unfold table_rows. rewrite Hcount, <- Hlen, <- rows_of_pick. f_equal.
    rewrite map_map. apply map_ext. intros c. apply picked_series.
Qed.

(** ** Stacking two tables *)

Lemma lookup_level_present (c : string) (idx : list (option string * list cell)) :
  In (Some c) (map fst idx) -> lookup_level c idx <> None.
Proof.
  induction idx as [| [[k |] v] idx IH]; cbn [map fst In lookup_level].
  - contradiction.
  - intros [E | H].
    + injection E as ->. now rewrite String.eqb_refl.
    + destruct (String.eqb k c); [discriminate | now apply IH].
  - intros [E | H]; [discriminate | now apply IH].
Qed.

Lemma zipWith_cons {A B C : Type} (f : A -> B -> C) (x : A) (a : list A)
  (y : B) (b : list B) :
  zipWith f (x :: a) (y :: b) = f x y :: zipWith f a b.
Proof. reflexivity. Qed.

Lemma zipWith_app {A B C : Type} (f : A -> B -> C) (a1 a2 : list A) (b1 b2 : list B) :
  length a1 = length b1 ->
  zipWith f (a1 ++ a2) (b1 ++ b2) = zipWith f a1 b1 ++ zipWith f a2 b2.
Proof.
  revert b1. induction a1 as [| x a1 IH]; intros [| y b1] H; try discriminate;
    [reflexivity |].
  injection H as H. cbn [app]. rewrite !zipWith_cons, IH by assumption. reflexivity.
Qed.

Lemma rows_of_app (n1 n2 : nat) (names : list string) (s1 s2 : string -> list cell) :
  (forall c, In c names -> length (s1 c) = n1) ->
  rows_of (n1 + n2) (map (fun c => s1 c ++ s2 c) names) =
  rows_of n1 (map s1 names) ++ rows_of n2 (map s2 names).
Proof.
  induction names as [| c names IH]; intros H; cbn [map rows_of].
  - apply repeat_app.
  - rewrite IH by (intros c' Hc'; apply H; now right).
    apply zipWith_app. rewrite rows_of_length; [apply H; now left |].
    apply Forall_forall. intros l Hl. apply in_map_iff in Hl as [c' [<- Hc']].
    apply H. now right.
Qed.

Lemma lookup_map_keyed {V W : Type} (f : string -> V -> W) (name : string)
  (d : list (string * V)) :
  lookup name (map (fun c => (fst c, f (fst c) (snd c))) d) =
  option_map (f name) (lookup name d).
Proof.
  induction d as [| [k v] d IH]; [reflexivity |]. cbn [map lookup fst snd].
  destruct (String.eqb k name) eqn:E; [| exact IH].
  apply String.eqb_eq in E. now subst k.
Qed.

Section ConcatRows.

Variables (a b : DataFrame) (keys : list string).

Hypothesis Hne : keys <> [].
Hypothesis Hia : map fst (index a) = map Some keys.
Hypothesis Hib : map fst (index b) = map Some keys.
Hypothesis Hcols : columns b = columns a.

Local Abbreviation ab := (concat_rows a b).

Lemma concat_columns_same : columns ab = columns a.
Proof.
  unfold columns, concat_rows. cbn [data]. rewrite map_app, !map_map. cbn [fst].
  rewrite filter_none, app_nil_r; [reflexivity |].
  intros [k v] Hin. cbn [fst]. apply negb_false_iff. apply mem_In.
  fold (columns a). rewrite <- Hcols. unfold columns.
  apply in_map_iff. now exists (k, v).
Qed.

Lemma concat_index_names : map fst (index ab) = map Some keys.
Proof.
  unfold concat_rows. cbn [index]. clear Hne Hcols.
  revert Hia Hib. generalize (index a) (index b). induction keys as [| k ks IH];
    intros [| [na la] ia] [| [nb lb] ib] Ha Hb; try discriminate; [reflexivity |].
  cbn [map fst] in Ha, Hb. injection Ha as -> Ha. injection Hb as -> Hb.
  rewrite zipWith_cons. cbn [map fst snd]. rewrite String.eqb_refl.
  f_equal. now apply IH.
Qed.

Lemma concat_nrows : nrows ab = (nrows a + nrows b)%nat.
Proof.
  unfold nrows, concat_rows. cbn [index].
  destruct keys as [| k ks]; [congruence |].
  destruct (index a) as [| [na la] ia]; [discriminate |].
  destruct (index b) as [| [nb lb] ib]; [discriminate |].
  rewrite zipWith_cons. cbn [snd]. apply length_app.
Qed.

Lemma concat_level (c : string) :
  lookup_level c (index ab) =
  match lookup_level c (index a), lookup_level c (index b) with
  | Some x, Some y => Some (x ++ y)
  | _, _ => None
  end.
Proof.
  unfold concat_rows. cbn [index]. clear Hne Hcols.
  revert Hia Hib. generalize (index a) (index b). induction keys as [| k ks IH];
    intros [| [na la] ia] [| [nb lb] ib] Ha Hb; try discriminate; [reflexivity |].
  cbn [map fst] in Ha, Hb. injection Ha as -> Ha. injection Hb as -> Hb.
  rewrite zipWith_cons. cbn [lookup_level fst snd]. rewrite String.eqb_refl.
  cbn [lookup_level]. destruct (String.eqb k c); [reflexivity |]. now apply IH.
Qed.

Lemma concat_series_column (c : string) :
  In c (columns a) -> series ab c = series a c ++ series b c.
Proof.
  intros Hc. assert (Hcb : In c (columns b)) by now rewrite Hcols.
  apply series_of_lookup. unfold concat_rows. cbn [data].
  rewrite lookup_app.
  rewrite (lookup_map_keyed
             (fun k v => v ++ match lookup k (data b) with
                              | Some x => x
                              | None => repeat (Num NaN) (nrows b)
                              end)).
  rewrite (series_lookup a c Hc). cbn [option_map].
  now rewrite (series_lookup b c Hcb).
Qed.

Lemma concat_series_key (c : string) :
  In c keys -> ~ In c (columns a) -> series ab c = series a c ++ series b c.
Proof.
  intros Hc Hn. assert (Hnb : ~ In c (columns b)) by now rewrite Hcols.
  assert (Hnab : ~ In c (columns ab)) by now rewrite concat_columns_same.
  unfold series.
  rewrite (proj2 (lookup_None c (data ab)) Hnab).
  rewrite (proj2 (lookup_None c (data a)) Hn).
  rewrite (proj2 (lookup_None c (data b)) Hnb).
  rewrite concat_level.
  destruct (lookup_level c (index a)) as [x |] eqn:Ea;
    destruct (lookup_level c (index b)) as [y |] eqn:Eb; try reflexivity.
  - exfalso. revert Eb. apply lookup_level_present. rewrite Hib. now apply in_map.
  - exfalso. revert Ea. apply lookup_level_present. rewrite Hia. now apply in_map.
Qed.

End ConcatRows.

Lemma get_vars_same_columns (a b : DataFrame) (not_vars : list string) :
  columns b = columns a ->
  get_vars_from_flat_cols b not_vars = get_vars_from_flat_cols a not_vars.
Proof. unfold get_vars_from_flat_cols. now intros ->. Qed.

Lemma zipWith_Forall {A B C : Type} (f : A -> B -> C) (P : A -> Prop)
  (Q : B -> Prop) (R : C -> Prop) (a : list A) (b : list B) :
  (forall x y, P x -> Q y -> R (f x y)) ->
  Forall P a -> Forall Q b -> Forall R (zipWith f a b).
Proof.
  intros H Ha. revert b. induction Ha as [| x a Hx Ha IH]; intros b Hb; [constructor |].
  destruct Hb as [| y b Hy Hb]; [constructor |].
  rewrite zipWith_cons. constructor; [now apply H | now apply IH].
Qed.

Section ConcatLossless.

Variables (a b : DataFrame) (time_col : string) (grouping_cols : list string).

Local Abbreviation keys := (grouping_cols ++ [time_col]).
Local Abbreviation ab := (concat_rows a b).

Hypothesis La : lossless a time_col grouping_cols.
Hypothesis Lb : lossless b time_col grouping_cols.
Hypothesis Hia : map fst (index a) = map Some keys.
Hypothesis Hib : map fst (index b) = map Some keys.
Hypothesis Hfresh : forall c, In c keys -> ~ In c (columns a).
Hypothesis Hcols : columns b = columns a.

Lemma concat_series (c : string) :
  In c keys \/ In c (columns a) -> series ab c = series a c ++ series b c.
Proof.
  intros [Hc | Hc].
  - apply (concat_series_key a b keys); auto.
  - now apply concat_series_column.
Qed.

Lemma concat_table_rows (names : list string) :
  (forall c, In c names -> In c keys \/ In c (columns a)) ->
  table_rows ab names = table_rows a names ++ table_rows b names.
Proof.
  intros H. unfold table_rows.
  rewrite (concat_nrows a b keys (keys_nonempty _ _) Hia Hib).
  rewrite (map_ext_in (series ab) (fun c => series a c ++ series b c))
    by (intros c Hc; apply concat_series; now apply H).
  apply rows_of_app. intros c Hc. destruct (H c Hc) as [Hk | Hk].
  - now apply (lossless_key_length a time_col grouping_cols).
  - now apply (ll_lengths _ _ _ La).
Qed.

Lemma concat_vars :
  get_vars_from_flat_cols ab keys = get_vars_from_flat_cols a keys.
Proof. apply get_vars_same_columns. now apply concat_columns_same. Qed.

Lemma concat_buckets (v : string) :
  In v (get_vars_from_flat_cols a keys) -> buckets ab v = buckets a v ++ buckets b v.
Proof.
  intros Hv. unfold buckets. rewrite concat_table_rows; [apply map_app |].
  intros c Hc. right. apply stat_cols_In in Hc as [s [Hs ->]].
  now apply (lossless_buckets a time_col grouping_cols v La Hv).
Qed.

Lemma concat_rows_lossless : lossless ab time_col grouping_cols.
Proof.
  assert (Hn : nrows ab = (nrows a + nrows b)%nat)
    by (apply (concat_nrows a b keys); auto using keys_nonempty).
  assert (Hc : columns ab = columns a) by now apply concat_columns_same.
  constructor.
  - intros E. pose proof (concat_index_names a b keys Hia Hib) as H.
    rewrite E in H. destruct grouping_cols; discriminate.
  - apply (ll_keys _ _ _ La).
  - right. split; [now apply concat_index_names |].
    intros c Hk. rewrite Hc. now apply Hfresh.
  - rewrite Hc. apply (ll_columns _ _ _ La).
  - rewrite Hn. unfold concat_rows. cbn [index].
    eapply zipWith_Forall; [| apply (ll_levels _ _ _ La) | apply (ll_levels _ _ _ Lb)].
    intros x y Hx Hy. cbn beta in Hx, Hy. cbn [snd]. rewrite length_app. congruence.
  - intros c Hin. rewrite Hc in Hin. rewrite concat_series by now right.
    rewrite length_app, Hn. f_equal.
    + now apply (ll_lengths _ _ _ La).
    + apply (ll_lengths _ _ _ Lb). now rewrite Hcols.
  - destruct (ll_time _ _ _ La) as [ta Hta]. destruct (ll_time _ _ _ Lb) as [tb Htb].
    exists (ta ++ tb). rewrite concat_series.
    + now rewrite Hta, Htb, map_app.
    + left. apply in_or_app. right. now left.
  - intros v Hv. rewrite concat_vars in Hv.
    assert (Hvb : In v (get_vars_from_flat_cols b keys))
      by now rewrite (get_vars_same_columns a b keys Hcols).
    destruct (ll_stats _ _ _ La v Hv) as [bsa [Hpa Hsa]].
    destruct (ll_stats _ _ _ Lb v Hvb) as [bsb [Hpb Hsb]].
    exists (bsa ++ bsb). split.
    + intros x Hx. apply in_app_or in Hx as [Hx | Hx]; auto.
    + intros s Hs. destruct (Hsa s Hs) as [H1 [H2 H3]]. destruct (Hsb s Hs) as [_ [_ H4]].
      split; [now rewrite Hc |]. split; [assumption |].
      rewrite concat_series by now right. now rewrite H3, H4, map_app.
Qed.

End ConcatLossless.

(** ** Merging the two halves of a split *)

Lemma filter_twice {A : Type} (p q : A -> bool) (l : list A) :
  filter p (filter q l) = filter (fun x => q x && p x) l.
Proof.
  induction l as [| x l IH]; [reflexivity |]. cbn [filter].
  destruct (q x); cbn [filter andb]; [destruct (p x) |]; now rewrite IH.
Qed.

Lemma group_of_app {A : Type} (k1 k2 : list (list cell)) (l1 l2 : list A)
  (k : list cell) :
  length k1 = length l1 ->
  group_of (k1 ++ k2) (l1 ++ l2) k = group_of k1 l1 k ++ group_of k2 l2 k.
Proof.
  intros H. unfold group_of. now rewrite combine_app_eq, filter_app, map_app.
Qed.

Section PartitionMerge.

Variables (r R : Z) (base : list (bool * (list cell * bucket))).

Hypothesis Hr : (0 < r)%Z.
Hypothesis HR : (0 < R)%Z.
Hypothesis Hdiv : (r | R)%Z.
Hypothesis Hrow : forall x, In x base -> fst (snd x) <> [].
Hypothesis Hpos : forall x, In x base -> (0 < b_count (snd (snd x)))%R.

Local Abbreviation fine := (fun x : bool * (list cell * bucket) => coarse_key r (fst (snd x))).
Local Abbreviation beta := (fun x : bool * (list cell * bucket) => snd (snd x)).
Local Abbreviation here := (fun x : bool * (list cell * bucket) => fst x).
Local Abbreviation there := (fun x : bool * (list cell * bucket) => negb (fst x)).
Local Abbreviation gk1 := (group_keys (map fine (filter here base))).
Local Abbreviation gk2 := (group_keys (map fine (filter there base))).
Local Abbreviation rows := (map (fun x => coarse_key R (fst (snd x))) base).
Local Abbreviation tagged :=
  (fun x : bool * (list cell * bucket) =>
     Str (if fst x then "a" else "b") :: coarse_key r (fst (snd x))).
Local Abbreviation parts :=
  (fun k => map (cons (Str "a")) (filter (fun j => key_eqb (coarse_key R j) k) gk1) ++
            map (cons (Str "b")) (filter (fun j => key_eqb (coarse_key R j) k) gk2)).

Lemma fine_key_ok (x : bool * (list cell * bucket)) :
  In x base -> key_ok (coarse_key r (fst (snd x))) = key_ok (coarse_key R (fst (snd x))).
Proof. intros Hx. rewrite !key_ok_coarse_key; auto. Qed.

Lemma fine_in_half (x : bool * (list cell * bucket)) :
  In x base -> key_ok (coarse_key R (fst (snd x))) = true ->
  if fst x then In (fine x) gk1 else In (fine x) gk2.
Proof.
  intros Hx Hok. rewrite <- fine_key_ok in Hok by assumption.
  destruct (fst x) eqn:E; apply group_keys_In; (split; [| assumption]);
    apply (in_map fine); apply filter_In; (split; [assumption |]); cbn beta;
    now rewrite E.
Qed.

Lemma split_keys :
  group_keys (map (coarse_key R) (gk1 ++ gk2)) = group_keys rows.
Proof.
  apply group_keys_ext. intros k Hok. split.
  - intros H. apply in_map_iff in H as [j [<- Hj]].
    apply in_app_or in Hj as [Hj | Hj]; apply group_keys_In in Hj as [Hj _];
      apply in_map_iff in Hj as [x [<- Hx]]; apply filter_In in Hx as [Hx _];
      rewrite coarse_key_coarse_key by assumption;
      apply (in_map (fun x => coarse_key R (fst (snd x)))); assumption.
  - intros H. apply in_map_iff in H as [x [<- Hx]].
    pose proof (fine_in_half x Hx Hok) as Hin.
    rewrite <- (coarse_key_coarse_key r R) by assumption.
    apply in_map. apply in_or_app. destruct (fst x); [now left | now right].
Qed.

Lemma parts_NoDup (k : list cell) : NoDup (parts k).
Proof.
  apply NoDup_app.
  - apply Finite.Injective_map_NoDup_in.
    + intros x y _ _ E. now injection E.
    + apply NoDup_filter, group_keys_NoDup.
  - apply Finite.Injective_map_NoDup_in.
    + intros x y _ _ E. now injection E.
    + apply NoDup_filter, group_keys_NoDup.
  - intros j H1 H2. apply in_map_iff in H1 as [j1 [<- _]].
    apply in_map_iff in H2 as [j2 [E _]]. discriminate E.
Qed.

Lemma parts_select (k : list cell) (x : bool * (list cell * bucket)) :
  In k (group_keys rows) -> In x base ->
  key_eqb (coarse_key R (fst (snd x))) k = true <-> In (tagged x) (parts k).
Proof.
  intros Hk Hx. apply group_keys_In in Hk as [_ Hok]. split.
  - intros E. pose proof E as E'. apply key_eqb_eq in E'.
    rewrite <- E' in Hok. pose proof (fine_in_half x Hx Hok) as Hin.
    apply in_or_app. destruct (fst x).
    + left. apply in_map. apply filter_In. split; [assumption |].
      now rewrite coarse_key_coarse_key.
    + right. apply in_map. apply filter_In. split; [assumption |].
      now rewrite coarse_key_coarse_key.
  - intros H. apply in_app_or in H as [H | H];
      apply in_map_iff in H as [j [E H]]; apply filter_In in H as [_ H];
      injection E as _ E; rewrite E in H;
      now rewrite coarse_key_coarse_key in H.
Qed.

Lemma parts_from_base (k j : list cell) :
  In j (parts k) -> exists x, In x base /\ tagged x = j.
Proof.
  intros H. apply in_app_or in H as [H | H];
    apply in_map_iff in H as [j' [<- H]]; apply filter_In in H as [H _];
    apply group_keys_In in H as [H _]; apply in_map_iff in H as [x [<- H]];
    apply filter_In in H as [Hx Hb]; exists x; (split; [assumption |]);
    cbn beta in Hb.
  - now rewrite Hb.
  - apply negb_true_iff in Hb. now rewrite Hb.
Qed.

Lemma parts_nonempty (k : list cell) : In k (group_keys rows) -> parts k <> [].
Proof.
  intros Hk. pose proof Hk as Hk'. apply group_keys_In in Hk' as [Hin _].
  apply in_map_iff in Hin as [x [E Hx]].
  assert (H : In (tagged x) (parts k)).
  { apply parts_select; try assumption. now apply key_eqb_eq. }
  intros E'. cbv beta in H. rewrite E' in H. contradiction.
Qed.

Lemma split_merge (k : list cell) :
  In k (group_keys rows) ->
  chan_merge
    (group_of (map (coarse_key R) (gk1 ++ gk2))
       (map (fun j => chan_merge (group_of (map fine (filter here base))
                                           (map beta (filter here base)) j)) gk1 ++
        map (fun j => chan_merge (group_of (map fine (filter there base))
                                           (map beta (filter there base)) j)) gk2)
       k) =
  chan_merge (group_of rows (map beta base) k).
Proof.
  intros Hk. rewrite map_app, group_of_app by now rewrite !length_map.
  rewrite !group_of_base.
  rewrite <- (chan_merge_regroup _ tagged beta
                (fun x => key_eqb (coarse_key R (fst (snd x))) k) base (parts k)
                (parts_NoDup k) (fun x Hx => parts_select k x Hk Hx)
                (parts_from_base k) (parts_nonempty k Hk) Hpos).
  f_equal. rewrite map_app, !map_map. f_equal; apply map_ext; intros j;
    f_equal; rewrite group_of_base, filter_twice; f_equal; apply filter_ext;
    intros x; cbn [key_eqb cell_eqb]; destruct (fst x); reflexivity.
Qed.

End PartitionMerge.

Lemma pick_combine {A B : Type} (mask : list bool) (a : list A) (b : list B) :
  length a = length b ->
  pick mask a = map (fun x => fst (snd x)) (filter fst (combine mask (combine a b))) /\
  pick mask b = map (fun x => snd (snd x)) (filter fst (combine mask (combine a b))) /\
  pick (map negb mask) a =
    map (fun x => fst (snd x))
        (filter (fun x => negb (fst x)) (combine mask (combine a b))) /\
  pick (map negb mask) b =
    map (fun x => snd (snd x))
        (filter (fun x => negb (fst x)) (combine mask (combine a b))).
Proof.
  intros H. repeat split.
  - transitivity (pick mask (map fst (combine a b))); [now rewrite fst_combine |].
    rewrite pick_map. unfold pick. now rewrite map_map.
  - transitivity (pick mask (map snd (combine a b))); [now rewrite snd_combine |].
    rewrite pick_map. unfold pick. now rewrite map_map.
  - transitivity (pick (map negb mask) (map fst (combine a b)));
      [now rewrite fst_combine |].
    rewrite pick_map, pick_negb. now rewrite map_map.
  - transitivity (pick (map negb mask) (map snd (combine a b)));
      [now rewrite snd_combine |].
    rewrite pick_map, pick_negb. now rewrite map_map.
Qed.

(** The merge of the two halves of a split, bucket by bucket, is the merge
    of the whole. *)
Lemma split_merge_lists (r R : Z) (mask : list bool) (rows0 : list (list cell))
  (smp : list bucket) :
  (0 < r)%Z -> (0 < R)%Z -> (r | R)%Z ->
  length mask = length rows0 -> length smp = length rows0 ->
  (forall row, In row rows0 -> row <> []) ->
  (forall b, In b smp -> (0 < b_count b)%R) ->
  let rows1 := map (coarse_key r) (pick mask rows0) in
  let rows2 := map (coarse_key r) (pick (map negb mask) rows0) in
  group_keys (map (coarse_key R) (group_keys rows1 ++ group_keys rows2)) =
    group_keys (map (coarse_key R) rows0) /\
  forall k,
    In k (group_keys (map (coarse_key R) rows0)) ->
    chan_merge
      (group_of (map (coarse_key R) (group_keys rows1 ++ group_keys rows2))
         (map (fun j => chan_merge (group_of rows1 (pick mask smp) j))
              (group_keys rows1) ++
          map (fun j => chan_merge (group_of rows2 (pick (map negb mask) smp) j))
              (group_keys rows2))
         k) =
    chan_merge (group_of (map (coarse_key R) rows0) smp k).
Proof.
  intros Hr HR Hdiv Hm Hs Hne Hpos rows1 rows2. subst rows1 rows2.
  set (base := combine mask (combine rows0 smp)).
  destruct (pick_combine mask rows0 smp (eq_sym Hs)) as [E1 [E2 [E3 E4]]].
  fold base in E1, E2, E3, E4.
  assert (Hlen : length mask = length (combine rows0 smp))
    by (rewrite length_combine; lia).
  assert (E5 : rows0 = map (fun x => fst (snd x)) base).
  { unfold base. rewrite <- (map_map snd fst), snd_combine by assumption.
    symmetry. now apply fst_combine. }
  assert (E6 : smp = map (fun x => snd (snd x)) base).
  { unfold base. rewrite <- (map_map snd snd), snd_combine by assumption.
    symmetry. now apply snd_combine. }
  assert (Hrow : forall x, In x base -> fst (snd x) <> []).
  { intros x Hx. apply Hne. rewrite E5. now apply (in_map (fun x => fst (snd x))). }
  assert (Hcount : forall x, In x base -> (0 < b_count (snd (snd x)))%R).
  { intros x Hx. apply Hpos. rewrite E6. now apply (in_map (fun x => snd (snd x))). }
  clearbody base. rewrite E1, E2, E3, E4, E5, E6, !map_map.
  split.
  - apply (split_keys r R base); assumption.
  - intros k Hk. apply (split_merge r R base); assumption.
Qed.

Lemma stat_cols_perm (vars : list string) :
  Permutation (flat_map (stat_cols lossless_stats) vars)
              (flat_map (stat_cols init_stats) vars).
Proof.
  induction vars as [| v vars IH]; [constructor |]. cbn [flat_map].
  apply Permutation_app; [| exact IH].
  unfold stat_cols. apply Permutation_map.
  unfold lossless_stats, init_stats. do 3 apply perm_skip. apply perm_swap.
Qed.

Lemma raw_rows_count (raw : DataFrame) (time_col : string)
  (grouping_cols : list string) :
  raw_table raw time_col grouping_cols ->
  length (table_rows raw (grouping_cols ++ [time_col])) = nrows raw /\
  forall v, In v (variables_of raw grouping_cols) ->
            length (samples raw v) = nrows raw.
Proof.
  intros Hraw. destruct (rt_index _ _ _ Hraw) as [ts Hidx].
  pose proof (raw_rows_length raw 1 time_col grouping_cols ts Hraw Hidx) as H.
  rewrite length_map in H. rewrite (raw_nrows raw time_col ts Hidx). split; [exact H |].
  intros v Hv. unfold samples. rewrite length_map.
  rewrite (raw_var_length raw 1 time_col grouping_cols ts Hraw Hidx v Hv).
  now rewrite length_map.
Qed.

(** Under exact arithmetic, with every table held in one partition: split
    the rows of a raw table in two by any mask, aggregate each part with
    [init_agg] at a resolution, stack the two lossless tables into one
    partition and merge them with [coarsen_agg] at a multiple of that
    resolution (the same one, or one wide enough to hold everything in a
    single bucket): the table has the index of the table [init_agg] returns
    on all the rows at once, the same columns up to their order, and under
    every label the same values. *)
Lemma init_agg_split_merge (raw : DataFrame) (mask : list bool) (r R : Z)
  (time_col : string) (grouping_cols : list string) :
  raw_table raw time_col grouping_cols -> length mask = nrows raw ->
  (0 < r)%Z -> (0 < R)%Z -> (r | R)%Z ->
  exists part1 part2 agg1 agg2 merged full,
    rows_where mask raw = Ok part1 /\
    rows_where (map negb mask) raw = Ok part2 /\
    init_agg part1 r grouping_cols = Ok agg1 /\
    init_agg part2 r grouping_cols = Ok agg2 /\
    coarsen_agg (concat_rows agg1 agg2) R time_col grouping_cols = Ok merged /\
    init_agg raw R grouping_cols = Ok full /\
    index merged = index full /\
    Permutation (columns merged) (columns full) /\
    forall c, In c (columns full) -> series merged c = series full c.
Proof.
  intros Hraw Hlen Hr HR Hdiv.
  assert (Hlen' : length (map negb mask) = nrows raw) by now rewrite length_map.
  destruct (rows_where_raw mask raw time_col grouping_cols Hraw Hlen)
    as [p1 [Hp1 [Hraw1 [Hc1 [Hs1 Hr1]]]]].
  destruct (rows_where_raw (map negb mask) raw time_col grouping_cols Hraw Hlen')
    as [p2 [Hp2 [Hraw2 [Hc2 [Hs2 Hr2]]]]].
  assert (Hv1 : variables_of p1 grouping_cols = variables_of raw grouping_cols)
    by (unfold variables_of; now rewrite Hc1).
  assert (Hv2 : variables_of p2 grouping_cols = variables_of raw grouping_cols)
    by (unfold variables_of; now rewrite Hc2).
  destruct (init_agg_raw_table p1 r time_col grouping_cols Hraw1 Hr)
    as [HA [LA [HvA [HrA HbA]]]].
  destruct (init_agg_raw_table p2 r time_col grouping_cols Hraw2 Hr)
    as [HB [LB [HvB [HrB HbB]]]].
  destruct (init_agg_raw_table raw R time_col grouping_cols Hraw HR) as [HF _].
  rewrite Hv1, Hr1 in HA, LA, HvA, HrA, HbA. rewrite Hv2, Hr2 in HB, LB, HvB, HrB, HbB.
  set (keys := grouping_cols ++ [time_col]) in *.
  set (rows0 := table_rows raw keys) in *.
  set (vars := variables_of raw grouping_cols) in *.
  set (rows1 := map (coarse_key r) (pick mask rows0)) in *.
  set (rows2 := map (coarse_key r) (pick (map negb mask) rows0)) in *.
  set (A := merged_table init_stats keys rows1 vars (samples p1)) in *.
  set (B := merged_table init_stats keys rows2 vars (samples p2)) in *.
  assert (Hfresh : forall v s, In v vars -> In s init_stats ->
                               ~ In (v ++ "." ++ s)%string keys).
  { intros v s Hv _. apply (vars_In raw time_col grouping_cols) in Hv as [Hc Hg].
    exact (rt_names _ _ _ Hraw v s Hc Hg). }
  assert (HiA : map fst (index A) = map Some keys) by apply merged_index_names.
  assert (HiB : map fst (index B) = map Some keys) by apply merged_index_names.
  assert (HfA : forall c, In c keys -> ~ In c (columns A))
    by (apply merged_key_absent; exact Hfresh).
  assert (HcB : columns B = columns A) by (unfold A, B; now rewrite !merged_columns).
  assert (LC : lossless (concat_rows A B) time_col grouping_cols)
    by (apply concat_rows_lossless; assumption).
  assert (HvC : get_vars_from_flat_cols (concat_rows A B) keys = vars)
    by (unfold keys; rewrite concat_vars; assumption).
  assert (HrC : table_rows (concat_rows A B) keys = group_keys rows1 ++ group_keys rows2).
  { rewrite <- HrA, <- HrB. apply (concat_table_rows A B time_col grouping_cols);
      try assumption. intros c Hc. now left. }
  assert (HbC : forall v, In v vars ->
                buckets (concat_rows A B) v = buckets A v ++ buckets B v).
  { intros v Hv. apply (concat_buckets A B time_col grouping_cols); try assumption.
    fold keys. now rewrite HvA. }
  pose proof (coarsen_agg_lossless (concat_rows A B) R time_col grouping_cols LC HR)
    as HM.
  fold keys in HM. rewrite HvC, HrC in HM.
  destruct (raw_rows_count raw time_col grouping_cols Hraw) as [Hn0 Hnv].
  fold keys rows0 in Hn0. fold vars in Hnv.
  assert (Hne : forall row, In row rows0 -> row <> []).
  { intros row Hin ->. apply table_rows_width in Hin. unfold keys in Hin.
    rewrite length_app in Hin. simpl in Hin. lia. }
  assert (Hgk : group_keys (map (coarse_key R) (group_keys rows1 ++ group_keys rows2)) =
                group_keys (map (coarse_key R) rows0)).
  { apply (split_merge_lists r R mask rows0 (map (fun _ => sample 0) rows0));
      try assumption; try congruence.
    - apply length_map.
    - intros b Hb. apply in_map_iff in Hb as [x [<- _]]. simpl. lra. }
  exists p1, p2, A, B. eexists. eexists.
  split; [exact Hp1 |]. split; [exact Hp2 |]. split; [exact HA |]. split; [exact HB |].
  split; [exact HM |]. split; [exact HF |]. fold keys rows0 vars.
  split; [| split].
  - unfold merged_table. cbn [index]. now rewrite Hgk.
  - rewrite !merged_columns. apply stat_cols_perm.
  - intros c Hc. rewrite merged_columns in Hc.
    apply in_flat_map in Hc as [v [Hv Hc]]. apply stat_cols_In in Hc as [s [Hs ->]].
    assert (Hs' : In s lossless_stats).
    { simpl in Hs. simpl. intuition. }
    assert (Hdot : forall s0, In s0 init_stats -> has_dot s0 = false).
    { intros s0 H0. simpl in H0.
      repeat (destruct H0 as [<- | H0]; [reflexivity |]). contradiction. }
    assert (Hsub : forall s0, In s0 lossless_stats -> In s0 init_stats).
    { intros s0 H0. simpl in H0. simpl. intuition. }
    rewrite (merged_stat_series lossless_stats keys _ vars _ (fun s0 H0 => H0)
               (fun s0 H0 => Hdot s0 (Hsub s0 H0)) v s Hv Hs').
    rewrite (merged_stat_series init_stats keys _ vars _ Hsub Hdot v s Hv Hs').
    rewrite Hgk. apply map_ext_in. intros k Hk. do 3 f_equal.
    rewrite (HbC v Hv), (HbA v Hv), (HbB v Hv).
    assert (E1 : samples p1 v = pick mask (samples raw v))
      by (unfold samples; now rewrite Hs1, pick_map).
    assert (E2 : samples p2 v = pick (map negb mask) (samples raw v))
      by (unfold samples; now rewrite Hs2, pick_map).
    rewrite E1, E2.
    apply (split_merge_lists r R mask rows0 (samples raw v)); try assumption;
      try congruence.
    + rewrite (Hnv v Hv). congruence.
    + intros b Hb. unfold samples in Hb. apply in_map_iff in Hb as [x [<- _]].
      simpl. lra.
Qed.

(** * Further properties of the stages *)

(** ** Tables stored with their index promoted *)

(** X3: the notebook stores a lossless table as [df.reset_index()] and runs the
    later stages on the table or on what it stored alike: on a lossless
    table indexed by its keys the promotion succeeds and puts the keys in
    front of the columns, the stored table is lossless as well, and
    [coarsen_agg] and [finalize_agg] return on it what they return on the
    indexed one. *)
Theorem stages_on_stored_table (df : DataFrame) (time_col : string)
  (grouping_cols : list string) :
  lossless df time_col grouping_cols ->
  map fst (index df) = map Some (grouping_cols ++ [time_col]) ->
  (forall c, In c (grouping_cols ++ [time_col]) -> ~ In c (columns df)) ->
  exists stored,
    reset_index df = Ok stored /\
    columns stored = (grouping_cols ++ [time_col]) ++ columns df /\
    lossless stored time_col grouping_cols /\
    (forall time_res,
       coarsen_agg stored time_res time_col grouping_cols =
       coarsen_agg df time_res time_col grouping_cols) /\
    finalize_agg stored time_col grouping_cols =
    finalize_agg df time_col grouping_cols.
Proof.
  intros L Hidx Hnot.
  assert (Habs : absent_any (grouping_cols ++ [time_col]) df = true).
  { apply absent_any_true. exists time_col. split.
    - apply in_or_app. right. now left.
    - apply Hnot. apply in_or_app. right. now left. }
  destruct (lossless_normalize df time_col grouping_cols L)
    as [d [Hreset [Hne [Hn [Hk [Hc [Hser Hvars]]]]]]].
  rewrite Habs in Hreset.
  assert (Hflat : absent_any (grouping_cols ++ [time_col]) d = false)
    by now apply absent_any_false.
  assert (Hcols : columns d = (grouping_cols ++ [time_col]) ++ columns df).
  { rewrite (reset_index_columns df d Hreset). f_equal. now apply level_names_named. }
  assert (Hrange : index d = range_index (nrows df)).
  { pose proof Hreset as Hx. unfold reset_index in Hx.
    destruct (_ || _); [discriminate |]. injection Hx as Hx. now rewrite <- Hx. }
  exists d. split; [exact Hreset |]. split; [exact Hcols |]. split; [| split].
  - constructor.
    + exact Hne.
    + apply (ll_keys _ _ _ L).
    + left. exact Hk.
    + rewrite Hcols. apply NoDup_app;
        [apply (ll_keys _ _ _ L) | apply (ll_columns _ _ _ L) | exact Hnot].
    + rewrite Hrange, Hn. unfold range_index. constructor; [| constructor].
      cbn [snd]. now rewrite length_map, length_seq.
    + intros c Hin. rewrite Hcols in Hin. rewrite Hn.
      apply in_app_or in Hin as [Hin | Hin].
      * rewrite Hser by now left.
        now apply (lossless_key_length df time_col grouping_cols).
      * rewrite Hser by now right. now apply (ll_lengths _ _ _ L).
    + destruct (ll_time _ _ _ L) as [ts Hts]. exists ts.
      rewrite Hser; [assumption |]. left. apply in_or_app. right. now left.
    + intros v Hv. rewrite Hvars in Hv.
      destruct (ll_stats _ _ _ L v Hv) as [bs [Hpos Hs]]. exists bs.
      split; [exact Hpos |]. intros s Hin. destruct (Hs s Hin) as [H1 [H2 H3]].
      split; [now apply Hc |]. split; [assumption |].
      rewrite Hser by now right. exact H3.
  - intros time_res. unfold coarsen_agg. rewrite Habs, Hreset, Hflat, Hvars.
    reflexivity.
  - unfold finalize_agg. rewrite Habs, Hreset, Hflat. reflexivity.
Qed.

Lemma stages_on_stored_table_witness :
  exists stored,
    reset_index scenario_lossless = Ok stored /\
    columns stored = (["key"] ++ ["t"]) ++ columns scenario_lossless /\
    lossless stored "t" ["key"] /\
    (forall time_res,
       coarsen_agg stored time_res "t" ["key"] =
       coarsen_agg scenario_lossless time_res "t" ["key"]) /\
    finalize_agg stored "t" ["key"] = finalize_agg scenario_lossless "t" ["key"].
Proof.
  apply (stages_on_stored_table scenario_lossless "t" ["key"] scenario_is_lossless
           eq_refl).
  simpl. intros c [<- | [<- | []]] H; repeat (destruct H as [H | H]; [discriminate H |]);
    contradiction.
Defined.

(** ** Buckets that stand for samples *)

Lemma sound_min_max (b : bucket) : sound_bucket b -> (b_min b <= b_max b)%R.
Proof. intros [Hc [_ [H1 H2]]]. nra. Qed.







Lemma scenario_sound (v : string) (b : bucket) :
  In v (get_vars_from_flat_cols scenario_lossless (["key"] ++ ["t"])) ->
  In b (buckets scenario_lossless v) -> sound_bucket b.
Proof.
  intros Hv Hb.
  assert (E : v = "v") by (destruct Hv as [<- | []]; reflexivity). subst v.
  change (In b [mkBucket 2 30 50 10 20; mkBucket 1 30 0 30 30]) in Hb.
  destruct Hb as [<- | [<- | []]]; unfold sound_bucket; simpl; lra.
Qed.


Lemma final_stats_sound (b : bucket) :
  sound_bucket b ->
  exists mean std,
    map (fun s => Num (final_stat s b)) final_stats =
      [Num (Fin mean); Num std; Num (Fin (b_min b)); Num (Fin (b_max b))] /\
    (b_min b <= mean <= b_max b)%R /\
    ((1 < b_count b)%R -> exists s, std = Fin s /\ (0 <= s)%R).
Proof.
  intros [Hc [Hq [H1 H2]]].
  exists (b_sum b / b_count b)%R, (nroot (ndiv (Fin (b_ssd b)) (Fin (b_count b - 1)))).
  split; [reflexivity |]. split.
  - split.
    + apply Rmult_le_reg_r with (b_count b); [assumption |].
      unfold Rdiv. rewrite Rmult_assoc, Rinv_l by lra. lra.
    + apply Rmult_le_reg_r with (b_count b); [assumption |].
      unfold Rdiv. rewrite Rmult_assoc, Rinv_l by lra. lra.
  - intros Hn. rewrite ndiv_Fin by lra. unfold nroot.
    assert (Hd : (0 <= b_ssd b / (b_count b - 1))%R).
    { unfold Rdiv. apply Rmult_le_pos; [assumption |].
      left. apply Rinv_0_lt_compat. lra. }
    destruct (Rcompare_spec (b_ssd b / (b_count b - 1)) 0) as [E | E | E];
      [| lra |]; (eexists; split; [reflexivity | apply sqrt_pos]).
Qed.

(** X7: on a lossless table of sound buckets [finalize_agg] returns the key
    columns followed, for each variable in turn, by its mean, std, min and
    max; the rows keep their keys and their order; in every row the mean
    lies between the minimum and the maximum, which are those of the
    bucket, and the std of a bucket of more than one sample is a number
    that is not negative. *)
Theorem finalize_agg_sound (df : DataFrame) (time_col : string)
  (grouping_cols : list string) :
  lossless df time_col grouping_cols ->
  (forall v s, In v (get_vars_from_flat_cols df (grouping_cols ++ [time_col])) ->
               In s final_stats ->
               ~ In (v ++ "." ++ s)%string (grouping_cols ++ [time_col])) ->
  (forall v b, In v (get_vars_from_flat_cols df (grouping_cols ++ [time_col])) ->
               In b (buckets df v) -> sound_bucket b) ->
  exists final,
    finalize_agg df time_col grouping_cols = Ok final /\
    columns final =
      (grouping_cols ++ [time_col]) ++
      flat_map (stat_cols final_stats)
               (get_vars_from_flat_cols df (grouping_cols ++ [time_col])) /\
    table_rows final (grouping_cols ++ [time_col]) =
      table_rows df (grouping_cols ++ [time_col]) /\
    forall v, In v (get_vars_from_flat_cols df (grouping_cols ++ [time_col])) ->
      Forall2
        (fun b row =>
           exists mean std,
             row = [Num (Fin mean); Num std; Num (Fin (b_min b)); Num (Fin (b_max b))] /\
             (b_min b <= mean <= b_max b)%R /\
             ((1 < b_count b)%R -> exists s, std = Fin s /\ (0 <= s)%R))
        (buckets df v) (table_rows final (stat_cols final_stats v)).
Proof.
  intros L Hfresh Hsound.
  destruct (finalize_agg_lossless df time_col grouping_cols L Hfresh)
    as [final [Hfin [Hcols [Hrows Hstat]]]].
  exists final. split; [exact Hfin |]. split; [exact Hcols |]. split; [exact Hrows |].
  intros v Hv. rewrite (Hstat v Hv).
  assert (H : forall b, In b (buckets df v) -> sound_bucket b)
    by (intros b Hb; now apply (Hsound v)).
  induction (buckets df v) as [| b bs IH]; cbn [map]; constructor.
  - apply final_stats_sound. apply H. now left.
  - apply IH. intros x Hx. apply H. now right.
Qed.

Lemma finalize_agg_sound_witness :
  exists final,
    finalize_agg scenario_lossless "t" ["key"] = Ok final /\
    columns final =
      (["key"] ++ ["t"]) ++
      flat_map (stat_cols final_stats)
               (get_vars_from_flat_cols scenario_lossless (["key"] ++ ["t"])) /\
    table_rows final (["key"] ++ ["t"]) = table_rows scenario_lossless (["key"] ++ ["t"]) /\
    forall v, In v (get_vars_from_flat_cols scenario_lossless (["key"] ++ ["t"])) ->
      Forall2
        (fun b row =>
           exists mean std,
             row = [Num (Fin mean); Num std; Num (Fin (b_min b)); Num (Fin (b_max b))] /\
             (b_min b <= mean <= b_max b)%R /\
             ((1 < b_count b)%R -> exists s, std = Fin s /\ (0 <= s)%R))
        (buckets scenario_lossless v) (table_rows final (stat_cols final_stats v)).
Proof.
  apply (finalize_agg_sound scenario_lossless "t" ["key"] scenario_is_lossless).
  - intros v s Hv _. destruct Hv as [<- | []].
    simpl. intros [H | [H | []]]; discriminate H.
  - exact scenario_sound.
Defined.

(** ** What the stages conserve *)

Lemma regroup_totals (rows : list (list cell)) (bs : list bucket) (f : bucket -> R) :
  Rsum (map (fun k => Rsum (map f (group_of rows bs k))) (group_keys rows)) =
  Rsum (map f (map snd (filter (fun p => key_ok (fst p)) (combine rows bs)))).
Proof.
  rewrite map_map.
  rewrite <- (Rsum_regroup fst (fun p => f (snd p)) (fun p => key_ok (fst p))
                (combine rows bs) (group_keys rows) (group_keys_NoDup rows)).
  - apply Rsum_ext_in. intros k _. unfold group_of. now rewrite map_map.
  - intros x Hx. rewrite group_keys_In. split; [| tauto].
    intros H. split; [| assumption]. destruct x as [k b]. now apply in_combine_l in Hx.
Qed.

Lemma filter_fst_combine {A B : Type} (P : A -> bool) (a : list A) (b : list B) :
  length a = length b ->
  map fst (filter (fun p => P (fst p)) (combine a b)) = filter P a.
Proof.
  revert b. induction a as [| x a IH]; intros [| y b] H; try discriminate;
    [reflexivity |].
  injection H as H. cbn [combine filter fst]. destruct (P x); cbn [map fst];
    now rewrite IH.
Qed.

Lemma filter_map_length {A B : Type} (P : B -> bool) (f : A -> B) (l : list A) :
  length (filter P (map f l)) = length (filter (fun x => P (f x)) l).
Proof.
  induction l as [| x l IH]; [reflexivity |]. cbn [map filter].
  destruct (P (f x)); cbn [length]; now rewrite IH.
Qed.



Lemma complete_rows_samples (time_res : Z) (rows0 : list (list cell))
  (col : list cell) :
  length rows0 = length col ->
  (forall k, In k rows0 -> key_ok (coarse_key time_res k) = key_ok k) ->
  filter (fun p : list cell * bucket => key_ok (fst p))
    (combine (map (coarse_key time_res) rows0)
             (map (fun c => sample (real_of c)) col)) =
  map (fun p => (coarse_key time_res (fst p), sample (real_of (snd p))))
      (filter (fun p => key_ok (fst p)) (combine rows0 col)).
Proof.
  revert col. induction rows0 as [| k rows IH]; intros [| c cs] Hlen Hne;
    try discriminate; [reflexivity |].
  cbn [map combine filter fst]. rewrite (Hne k (or_introl eq_refl)).
  injection Hlen as Hlen.
  destruct (key_ok k); cbn [map fst snd];
    now rewrite (IH cs Hlen (fun k' Hk' => Hne k' (or_intror Hk'))).
Qed.

(** X9: [init_agg] counts every raw row whose key is complete exactly once, and
    no other: the counts of a variable add up to the number of rows without
    a missing grouping value, and its sums to the sum of the values in those
    rows. *)
Theorem init_agg_counts_rows (raw : DataFrame) (time_res : Z) (time_col : string)
  (grouping_cols : list string) :
  raw_table raw time_col grouping_cols -> (0 < time_res)%Z ->
  exists out,
    init_agg raw time_res grouping_cols = Ok out /\
    forall v, In v (variables_of raw grouping_cols) ->
      Rsum (map b_count (buckets out v)) =
        INR (length (filter key_ok (table_rows raw (grouping_cols ++ [time_col])))) /\
      Rsum (map b_sum (buckets out v)) =
        Rsum (map real_of
                (map snd (filter (fun p => key_ok (fst p))
                                 (combine (table_rows raw (grouping_cols ++ [time_col]))
                                          (series raw v))))).
Proof.
  intros Hraw Hres.
  destruct (init_agg_raw_table raw time_res time_col grouping_cols Hraw Hres)
    as [Hinit [_ [_ [_ Hb]]]].
  destruct (raw_rows_count raw time_col grouping_cols Hraw) as [Hn0 Hnv].
  eexists. split; [exact Hinit |]. intros v Hv. rewrite (Hb v Hv), !map_map.
  set (rows0 := table_rows raw (grouping_cols ++ [time_col])) in *.
  assert (Hne : forall k, In k rows0 -> key_ok (coarse_key time_res k) = key_ok k).
  { intros k Hk. apply key_ok_coarse_key. intros ->. apply table_rows_width in Hk.
    rewrite length_app in Hk. simpl in Hk. lia. }
  assert (Hlen : length rows0 = length (series raw v)).
  { pose proof (Hnv v Hv) as H. unfold samples in H. rewrite length_map in H. congruence. }
  pose proof (complete_rows_samples time_res rows0 (series raw v) Hlen Hne) as Hbase.
  fold (samples raw v) in Hbase.
  split.
  - change (fun x : list cell =>
              b_count (chan_merge (group_of (map (coarse_key time_res) rows0)
                                            (samples raw v) x)))
      with (fun x : list cell =>
              Rsum (map b_count (group_of (map (coarse_key time_res) rows0)
                                          (samples raw v) x))).
    rewrite regroup_totals, Hbase, !map_map. cbn [snd sample b_count].
    rewrite Rsum_ones. f_equal.
    rewrite <- (filter_fst_combine key_ok rows0 (series raw v) Hlen).
    now rewrite length_map.
  - change (fun x : list cell =>
              b_sum (chan_merge (group_of (map (coarse_key time_res) rows0)
                                          (samples raw v) x)))
      with (fun x : list cell =>
              Rsum (map b_sum (group_of (map (coarse_key time_res) rows0)
                                        (samples raw v) x))).
    rewrite regroup_totals, Hbase, !map_map. reflexivity.
Qed.

Lemma init_agg_counts_rows_witness :
  exists out,
    init_agg scenario 300 ["key"] = Ok out /\
    forall v, In v (variables_of scenario ["key"]) ->
      Rsum (map b_count (buckets out v)) =
        INR (length (filter key_ok (table_rows scenario (["key"] ++ ["t"])))) /\
      Rsum (map b_sum (buckets out v)) =
        Rsum (map real_of
                (map snd (filter (fun p => key_ok (fst p))
                                 (combine (table_rows scenario (["key"] ++ ["t"]))
                                          (series scenario v))))).
Proof.
  exact (init_agg_counts_rows scenario 300 "t" ["key"] scenario_raw eq_refl).
Defined.

(** ** The table [init_agg] returns *)

(** X4: on a raw table [init_agg] returns a lossless table indexed by the
    grouping columns and the time.  Its columns are, for each variable in
    the order of the raw columns, count, sum, sum_sq_diff, max and min, from
    which the variables are read back.  It has exactly one row per bucket of
    the rows with a complete key, and every time in it is the start of a
    bucket. *)
Theorem init_agg_layout (raw : DataFrame) (time_res : Z) (time_col : string)
  (grouping_cols : list string) :
  raw_table raw time_col grouping_cols -> (0 < time_res)%Z ->
  exists out,
    init_agg raw time_res grouping_cols = Ok out /\
    lossless out time_col grouping_cols /\
    map fst (index out) = map Some (grouping_cols ++ [time_col]) /\
    columns out = flat_map (stat_cols init_stats) (variables_of raw grouping_cols) /\
    get_vars_from_flat_cols out (grouping_cols ++ [time_col]) =
      variables_of raw grouping_cols /\
    NoDup (table_rows out (grouping_cols ++ [time_col])) /\
    forall k,
      In k (table_rows out (grouping_cols ++ [time_col])) <->
      key_ok k = true /\
      exists row, In row (table_rows raw (grouping_cols ++ [time_col])) /\
                  k = coarse_key time_res row.
Proof.
  intros Hraw Hres.
  destruct (init_agg_raw_table raw time_res time_col grouping_cols Hraw Hres)
    as [Hinit [L [Hvars [Hrows _]]]].
  eexists. split; [exact Hinit |]. split; [exact L |].
  split; [apply merged_index_names |]. split; [apply merged_columns |].
  split; [exact Hvars |]. rewrite Hrows.
  split; [apply group_keys_NoDup |].
  intros k. rewrite group_keys_In, in_map_iff. split.
  - intros [[row [E Hrow]] Hok]. split; [assumption |]. now exists row.
  - intros [Hok [row [Hrow E]]]. split; [| assumption]. now exists row.
Qed.

Lemma init_agg_layout_witness :
  exists out,
    init_agg scenario 300 ["key"] = Ok out /\
    lossless out "t" ["key"] /\
    map fst (index out) = map Some (["key"] ++ ["t"]) /\
    columns out = flat_map (stat_cols init_stats) (variables_of scenario ["key"]) /\
    get_vars_from_flat_cols out (["key"] ++ ["t"]) = variables_of scenario ["key"] /\
    NoDup (table_rows out (["key"] ++ ["t"])) /\
    forall k,
      In k (table_rows out (["key"] ++ ["t"])) <->
      key_ok k = true /\
      exists row, In row (table_rows scenario (["key"] ++ ["t"])) /\
                  k = coarse_key 300 row.
Proof.
  exact (init_agg_layout scenario 300 "t" ["key"] scenario_raw eq_refl).
Defined.

(** ** What the stages refuse *)

Lemma mapM_In {A B : Type} (f : A -> result B) (l : list A) (r : list B) (a : A) :
  mapM f l = Ok r -> In a l -> exists b, f a = Ok b /\ In b r.
Proof.
  revert r. induction l as [| x l IH]; intros r H Hin; [contradiction |].
  cbn [mapM] in H. apply bind_Ok in H as [y [Hy H]]. apply bind_Ok in H as [ys [Hys H]].
  injection H as <-. destruct Hin as [-> | Hin].
  - exists y. split; [assumption | now left].
  - destruct (IH ys Hys Hin) as [b [Hb Hin']]. exists b. split; [assumption | now right].
Qed.

(** X12: every column that is not a grouping column is aggregated as a
    variable: a timestamp in such a column makes [init_agg] fail, and the
    raw table is refused, not aggregated. *)
Theorem init_agg_refuses_timestamps (raw : DataFrame) (time_res : Z)
  (time_col : string) (grouping_cols : list string) (ts : list Z)
  (v : string) (col : list cell) (t : Z) :
  index raw = [(Some time_col, map Time ts)] ->
  (0 < time_res)%Z ->
  v <> time_col -> ~ In v grouping_cols ->
  lookup v (data raw) = Some col ->
  In (Time t) col ->
  exists e, init_agg raw time_res grouping_cols = Err e.
Proof.
  intros Hidx Hres Hvt Hvg Hcol Hc. unfold init_agg. rewrite Hidx.
  rewrite (dt_floor_times time_res ts Hres). cbn [bind].
  set (df := reset_index_drop _).
  set (variables := filter (fun col0 => negb (mem col0 grouping_cols)) (columns raw)).
  assert (Hv : In v variables).
  { apply filter_In. split; [eapply lookup_Some_In; eauto |].
    apply negb_true_iff. now apply mem_false. }
  assert (Hget : getcol df v = Ok col).
  { apply getcol_lookup. unfold df, reset_index_drop, setcol. cbn [data].
    rewrite set_assoc_lookup_other by assumption. exact Hcol. }
  unfold select. destruct (mapM (getcol df) variables) as [cs | e] eqn:Hcs;
    cbn [bind]; [| eauto].
  destruct (mapM_In _ _ _ v Hcs Hv) as [col' [Hcol' Hin]].
  assert (col' = col) by congruence. subst col'.
  assert (Hbad : exists e, astype_float (mkDF (index df) (combine variables cs)) = Err e).
  { unfold astype_float. cbn [data].
    rewrite snd_combine by (symmetry; eapply mapM_Ok_length; eauto).
    assert (Hcell : exists e, mapM (fun x => match x with
                                             | Num w => Ok w
                                             | Str _ => Err ValueError
                                             | Time _ => Err TypeError
                                             end) col = Err e)
      by (eapply mapM_Err; [exact Hc | reflexivity]).
    destruct Hcell as [e He]. eapply mapM_Err; [exact Hin | exact He]. }
  destruct Hbad as [e ->]. cbn [bind]. eauto.
Qed.

Lemma init_agg_refuses_timestamps_witness :
  exists e,
    init_agg (mkDF [(Some "t", map Time [0%Z])] [("seen", [Time 7])]) 300 [] = Err e.
Proof.
  apply (init_agg_refuses_timestamps
           (mkDF [(Some "t", map Time [0%Z])] [("seen", [Time 7])])
           300 "t" [] [0%Z] "seen" [Time 7] 7 eq_refl eq_refl).
  - discriminate.
  - intros [].
  - reflexivity.
  - now left.
Defined.

Lemma dict_set_keys {V : Type} (d : list (string * V)) (k c : string) (v : V) :
  In c (map fst (dict_set d k v)) <-> In c (map fst d) \/ c = k.
Proof.
  induction d as [| [k' v'] d IH]; cbn [dict_set map fst In].
  - intuition.
  - destruct (String.eqb k' k) eqn:E; cbn [map fst In].
    + apply String.eqb_eq in E. subst k'. intuition.
    + rewrite IH. intuition.
Qed.

Lemma dict_keys {V : Type} (pairs : list (string * V)) (c : string) :
  In c (map fst pairs) -> In c (map fst (dict pairs)).
Proof.
  unfold dict.
  assert (G : forall acc, In c (map fst acc) \/ In c (map fst pairs) ->
              In c (map fst (fold_left (fun d p => dict_set d (fst p) (snd p))
                                       pairs acc))).
  { induction pairs as [| [k v] pairs IH]; cbn [fold_left map fst snd In]; intros acc H.
    - tauto.
    - apply IH. rewrite dict_set_keys. intuition. }
  intros H. apply G. now right.
Qed.

Lemma agg_dict_absent (g : grouped) (spec : list (string * agg_fun)) (c : string) :
  In c (map fst spec) -> ~ In c (columns (g_df g)) ->
  exists e, agg_dict g spec = Err e.
Proof.
  intros Hc Hn. unfold agg_dict. apply in_map_iff in Hc as [[c' f] [E Hin]].
  cbn [fst] in E. subst c'.
  destruct (mapM_Err (fun p => col <- getcol (g_df g) (fst p) ;;
                               c0 <- numcol col ;;
                               Ok (fst p, agg_col g (snd p) c0))
              spec (c, f) (KeyError c) Hin) as [e ->].
  - cbn [fst]. now rewrite (getcol_absent _ c Hn).
  - cbn [bind]. eauto.
Qed.

Lemma setcols_absent (df out : DataFrame) (names : list string) (m : matrix)
  (c : string) :
  setcols df names m = Ok out ->
  ~ In c (columns df) -> ~ In c names -> ~ In c (columns out).
Proof.
  unfold setcols. destruct (negb _); [discriminate |]. intros H. injection H as <-.
  revert df m. induction names as [| n names IH]; intros df m Hdf Hn; [exact Hdf |].
  destruct m as [| x m]; [exact Hdf |]. cbn [combine fold_left fst snd].
  apply IH; [| intros H; apply Hn; now right].
  unfold columns, setcol. cbn [data]. intros Hin.
  destruct (in_dec string_dec n (map fst (data df))) as [Hp | Hp].
  - rewrite set_assoc_keys_present in Hin by assumption. now apply Hdf.
  - rewrite set_assoc_keys_absent in Hin by assumption.
    apply in_app_or in Hin as [Hin | [<- | []]]; [now apply Hdf |].
    apply Hn. now left.
Qed.

Ltac refuse_select c :=
  match goal with
  | |- exists e, bind (select ?df ?names) _ = Err e =>
      let e := fresh "e" in
      let He := fresh "He" in
      destruct (select_absent df names c) as [e He];
        [| | rewrite He; cbn [bind]; eauto]
  end.

Lemma statistics_column_needed (df : DataFrame) (time_res : Z)
  (time_col : string) (grouping_cols : list string) (v s : string) :
  (forall c, In c (grouping_cols ++ [time_col]) -> In c (columns df)) ->
  In v (get_vars_from_flat_cols df (grouping_cols ++ [time_col])) ->
  In s lossless_stats ->
  ~ In (v ++ "." ++ s)%string (columns df) ->
  (exists e, coarsen_agg df time_res time_col grouping_cols = Err e) /\
  (exists e, finalize_agg df time_col grouping_cols = Err e).
Proof.
  intros Hkeys Hv Hs Hn.
  assert (Hflat : absent_any (grouping_cols ++ [time_col]) df = false)
    by now apply absent_any_false.
  set (vars := get_vars_from_flat_cols df (grouping_cols ++ [time_col])) in *.
  assert (Hcol : forall s0, In (v ++ "." ++ s0)%string (get_cols vars s0)).
  { intros s0. unfold get_cols. apply in_map_iff. now exists v. }
  split.
  - unfold coarsen_agg. rewrite Hflat. cbn [bind]. fold vars.
    do 2 step_err.
    match goal with |- context [setcol df time_col ?fl] => set (dfc := setcol df time_col fl) end.
    assert (Hc : columns dfc = columns df).
    { unfold dfc, columns, setcol. cbn [data]. apply set_assoc_keys_present.
      apply Hkeys. apply in_or_app. right. now left. }
    assert (Hnc : ~ In (v ++ "." ++ s)%string (columns dfc)) by now rewrite Hc.
    simpl in Hs. destruct Hs as [<- | [<- | [<- | Hs]]].
    + refuse_select (v ++ "." ++ "count")%string; [apply Hcol | exact Hnc].
    + do 2 step_err. refuse_select (v ++ "." ++ "sum")%string; [apply Hcol | exact Hnc].
    + do 9 step_err.
      refuse_select (v ++ "." ++ "sum_sq_diff")%string; [apply Hcol | exact Hnc].
    + do 13 step_err.
      match goal with
      | Hset : setcols dfc _ _ = Ok ?d2, Hg : groupby ?d2 _ = Ok ?g |- _ =>
          apply (agg_dict_absent g _ (v ++ "." ++ s)%string);
            [| rewrite (proj2 (groupby_by _ _ _ Hg));
               apply (setcols_absent _ _ _ _ _ Hset Hnc)]
      end.
      * apply dict_keys. rewrite fst_combine.
        -- change (zipWith cons (get_cols vars "count")
                     (zipWith cons (get_cols vars "sum")
                        (zipWith cons (get_cols vars "sum_sq_diff")
                           (zipWith cons (get_cols vars "min")
                              (map (fun x : string => [x]) (get_cols vars "max"))))))
             with (zipn (map (get_cols vars) lossless_stats)).
           rewrite chain_zipn_get_cols by discriminate.
           apply in_flat_map. exists v. split; [assumption |].
           apply stat_cols_In. exists s. split; [| reflexivity].
           simpl. destruct Hs as [<- | [<- | []]]; tauto.
        -- change (zipWith cons (get_cols vars "count")
                     (zipWith cons (get_cols vars "sum")
                        (zipWith cons (get_cols vars "sum_sq_diff")
                           (zipWith cons (get_cols vars "min")
                              (map (fun x : string => [x]) (get_cols vars "max"))))))
             with (zipn (map (get_cols vars) lossless_stats)).
           rewrite chain_zipn_get_cols by discriminate.
           rewrite stat_cols_flat_length, times_length. unfold get_cols.
           now rewrite length_map.
      * intros Hin. unfold get_cols in Hin. apply in_map_iff in Hin as [v' [E _]].
        apply stat_col_inj in E as [_ E]; [| reflexivity |].
        -- destruct Hs as [<- | [<- | []]]; discriminate E.
        -- destruct Hs as [<- | [<- | []]]; reflexivity.
  - unfold finalize_agg. rewrite Hflat. cbn [bind]. fold vars.
    simpl in Hs. destruct Hs as [<- | [<- | [<- | Hs]]].
    + refuse_select (v ++ "." ++ "count")%string; [apply Hcol | exact Hn].
    + do 2 step_err. refuse_select (v ++ "." ++ "sum")%string; [apply Hcol | exact Hn].
    + do 4 step_err.
      refuse_select (v ++ "." ++ "sum_sq_diff")%string; [apply Hcol | exact Hn].
    + do 7 step_err. refuse_select (v ++ "." ++ s)%string; [| exact Hn].
      apply in_or_app. destruct Hs as [<- | [<- | []]]; [left | right]; apply Hcol.
Qed.

(** X13: a table that lacks one of the five statistic columns of one of its
    variables is refused by [coarsen_agg] and by [finalize_agg]: neither
    returns a table. *)
Theorem incomplete_statistics_refused (df : DataFrame) (time_res : Z)
  (time_col : string) (grouping_cols : list string) (v s : string) :
  (forall c, In c (grouping_cols ++ [time_col]) -> In c (columns df)) ->
  In v (get_vars_from_flat_cols df (grouping_cols ++ [time_col])) ->
  In s lossless_stats ->
  ~ In (v ++ "." ++ s)%string (columns df) ->
  (exists e, coarsen_agg df time_res time_col grouping_cols = Err e) /\
  (exists e, finalize_agg df time_col grouping_cols = Err e).
Proof. apply statistics_column_needed. Qed.

Lemma incomplete_statistics_refused_witness :
  (exists e,
     coarsen_agg (mkDF [(None, [Num (Fin 0)])]
                       [("key", [Str "A"]); ("t", [Time 0]); ("x.count", [Num (Fin 1)])])
                 300 "t" ["key"] = Err e) /\
  (exists e,
     finalize_agg (mkDF [(None, [Num (Fin 0)])]
                        [("key", [Str "A"]); ("t", [Time 0]); ("x.count", [Num (Fin 1)])])
                  "t" ["key"] = Err e).
Proof.
  apply (incomplete_statistics_refused _ 300 "t" ["key"] "x" "sum").
  - simpl. intros c [<- | [<- | []]]; tauto.
  - simpl. tauto.
  - simpl. tauto.
  - simpl. intros [H | [H | [H | []]]]; discriminate H.
Defined.

(** ** Flattened column names *)

(** X15: the names [init_agg] and [coarsen_agg] give to the statistic columns,
    one per variable and statistic, are pairwise distinct when the
    variables are and no statistic has a dot in its name, also for
    variables with dots in their names. *)
Theorem flattened_names_distinct (variables stats : list string) :
  stats <> [] -> NoDup variables -> NoDup stats ->
  (forall s, In s stats -> has_dot s = false) ->
  NoDup (chain (zipn (map (get_cols variables) stats))).
Proof.
  intros Hne Hv Hs Hdot. rewrite chain_zipn_get_cols by assumption.
  now apply stat_cols_NoDup.
Qed.

Lemma flattened_names_distinct_witness :
  NoDup (chain (zipn (map (get_cols ["a"; "a.b"]) ["count"; "sum"]))).
Proof.
  apply flattened_names_distinct.
  - discriminate.
  - repeat constructor; simpl; intuition discriminate.
  - repeat constructor; simpl; intuition discriminate.
  - intros s [<- | [<- | []]]; reflexivity.
Defined.

(** ** A raw table without rows *)

Lemma scenario_empty_raw : raw_table scenario_empty "t" ["key"].
Proof.
  constructor.
  - exists []. reflexivity.
  - simpl. intuition discriminate.
  - repeat constructor; simpl; intuition discriminate.
  - repeat constructor; simpl; intuition.
  - simpl. intros c [<- | []]. now left.
  - intros c [<- | [<- | []]]; reflexivity.
  - intros v [<- | [<- | []]] Hn; [exfalso; apply Hn; now left |].
    exists []. reflexivity.
  - intros v s [<- | [<- | []]] Hn; [exfalso; apply Hn; now left |].
    simpl. intros [H | [H | []]]; discriminate H.
Qed.

(** X11: on a raw table without rows [init_agg] returns the lossless table
    without rows: all the statistic columns are there, each of them
    empty. *)
Theorem init_agg_no_rows (raw : DataFrame) (time_res : Z) (time_col : string)
  (grouping_cols : list string) :
  raw_table raw time_col grouping_cols -> (0 < time_res)%Z ->
  nrows raw = 0%nat ->
  exists out,
    init_agg raw time_res grouping_cols = Ok out /\
    columns out = flat_map (stat_cols init_stats) (variables_of raw grouping_cols) /\
    nrows out = 0%nat /\
    forall c, In c (columns out) -> series out c = [].
Proof.
  intros Hraw Hres Hn.
  destruct (init_agg_raw_table raw time_res time_col grouping_cols Hraw Hres)
    as [Hinit [L _]].
  destruct (raw_rows_count raw time_col grouping_cols Hraw) as [Hn0 _].
  rewrite Hn in Hn0. apply length_zero_iff_nil in Hn0.
  rewrite Hn0 in Hinit, L. cbn [map] in Hinit, L.
  change (group_keys []) with (@nil (list cell)) in *.
  eexists. split; [exact Hinit |]. split; [apply merged_columns |].
  assert (Hrows : nrows (merged_table init_stats (grouping_cols ++ [time_col]) []
                           (variables_of raw grouping_cols) (samples raw)) = 0%nat).
  { unfold nrows, merged_table, cols_of. cbn [index].
    destruct grouping_cols; reflexivity. }
  split; [exact Hrows |].
  intros c Hc. apply length_zero_iff_nil. rewrite <- Hrows.
  now apply (ll_lengths _ _ _ L).
Qed.

Lemma init_agg_no_rows_witness :
  exists out,
    init_agg scenario_empty 300 ["key"] = Ok out /\
    columns out = flat_map (stat_cols init_stats) (variables_of scenario_empty ["key"]) /\
    nrows out = 0%nat /\
    forall c, In c (columns out) -> series out c = [].
Proof.
  exact (init_agg_no_rows scenario_empty 300 "t" ["key"] scenario_empty_raw eq_refl
           eq_refl).
Defined.

(** ** Final tables are final *)

(** X14: the final aggregates cannot be used for further coarsening: the table
    [finalize_agg] returns on a lossless table with a variable is refused by
    [coarsen_agg], at any resolution, and by [finalize_agg] itself. *)
Theorem final_table_not_coarsened (df : DataFrame) (time_col : string)
  (grouping_cols : list string) (v : string) :
  lossless df time_col grouping_cols ->
  (forall w s, In w (get_vars_from_flat_cols df (grouping_cols ++ [time_col])) ->
               In s final_stats ->
               ~ In (w ++ "." ++ s)%string (grouping_cols ++ [time_col])) ->
  In v (get_vars_from_flat_cols df (grouping_cols ++ [time_col])) ->
  exists final,
    finalize_agg df time_col grouping_cols = Ok final /\
    (forall time_res,
       exists e, coarsen_agg final time_res time_col grouping_cols = Err e) /\
    (exists e, finalize_agg final time_col grouping_cols = Err e).
Proof.
  intros L Hfresh Hv.
  destruct (finalize_agg_lossless df time_col grouping_cols L Hfresh)
    as [final [Hfin [Hcols _]]].
  exists final. split; [exact Hfin |].
  assert (H : forall time_res,
            (exists e, coarsen_agg final time_res time_col grouping_cols = Err e) /\
            (exists e, finalize_agg final time_col grouping_cols = Err e)).
  { intros time_res. apply (statistics_column_needed final time_res _ _ v "count").
    - intros c Hc. rewrite Hcols. apply in_or_app. now left.
    - apply get_vars_In. exists (v ++ "." ++ "mean")%string. split; [| split].
      + rewrite Hcols. apply in_or_app. right. apply in_flat_map. exists v.
        split; [assumption |]. apply stat_cols_In. exists "mean". simpl. tauto.
      + apply Hfresh; [assumption | simpl; tauto].
      + symmetry. now apply var_of_col.
    - simpl. tauto.
    - rewrite Hcols. intros Hin. apply in_app_or in Hin as [Hin | Hin].
      + revert Hin. apply (lossless_fresh df time_col grouping_cols L); [assumption |].
        simpl. tauto.
      + apply in_flat_map in Hin as [w [_ Hin]].
        apply stat_cols_In in Hin as [s [Hs E]].
        apply stat_col_inj in E as [_ E]; [| reflexivity | now apply final_stats_no_dot].
        subst s. simpl in Hs. intuition discriminate. }
  split; [intros time_res; apply (H time_res) | apply (H 1%Z)].
Qed.

Lemma final_table_not_coarsened_witness :
  exists final,
    finalize_agg scenario_lossless "t" ["key"] = Ok final /\
    (forall time_res, exists e, coarsen_agg final time_res "t" ["key"] = Err e) /\
    (exists e, finalize_agg final "t" ["key"] = Err e).
Proof.
  apply (final_table_not_coarsened scenario_lossless "t" ["key"] "v"
           scenario_is_lossless).
  - intros w s Hw _. destruct Hw as [<- | []].
    simpl. intros [H | [H | []]]; discriminate H.
  - simpl. tauto.
Defined.

(** * The stages in binary64 arithmetic *)

(** The three samples 100000001, 100000002 and 100000003 of one bucket *)
Lemma close_samples_statistics :
  Binary64.naive [100000001; 100000002; 100000003]%float =
  Binary64.mkFinal 100000002 1 100000001 100000003.
Proof. vm_compute. reflexivity. Qed.

(** C1: in binary64 the round trip does not reproduce the directly computed
    statistics.  For a bucket of the three samples 100000001, 100000002 and
    100000003 [init_agg] stores the sum of squared differences 0, and
    [finalize_agg] returns the standard deviation 0 where the directly
    computed one is 1; count, sum, mean, minimum and maximum are right. *)
Theorem round_trip_binary64 :
  let xs := [100000001; 100000002; 100000003]%float in
  Binary64.init_agg xs =
    Binary64.mkStats 3 300000006 0 100000001 100000003 /\
  Binary64.finalize_agg (Binary64.init_agg xs) =
    Binary64.mkFinal 100000002 0 100000001 100000003 /\
  Binary64.naive_std xs = 1%float.
Proof. vm_compute. repeat split; reflexivity. Qed.

(** C3: in binary64 splitting and merging does not give what the full run
    gives.  With the three samples split into the first and the other two,
    the merge of the two buckets of [init_agg] has the sum of squared
    differences 1.5 where [init_agg] on the three samples stores 0 (the
    exact value is 2); the other statistics agree. *)
Theorem split_merge_binary64 :
  let merged :=
    Binary64.coarsen_agg
      [Binary64.init_agg [100000001]%float;
       Binary64.init_agg [100000002; 100000003]%float] in
  let full := Binary64.init_agg [100000001; 100000002; 100000003]%float in
  merged = Binary64.mkStats 3 300000006 1.5 100000001 100000003 /\
  full = Binary64.mkStats 3 300000006 0 100000001 100000003.
Proof. vm_compute. split; reflexivity. Qed.
